(** * GoXMLProcessor: the image processor (ImageProcessor.go)

    A shallow embedding of the final version of [ImageProcessor.go]
    (the one that imports [html] and [regexp]): the token loop of [main]
    that builds the works/makes/models graph, the constructors
    [createWork], [createMake], [createModel], and the generation of the
    static pages.

    Go strings are byte strings: they are modelled by [string] (a list of
    8-bit [ascii]).  Pointers [*Work], [*Make] and [*Model] are positions
    in three stores kept in the parser state, so that two references to
    the same object are the same number and an update through one is seen
    through the other.  The files are a map from paths to contents; whether
    a call on them goes through is said by an environment, and [main] stops
    where the program tests for an error. *)

From Stdlib Require Import ZArith Ascii String.
From stdpp Require Import base decidable option list strings gmap fin_maps.

Local Open Scope string_scope.
Local Open Scope Z_scope.

(** ** Library functions the program calls *)

Module GoLib.

(** Bytes as numbers. *)
Definition code (c : ascii) : N := N_of_ascii c.

Definition between (lo hi : N) (c : ascii) : bool :=
  (N.leb lo (code c) && N.leb (code c) hi)%bool.

Definition isDigit (c : ascii) : bool := between 48 57 c.
Definition isUpper (c : ascii) : bool := between 65 90 c.
Definition isLower (c : ascii) : bool := between 97 122 c.

(** The six ASCII white-space bytes of [strings.TrimSpace]:
    tab, line feed, vertical tab, form feed, carriage return, space. *)
Definition asciiSpace (c : ascii) : bool :=
  (between 9 13 c || N.eqb (code c) 32)%bool.

(** Width in bytes of the white-space rune encoded at the head of [s], or
    [0] when [s] does not start with one.  Besides the ASCII ones these
    are U+0085, U+00A0, U+1680, U+2000..U+200A, U+2028, U+2029, U+202F,
    U+205F and U+3000 in UTF-8. *)
Definition spaceWidth (s : list N) : nat :=
  match s with
  | 194%N :: (133%N | 160%N) :: _ => 2
  | 225%N :: 154%N :: 128%N :: _ => 3
  | 226%N :: 128%N :: d :: _ =>
      if ((N.leb 128 d && N.leb d 138) || N.eqb d 168 || N.eqb d 169
          || N.eqb d 175)%bool then 3 else 0
  | 226%N :: 129%N :: 159%N :: _ => 3
  | 227%N :: 128%N :: 128%N :: _ => 3
  | c :: _ => if ((N.leb 9 c && N.leb c 13) || N.eqb c 32)%bool then 1 else 0
  | [] => 0
  end%nat.

(** The same, for the rune that ends a string, read on the reversed bytes. *)
Definition spaceWidthRev (r : list N) : nat :=
  match r with
  | (133%N | 160%N) :: 194%N :: _ => 2
  | 128%N :: 154%N :: 225%N :: _ => 3
  | d :: 128%N :: 226%N :: _ =>
      if ((N.leb 128 d && N.leb d 138) || N.eqb d 168 || N.eqb d 169
          || N.eqb d 175)%bool then 3 else 0
  | 159%N :: 129%N :: 226%N :: _ => 3
  | 128%N :: 128%N :: 227%N :: _ => 3
  | c :: _ => if ((N.leb 9 c && N.leb c 13) || N.eqb c 32)%bool then 1 else 0
  | [] => 0
  end%nat.

Fixpoint trimWith (width : list N → nat) (fuel : nat) (s : list N) : list N :=
  match fuel with
  | O => s
  | S fuel' =>
      match width s with
      | O => s
      | w => trimWith width fuel' (drop w s)
      end
  end.

Definition bytes (s : string) : list N := code <$> list_ascii_of_string s.
Definition unbytes (l : list N) : string :=
  string_of_list_ascii (ascii_of_N <$> l).

(** [strings.TrimSpace]: all leading and trailing white space removed. *)
Definition TrimSpace (s : string) : string :=
  let l := trimWith spaceWidth (String.length s) (bytes s) in
  unbytes (reverse (trimWith spaceWidthRev (List.length l) (reverse l))).

(** [strconv.Atoi]: an optional sign, then one or more decimal digits, the
    value within the 64-bit [int]; anything else is an error ([None]). *)
Fixpoint digitsValue (acc : Z) (s : string) : option Z :=
  match s with
  | EmptyString => Some acc
  | String c r =>
      if isDigit c then digitsValue (10 * acc + (Z.of_N (code c) - 48)) r
      else None
  end.

Definition inInt64 (z : Z) : bool :=
  (Z.leb (- 2 ^ 63) z && Z.leb z (2 ^ 63 - 1))%bool.

Definition Atoi (s : string) : option Z :=
  let '(neg, ds) :=
    match s with
    | String "-" r => (true, r)
    | String "+" r => (false, r)
    | _ => (false, s)
    end in
  match ds with
  | EmptyString => None
  | _ =>
      v ← digitsValue 0 ds;
      let z := if neg then - v else v in
      if inInt64 z then Some z else None
  end.

(** [html.EscapeString]: the five characters <, >, &, ' and the double
    quote become character references. *)
Definition dquote : ascii := "034"%char.

Definition escapeByte (c : ascii) : string :=
  if Ascii.eqb c "&" then "&amp;"
  else if Ascii.eqb c "'" then "&#39;"
  else if Ascii.eqb c "<" then "&lt;"
  else if Ascii.eqb c ">" then "&gt;"
  else if Ascii.eqb c dquote then "&#34;"
  else String c EmptyString.

Fixpoint EscapeString (s : string) : string :=
  match s with
  | EmptyString => EmptyString
  | String c r => escapeByte c +:+ EscapeString r
  end.

(** The regular expression [[^A-Za-z0-9]+] of [createMake] and
    [createModel]: one byte of the negated class.  A rune that is not an
    ASCII letter or digit is made of such bytes only, and every such byte
    belongs to one, so runs of runs are runs of bytes. *)
Definition isAlnum (c : ascii) : bool :=
  (isUpper c || isLower c || isDigit c)%bool.

Definition inClass (c : ascii) : bool := negb (isAlnum c).

(** [reg.ReplaceAllString(name, repl)] for a pattern [cls+]: the matches
    are found from the left, each one as long as possible; the text between
    matches is copied and each match is replaced by [repl].  [inMatch]
    says that the byte before belongs to the current match. *)
Fixpoint replaceAllFrom (cls : ascii → bool) (repl : string)
    (inMatch : bool) (s : string) : string :=
  match s with
  | EmptyString => EmptyString
  | String c r =>
      if cls c then
        if inMatch then replaceAllFrom cls repl true r
        else repl +:+ replaceAllFrom cls repl true r
      else String c (replaceAllFrom cls repl false r)
  end.

Definition ReplaceAllString (cls : ascii → bool) (s repl : string) : string :=
  replaceAllFrom cls repl false s.

End GoLib.

(** ** Types *)

(** A [*Work] is the position of the work in [works] of the state (every
    work is made by [createWork] and appended to [works] on the next
    line); a [*Make] is the position of the make in [makes] (the same, with
    [createMake]); a [*Model] is a position in the store of models.  A nil
    pointer is [None]. *)
Abbreviation WorkPtr := nat (only parsing).
Abbreviation MakePtr := nat (only parsing).
Abbreviation ModelPtr := nat (only parsing).

Record Work := mkWork {
  Work_ID : Z;
  Work_FileName : string;
  WMake : option MakePtr;
  WModel : option ModelPtr;
  URISmall : string;
  URIMedium : string;
  URILarge : string
}.

Record Make := mkMake {
  Make_ID : Z;
  Make_Name : string;
  Make_Models : list ModelPtr;
  Make_Works : list WorkPtr;
  Make_PageURL : string
}.

Record Model := mkModel {
  Model_ID : Z;
  MMake : option MakePtr;
  Model_Works : list WorkPtr;
  Model_Name : string;
  Model_PageURL : string
}.

(** ** Constructors *)

Definition createMake (name : string) : Make :=
  {| Make_ID := 0; Make_Name := name; Make_Models := []; Make_Works := [];
     Make_PageURL := GoLib.ReplaceAllString GoLib.inClass name "-" |}.

Definition createModel (name : string) (make : option MakePtr) : Model :=
  {| Model_ID := 0; MMake := make; Model_Works := []; Model_Name := name;
     Model_PageURL := GoLib.ReplaceAllString GoLib.inClass name "-" |}.

Definition createWork : Work :=
  {| Work_ID := -1; Work_FileName := EmptyString; WMake := None;
     WModel := None; URISmall := EmptyString; URIMedium := EmptyString;
     URILarge := EmptyString |}.

(** Field updates. *)
Definition Work_setID (v : Z) (w : Work) : Work :=
  mkWork v (Work_FileName w) (WMake w) (WModel w) (URISmall w) (URIMedium w)
    (URILarge w).
Definition Work_setFileName (v : string) (w : Work) : Work :=
  mkWork (Work_ID w) v (WMake w) (WModel w) (URISmall w) (URIMedium w)
    (URILarge w).
Definition Work_setWMake (v : option MakePtr) (w : Work) : Work :=
  mkWork (Work_ID w) (Work_FileName w) v (WModel w) (URISmall w)
    (URIMedium w) (URILarge w).
Definition Work_setWModel (v : option ModelPtr) (w : Work) : Work :=
  mkWork (Work_ID w) (Work_FileName w) (WMake w) v (URISmall w)
    (URIMedium w) (URILarge w).
Definition Work_setURISmall (v : string) (w : Work) : Work :=
  mkWork (Work_ID w) (Work_FileName w) (WMake w) (WModel w) v (URIMedium w)
    (URILarge w).
Definition Work_setURIMedium (v : string) (w : Work) : Work :=
  mkWork (Work_ID w) (Work_FileName w) (WMake w) (WModel w) (URISmall w) v
    (URILarge w).
Definition Work_setURILarge (v : string) (w : Work) : Work :=
  mkWork (Work_ID w) (Work_FileName w) (WMake w) (WModel w) (URISmall w)
    (URIMedium w) v.

Definition Make_addModel (d : ModelPtr) (m : Make) : Make :=
  mkMake (Make_ID m) (Make_Name m) (Make_Models m ++ [d]) (Make_Works m)
    (Make_PageURL m).
Definition Make_addWork (w : WorkPtr) (m : Make) : Make :=
  mkMake (Make_ID m) (Make_Name m) (Make_Models m) (Make_Works m ++ [w])
    (Make_PageURL m).
Definition Model_addWork (w : WorkPtr) (d : Model) : Model :=
  mkModel (Model_ID d) (MMake d) (Model_Works d ++ [w]) (Model_Name d)
    (Model_PageURL d).

(** ** The token stream *)

(** [xml.Attr]: only [Value] is read by the program. *)
Record Attr := mkAttr { Attr_Name : string; Attr_Value : string }.

(** The tokens of [dec.Token()]; [OtherToken] stands for comments,
    processing instructions and directives, which no case of the switch
    handles. *)
Inductive Token :=
  | StartElement (name : string) (attr : list Attr)
  | EndElement (name : string)
  | CharData (text : string)
  | OtherToken.

(** How the stream ends: [io.EOF], or another error of the decoder. *)
Inductive StreamEnd := EOF | ReadError.

(** ** The state of the loop of [main] *)

Record State := mkState {
  stack : list string;
  works : list Work;
  makes : list Make;
  models : list Model;
  worksSM : list WorkPtr;
  newWork : option WorkPtr;
  newModelDetected : bool;
  newModel : string;
  thumbnailURI : bool;
  mediumURI : bool;
  largeURI : bool
}.

Definition set_stack (v : list string) (s : State) : State :=
  mkState v (works s) (makes s) (models s) (worksSM s) (newWork s)
    (newModelDetected s) (newModel s) (thumbnailURI s) (mediumURI s)
    (largeURI s).
Definition set_works (v : list Work) (s : State) : State :=
  mkState (stack s) v (makes s) (models s) (worksSM s) (newWork s)
    (newModelDetected s) (newModel s) (thumbnailURI s) (mediumURI s)
    (largeURI s).
Definition set_makes (v : list Make) (s : State) : State :=
  mkState (stack s) (works s) v (models s) (worksSM s) (newWork s)
    (newModelDetected s) (newModel s) (thumbnailURI s) (mediumURI s)
    (largeURI s).
Definition set_models (v : list Model) (s : State) : State :=
  mkState (stack s) (works s) (makes s) v (worksSM s) (newWork s)
    (newModelDetected s) (newModel s) (thumbnailURI s) (mediumURI s)
    (largeURI s).
Definition set_worksSM (v : list WorkPtr) (s : State) : State :=
  mkState (stack s) (works s) (makes s) (models s) v (newWork s)
    (newModelDetected s) (newModel s) (thumbnailURI s) (mediumURI s)
    (largeURI s).
Definition set_newWork (v : option WorkPtr) (s : State) : State :=
  mkState (stack s) (works s) (makes s) (models s) (worksSM s) v
    (newModelDetected s) (newModel s) (thumbnailURI s) (mediumURI s)
    (largeURI s).
Definition set_newModelDetected (v : bool) (s : State) : State :=
  mkState (stack s) (works s) (makes s) (models s) (worksSM s) (newWork s)
    v (newModel s) (thumbnailURI s) (mediumURI s) (largeURI s).
Definition set_newModel (v : string) (s : State) : State :=
  mkState (stack s) (works s) (makes s) (models s) (worksSM s) (newWork s)
    (newModelDetected s) v (thumbnailURI s) (mediumURI s) (largeURI s).
Definition set_thumbnailURI (v : bool) (s : State) : State :=
  mkState (stack s) (works s) (makes s) (models s) (worksSM s) (newWork s)
    (newModelDetected s) (newModel s) v (mediumURI s) (largeURI s).
Definition set_mediumURI (v : bool) (s : State) : State :=
  mkState (stack s) (works s) (makes s) (models s) (worksSM s) (newWork s)
    (newModelDetected s) (newModel s) (thumbnailURI s) v (largeURI s).
Definition set_largeURI (v : bool) (s : State) : State :=
  mkState (stack s) (works s) (makes s) (models s) (worksSM s) (newWork s)
    (newModelDetected s) (newModel s) (thumbnailURI s) (mediumURI s) v.

(** The variables of [main] before the loop. *)
Definition init : State :=
  mkState [] [] [] [] [] None false EmptyString false false false.

(** ** Ways the run can stop *)

(** The messages written before [os.Exit(1)]. *)
Inductive Fatal :=
  | TokenReadError        (* Error reading XML data body token *)
  | PopWithoutOpen        (* Attempting to pop an element without any on stack *)
  | CloseWithoutOpener    (* Closing element without matching opener *)
  | WorkIDFormat          (* Error converting Work ID *)
  | OrphanID              (* ID data detected without an active current Work *)
  | OrphanFilename        (* Filename detected without an active current Work *)
  | OrphanMake            (* Make detected with no active Work element *)
  | ModelWithoutWorks     (* No works recorded, but already processing a camera model *)
  | OutputDirCheck        (* Error checking output directory placement *)
  | IndexCreate           (* Error creating index HTML file *)
  | IndexWrite            (* Error writing output to disk file *)
  | MakePageCreate        (* Error creating camera make page *)
  | MakePageWrite         (* Error writing output to make HTML file *)
  | GenericPageCreate     (* Error creating generic works page *)
  | GenericPageWrite      (* Error writing output to generic make works file *)
  | ModelPageCreate.      (* Error creating camera model page *)

(** A structural error of the XML: one of the two checks of the end-tag case. *)
Definition structural (e : Fatal) : bool :=
  match e with
  | PopWithoutOpen | CloseWithoutOpener => true
  | _ => false
  end.

(** [Ok]: the code went on; [Exit1]: [os.Exit(1)] after a message;
    [Panic]: a run-time panic of Go (nil dereference, index out of range). *)
Inductive Outcome (A : Type) :=
  | Ok (a : A)
  | Exit1 (e : Fatal)
  | Panic.
Arguments Ok {A} a.
Arguments Exit1 {A} e.
Arguments Panic {A}.

#[global] Instance Outcome_bind : MBind Outcome := λ A B f x,
  match x with
  | Ok a => f a
  | Exit1 e => Exit1 e
  | Panic => Panic
  end.

(** How the process ends. *)
Inductive ExitStatus :=
  | Exit0
  | ExitFatal (e : Fatal)
  | ExitPanic.

(** ** The literals of [main] *)
Definition ID := "id".
Definition FILENAME := "filename".
Definition WORK := "work".
Definition MODEL := "model".
Definition MAKE := "make".
Definition URISMALL := "small".
Definition URIMEDIUM := "medium".
Definition URILARGE := "large".

(** [len(stack) > 0 && stack[len(stack)-1] == name] *)
Definition topIs (name : string) (s : State) : bool :=
  match last (stack s) with
  | Some top => String.eqb top name
  | None => false
  end.

(** ** The start-tag case *)

(** One turn of [for _, val := range token.Attr]. *)
Definition onAttr (s : State) (val : Attr) : State :=
  let s := if String.eqb (Attr_Value val) URISMALL
           then set_thumbnailURI true s else s in
  let s := if String.eqb (Attr_Value val) URIMEDIUM
           then set_mediumURI true s else s in
  if String.eqb (Attr_Value val) URILARGE then set_largeURI true s else s.

Definition onStartElement (s : State) (name : string) (attr : list Attr)
    : Outcome State :=
  let s := set_stack (stack s ++ [name]) s in
  let s :=
    if topIs WORK s then
      (* newWork = createWork(); works = append(works, newWork) *)
      set_newWork (Some (length (works s)))
        (set_works (works s ++ [createWork]) s)
    else s in
  let s := if topIs "url" s then foldl onAttr s attr else s in
  Ok s.

(** ** The end-tag case *)

(** The end of a [work] element.  [newWork.WMake] on a nil [newWork] is a
    nil dereference. *)
Definition finishWork (s : State) : Outcome State :=
  match newWork s with
  | None => Panic
  | Some thisWork =>
      match works s !! thisWork with
      | None => Panic
      | Some w =>
          let thisMake := WMake w in
          let thisModel := WModel w in
          let s :=
            match thisMake with
            | None => set_worksSM (worksSM s ++ [thisWork]) s
            | Some _ => s
            end in
          let s :=
            match thisMake, thisModel with
            | Some mk, Some md =>
                set_models (alter (Model_addWork thisWork) md (models s))
                  (set_makes (alter (Make_addWork thisWork) mk (makes s)) s)
            | _, _ => s
            end in
          Ok (set_newModel EmptyString
                (set_newModelDetected false (set_newWork None s)))
      end
  end.

Definition onEndElement (s : State) (name : string) : Outcome State :=
  match last (stack s) with
  | None => Exit1 PopWithoutOpen
  | Some elementPopped =>
      let s := set_stack (removelast (stack s)) s in
      if negb (String.eqb elementPopped name) then Exit1 CloseWithoutOpener
      else if String.eqb elementPopped WORK then finishWork s
      else Ok s
  end.

(** ** The text case *)

(** [works[len(works)-1].f = v]; an empty [works] makes the index
    expression panic. *)
Definition updLastWork (f : Work → Work) (s : State) : Outcome State :=
  match works s with
  | [] => Panic
  | _ => Ok (set_works (alter f (length (works s) - 1)%nat (works s)) s)
  end.

Definition onID (s : State) (token : string) : Outcome State :=
  match GoLib.Atoi (GoLib.TrimSpace token) with
  | None => Exit1 WorkIDFormat
  | Some IDData =>
      match newWork s with
      | Some w => Ok (set_works (alter (Work_setID IDData) w (works s)) s)
      | None => Exit1 OrphanID
      end
  end.

Definition onFilename (s : State) (token : string) : Outcome State :=
  let FileName := GoLib.TrimSpace token in
  match newWork s with
  | Some w => Ok (set_works (alter (Work_setFileName FileName) w (works s)) s)
  | None => Exit1 OrphanFilename
  end.

(** The name a make text stands for: trimmed, and the generic label when
    nothing is left. *)
Definition makeName (token : string) : string :=
  let thisToken := GoLib.TrimSpace token in
  if String.eqb thisToken EmptyString then "(Generic make)" else thisToken.

(** [for _, make := range makes] with its [break]: the first make of that
    name. *)
Fixpoint findMake (name : string) (l : list Make) (i : MakePtr)
    : option MakePtr :=
  match l with
  | [] => None
  | make :: r =>
      if String.eqb (Make_Name make) name then Some i
      else findMake name r (S i)
  end.

(** The first half of the make case: the make of that name is found or
    made, and assigned to the last work.  Returns the state and
    [thisMake]. *)
Definition resolveMake (s : State) (token : string)
    : Outcome (State * MakePtr) :=
  match newWork s with
  | None => Exit1 OrphanMake
  | Some _ =>
      let thisToken := makeName token in
      match findMake thisToken (makes s) 0%nat with
      | Some thisMake =>
          s ← updLastWork (Work_setWMake (Some thisMake)) s;
          Ok (s, thisMake)
      | None =>
          let thisMake := length (makes s) in
          let s := set_makes (makes s ++ [createMake thisToken]) s in
          s ← updLastWork (Work_setWMake (Some thisMake)) s;
          Ok (s, thisMake)
      end
  end.

(** [for _, model := range thisWork.WMake.Models], which has no [break]:
    the last model of that name. *)
Definition findModel (name : string) (heap : list Model)
    (l : list ModelPtr) : option ModelPtr :=
  foldl (λ found p,
           match heap !! p with
           | Some model =>
               if String.eqb (Model_Name model) name then Some p else found
           | None => found
           end) None l.

(** The second half of the make case, under [newModelDetected == true]. *)
Definition resolveModel (s : State) (thisMake : MakePtr) : Outcome State :=
  match works s with
  | [] => Exit1 ModelWithoutWorks
  | _ =>
      let thisWork := (length (works s) - 1)%nat in
      let s := if String.eqb (newModel s) EmptyString
               then set_newModel "(Generic model)" s else s in
      let wmake := works s !! thisWork ≫= WMake in
      let found :=
        match wmake with
        | Some mk =>
            match makes s !! mk with
            | Some make => findModel (newModel s) (models s) (Make_Models make)
            | None => None
            end
        | None => None
        end in
      let s :=
        match found with
        | Some thisModel =>
            set_works (alter (Work_setWModel (Some thisModel)) thisWork
                         (works s)) s
        | None =>
            let thisModel := length (models s) in
            let s := set_models
                       (models s ++ [createModel (newModel s) (Some thisMake)])
                       s in
            let s :=
              match wmake with
              | Some mk =>
                  set_works (alter (Work_setWModel (Some thisModel)) thisWork
                               (works s))
                    (set_makes (alter (Make_addModel thisModel) mk (makes s))
                       s)
              | None => s
              end in
            set_newModel EmptyString s
        end in
      Ok (set_newModelDetected false s)
  end.

Definition onMake (s : State) (token : string) : Outcome State :=
  '(s, thisMake) ← resolveMake s token;
  if newModelDetected s then resolveModel s thisMake else Ok s.

Definition onModel (s : State) (token : string) : State :=
  set_newModelDetected true (set_newModel (GoLib.TrimSpace token) s).

(** The three blocks on the URI flags; they guard on [len(works) > 0]. *)
Definition onURI (flag : State → bool) (clear : State → State)
    (setField : string → Work → Work) (s : State) (token : string) : State :=
  if flag s then
    let s :=
      match works s with
      | [] => s
      | _ => set_works (alter (setField (GoLib.TrimSpace token))
                          (length (works s) - 1)%nat (works s)) s
      end in
    clear s
  else s.

(** The three URI blocks that end the text case. *)
Definition uriBlocks (s : State) (token : string) : State :=
  onURI largeURI (set_largeURI false) Work_setURILarge
    (onURI mediumURI (set_mediumURI false) Work_setURIMedium
       (onURI thumbnailURI (set_thumbnailURI false) Work_setURISmall s token)
       token) token.

Definition onCharData (s : State) (token : string) : Outcome State :=
  s ← (if topIs ID s then onID s token else Ok s);
  s ← (if topIs FILENAME s then onFilename s token else Ok s);
  s ← (if topIs MAKE s then onMake s token else Ok s);
  let s := if topIs MODEL s then onModel s token else s in
  Ok (uriBlocks s token).

(** ** The loop *)

Definition step (s : State) (token : Token) : Outcome State :=
  match token with
  | StartElement name attr => onStartElement s name attr
  | EndElement name => onEndElement s name
  | CharData text => onCharData s text
  | OtherToken => Ok s
  end.

Fixpoint run (s : State) (tokens : list Token) : Outcome State :=
  match tokens with
  | [] => Ok s
  | token :: rest => s ← step s token; run s rest
  end.

(** The whole loop on a stream: its tokens, then how it ends. *)
Definition parse (tokens : list Token) (e : StreamEnd) : Outcome State :=
  s ← run init tokens;
  match e with
  | EOF => Ok s
  | ReadError => Exit1 TokenReadError
  end.

(** ** The generated pages *)

Module Site.

Definition q : string := String GoLib.dquote EmptyString.
Definition tab : string := String "009"%char EmptyString.

(** The frame every page is written in: title, heading, navigation and
    content are the four places the literals leave open. *)
Definition page (title heading nav content : string) : string :=
  "<!DOCTYPE html><html><head><title>" +:+ title +:+ "</title><style type="
  +:+ q +:+ "text/css" +:+ q +:+ ">nav { margin: 10px;" +:+ tab
  +:+ "}</style></head><body><header><h1>" +:+ heading +:+ "</h1><nav>"
  +:+ nav +:+ "</nav></header>" +:+ content +:+ "</body></html>".

Definition selectOpen (what : string) : string :=
  "<select onchange=" +:+ q
  +:+ "if (this.value) window.location.href=this.value" +:+ q
  +:+ "><option value=" +:+ q +:+ q +:+ ">-- select a camera " +:+ what
  +:+ "</option>".

Definition option_ (pageURL name : string) : string :=
  "<option value=" +:+ q +:+ GoLib.EscapeString pageURL +:+ ".html" +:+ q
  +:+ ">" +:+ GoLib.EscapeString name +:+ "</option>".

Definition backHome : string :=
  "<a href=" +:+ q +:+ "index.html" +:+ q +:+ ">back to homepage</a>".

Definition img (wk : Work) : string :=
  "<img src=" +:+ GoLib.EscapeString (URISmall wk) +:+ "> ".

(** The thumbnail loops: the works that pass the test of the loop, up to
    ten of them ([imgCount] counts them, [break] at ten). *)
Fixpoint thumbs (keep : Work → bool) (imgCount : nat) (l : list Work)
    : string :=
  match l with
  | [] => EmptyString
  | wk :: r =>
      if keep wk then
        img wk +:+
        (if (10 <=? S imgCount)%nat then EmptyString
         else thumbs keep (S imgCount) r)
      else thumbs keep imgCount r
  end.

Section Pages.
Variable s : State.

Definition deref (l : list WorkPtr) : list Work :=
  omap (λ p, works s !! p) l.

Definition indexNavigation : string :=
  foldl (λ nav mk, nav +:+ option_ (Make_PageURL mk) (Make_Name mk))
    (selectOpen "make") (makes s)
  +:+ (match worksSM s with
       | [] => "</select>"
       | _ => "<option value=" +:+ q +:+ "nomake.html" +:+ q
              +:+ ">(no make/generic)</option></select>"
       end).

Definition indexPage : string :=
  page "Welcome to Phoots!" "Welcome to Photos!" indexNavigation
    (thumbs (λ _, true) 0 (works s)).

Definition modelNavigation (mk : Make) : string :=
  foldl (λ nav md, nav +:+ option_ (Model_PageURL md) (Model_Name md))
    (selectOpen "model") (omap (λ p, models s !! p) (Make_Models mk))
  +:+ "</select>".

(** [wk.WMake != nil && wk.WMake.Name == mk.Name] *)
Definition ofMake (mk : Make) (wk : Work) : bool :=
  match WMake wk with
  | Some p =>
      match makes s !! p with
      | Some m => String.eqb (Make_Name m) (Make_Name mk)
      | None => false
      end
  | None => false
  end.

Definition makePage (mk : Make) : string :=
  page ("All photos taken with a " +:+ GoLib.EscapeString (Make_Name mk))
    ("All photos taken with a <i>" +:+ Make_Name mk +:+ "</i> camera")
    (backHome +:+ " | " +:+ modelNavigation mk)
    (thumbs (ofMake mk) 0 (deref (Make_Works mk))).

Definition nomakePage (wk : Work) : string :=
  page "Generic Photographic Works" "Generic Photos" (backHome +:+ " ")
    (EmptyString +:+ img wk).

Definition modelPage (mk : Make) (md : Model) : string :=
  page ("All photos taken with a " +:+ GoLib.EscapeString (Model_Name md))
    ("All photos taken with a <i>" +:+ GoLib.EscapeString (Model_Name md)
     +:+ "</i> camera")
    (backHome +:+ " | <a href=" +:+ q
     +:+ GoLib.EscapeString (Make_PageURL mk) +:+ ".html" +:+ q
     +:+ ">back to make</a>")
    (thumbs (ofMake mk) 0 (deref (Model_Works md))).
End Pages.

(** *** The files *)

(** What the program does to the files of the output directory:
    [os.Create] and [f.WriteString], in the order of the calls. *)
Inductive FsOp :=
  | Create (path : string)
  | Write (path data : string).

(** The effect on the files, a map from path to content, of a call that
    went through: [os.Create] truncates; [f.WriteString] writes at the
    offset of the handle, which is the end of the file here since every
    handle is written once, right after its [os.Create].  Whether a call
    goes through is said by the environment, below. *)
Definition perform (fs : gmap string string) (op : FsOp)
    : gmap string string :=
  match op with
  | Create path => <[path := EmptyString]> fs
  | Write path data => alter (λ old, old +:+ data) path fs
  end.

Definition replay (ops : list FsOp) (fs : gmap string string)
    : gmap string string :=
  foldl perform fs ops.

(** The calls that create the file [path]. *)
Fixpoint creations (path : string) (ops : list FsOp) : nat :=
  match ops with
  | [] => 0
  | Create p :: rest =>
      ((if String.eqb p path then 1 else 0) + creations path rest)%nat
  | Write _ _ :: rest => creations path rest
  end.

(** *** The environment *)

(** What [os.Stat] answers. *)
Inductive StatResult :=
  | StatOk
  | StatNotExist
  | StatOtherError.

(** The part of the world the program does not decide.  No handle is closed
    before [main] returns ([defer f.Close()]), so what a call meets may
    depend on all the calls made before it:
    - [stat path]: the answer of [os.Stat];
    - [created past path]: [os.Create] of [path] goes through, after the
      calls [past];
    - [written past path data]: [None] when [f.WriteString] writes all of
      [data]; [Some n] when it returns an error after [n] bytes. *)
Record Env := mkEnv {
  stat : string → StatResult;
  created : list FsOp → string → bool;
  written : list FsOp → string → string → option nat
}.

(** The environment in which every call goes through. *)
Definition healthy : Env :=
  mkEnv (λ _, StatOk) (λ _ _, true) (λ _ _ _, None).

(** [fileExists]: whether the path is there, and whether the check itself
    failed ([err != nil]). *)
Definition fileExists (env : Env) (path : string) : bool * bool :=
  match stat env path with
  | StatOk => (true, false)
  | StatNotExist => (false, false)
  | StatOtherError => (true, true)
  end.

(** A call together with the message the program exits on when the call
    returns an error; [None] when the error is not looked at. *)
Record Call := mkCall { Call_op : FsOp; Call_fatal : option Fatal }.

(** The calls of one part of the program: every [os.Create] is followed by
    a test of its error, and so are the [f.WriteString]s of all pages but
    the model pages. *)
Definition checked (onCreate : Fatal) (onWrite : option Fatal) (op : FsOp)
    : Call :=
  match op with
  | Create _ => mkCall op (Some onCreate)
  | Write _ _ => mkCall op onWrite
  end.

(** One call in the environment: what it did to the files, and whether it
    went through.  A [f.WriteString] that fails has written the first [n]
    bytes. *)
Definition attempt (env : Env) (past : list FsOp) (op : FsOp)
    : list FsOp * bool :=
  match op with
  | Create path =>
      if created env past path then ([op], true) else ([], false)
  | Write path data =>
      match written env past path data with
      | None => ([op], true)
      | Some n => ([Write path (String.substring 0 n data)], false)
      end
  end.

(** The calls in their order, up to the first failure the program tests
    for, where it exits with status 1. *)
Fixpoint exec (env : Env) (past : list FsOp) (cs : list Call)
    : ExitStatus * list FsOp :=
  match cs with
  | [] => (Exit0, past)
  | c :: rest =>
      let '(did, ok) := attempt env past (Call_op c) in
      if ok then exec env (past ++ did)%list rest
      else
        match Call_fatal c with
        | Some err => (ExitFatal err, (past ++ did)%list)
        | None => exec env (past ++ did)%list rest
        end
  end.

Section Generate.
Variable outputFolderLocation : string.
Variable s : State.

Definition outFile (name : string) : string :=
  "./" +:+ outputFolderLocation +:+ "/" +:+ name.

Definition genIndex : list FsOp :=
  [Create (outFile "index.html"); Write (outFile "index.html") (indexPage s)].

Definition genMake (mk : Make) : list FsOp :=
  let outFileName := outFile (Make_PageURL mk +:+ ".html") in
  [Create outFileName; Write outFileName (makePage s mk)].

(** One turn of [for _, wk := range worksSM]. *)
Definition genNoMake1 (wk : Work) : list FsOp :=
  [Create (outFile "nomake.html");
   Write (outFile "nomake.html") (nomakePage wk)].

Definition genNoMake : list FsOp :=
  match worksSM s with
  | [] => []
  | _ => deref s (worksSM s) ≫= genNoMake1
  end.

Definition genModel (mk : Make) (md : Model) : list FsOp :=
  let outFileName := outFile (Model_PageURL md +:+ ".html") in
  [Create outFileName; Write outFileName (modelPage s mk md)].

Definition genModels (mk : Make) : list FsOp :=
  omap (λ p, models s !! p) (Make_Models mk) ≫= genModel mk.

(** The calls on files after the loop of [main], in their order. *)
Definition generate : list FsOp :=
  genIndex ++ (makes s ≫= genMake) ++ genNoMake ++ (makes s ≫= genModels).

(** The same calls with the tests that follow them. *)
Definition calls : list Call :=
  (checked IndexCreate (Some IndexWrite) <$> genIndex)
  ++ (checked MakePageCreate (Some MakePageWrite) <$> (makes s ≫= genMake))
  ++ (checked GenericPageCreate (Some GenericPageWrite) <$> genNoMake)
  ++ (checked ModelPageCreate None <$> (makes s ≫= genModels)).
End Generate.

End Site.

(** ** The program *)

(** [main] from the decoder on, in an environment: the exit status and the
    calls that took effect on the files of the output directory.  After the
    loop the folder is checked with [fileExists] and made with
    [os.MkdirAll] when it is not in place; the error of [os.MkdirAll] is
    dropped, and whether the files can be created in the folder is the
    environment's to say. *)
Definition main (env : Site.Env) (outputFolderLocation : string)
    (tokens : list Token) (e : StreamEnd) : ExitStatus * list Site.FsOp :=
  match parse tokens e with
  | Ok s =>
      let '(fileInPlace, err) :=
        Site.fileExists env ("./" +:+ outputFolderLocation) in
      if err then (ExitFatal OutputDirCheck, [])
      else Site.exec env [] (Site.calls outputFolderLocation s)
  | Exit1 err => (ExitFatal err, [])
  | Panic => (ExitPanic, [])
  end.

(** ** Notions used to state the properties *)

(** *** Slugs, as the specification words them *)

Definition joinS (l : list string) : string := foldr String.app EmptyString l.

Fixpoint allChars (p : ascii → bool) (s : string) : bool :=
  match s with
  | EmptyString => true
  | String c r => p c && allChars p r
  end.

(** A run: a non-empty string whose bytes are all in the class ([true])
    or all outside it ([false]). *)
Definition isRun (cls : ascii → bool) (x : bool * string) : bool :=
  negb (String.eqb x.2 EmptyString)
  && allChars (λ c, Bool.eqb (cls c) x.1) x.2.

(** Runs that follow each other are of different kinds, which makes each
    of them maximal. *)
Fixpoint alternate (l : list (bool * string)) : bool :=
  match l with
  | x :: r =>
      match r with
      | y :: _ => negb (Bool.eqb x.1 y.1) && alternate r
      | [] => true
      end
  | [] => true
  end.

(** [rs] cuts [s] into its maximal runs. *)
Definition maximalRuns (cls : ascii → bool) (s : string)
    (rs : list (bool * string)) : Prop :=
  joinS (snd <$> rs) = s ∧ forallb (isRun cls) rs = true
  ∧ alternate rs = true.

(** Every run of the class replaced by one separator. *)
Definition replaceRuns (sep : string) (rs : list (bool * string)) : string :=
  joinS ((λ x, if x.1 : bool then sep else x.2) <$> rs).

(** The cut of a string into maximal runs, computed. *)
Fixpoint runs (cls : ascii → bool) (s : string) : list (bool * string) :=
  match s with
  | EmptyString => []
  | String c r =>
      match runs cls r with
      | (b, run) :: rest =>
          if Bool.eqb b (cls c) then (b, String c run) :: rest
          else (cls c, String c EmptyString) :: (b, run) :: rest
      | [] => [(cls c, String c EmptyString)]
      end
  end.

(** *** The graph *)

(** The names of the registry of makes, in order. *)
Definition names (s : State) : list string := Make_Name <$> makes s.

(** The make and the model a work points to. *)
Definition workMake (s : State) (w : WorkPtr) : option MakePtr :=
  works s !! w ≫= WMake.
Definition workModel (s : State) (w : WorkPtr) : option ModelPtr :=
  works s !! w ≫= WModel.

(** The make text tokens: a text that arrives with [make] on top of the
    stack.  [firedMake] gives the name such a token stands for. *)
Definition firedMake (s : State) (token : Token) : option string :=
  match token with
  | CharData text => if topIs MAKE s then Some (makeName text) else None
  | _ => None
  end.

(** The names of the make text tokens met by the loop on [tokens]. *)
Fixpoint firedMakes (s : State) (tokens : list Token) : list string :=
  match tokens with
  | [] => []
  | token :: rest =>
      match step s token with
      | Ok s' =>
          match firedMake s token with
          | Some n => n :: firedMakes s' rest
          | None => firedMakes s' rest
          end
      | _ => []
      end
  end.

(** What holds of the variables at every turn of the loop. *)
Record wf (s : State) : Prop := mk_wf {
  wf_newWork : ∀ w, newWork s = Some w → S w = length (works s);
  wf_names : NoDup (names s);
  wf_worksSM : ∀ w, w ∈ worksSM s → (w < length (works s))%nat
}.

(** [frame s s']: from [s] to [s'] the graph did not move; only the
    identifier, file name and URLs of works and the URI flags may differ. *)
Definition frame (s s' : State) : Prop :=
  stack s' = stack s ∧ makes s' = makes s ∧ models s' = models s
  ∧ worksSM s' = worksSM s ∧ newWork s' = newWork s
  ∧ newModelDetected s' = newModelDetected s ∧ newModel s' = newModel s
  ∧ WMake <$> works s' = WMake <$> works s
  ∧ WModel <$> works s' = WModel <$> works s.

(** [graphSame s s']: the same, but for the pending model name and its
    flag. *)
Definition graphSame (s s' : State) : Prop :=
  stack s' = stack s ∧ makes s' = makes s ∧ models s' = models s
  ∧ worksSM s' = worksSM s ∧ newWork s' = newWork s
  ∧ WMake <$> works s' = WMake <$> works s
  ∧ WModel <$> works s' = WModel <$> works s.

(** The path of an operation. *)
Definition opPath (op : Site.FsOp) : string :=
  match op with
  | Site.Create path => path
  | Site.Write path _ => path
  end.

(** The name under which a pending model is resolved: the generic label
    when the trimmed text was empty. *)
Definition pendingName (s : State) : string :=
  if String.eqb (newModel s) EmptyString then "(Generic model)"
  else newModel s.

(** *** Which works a turn of the loop may write to *)

(** Two works that agree on all but the three URLs. *)
Definition sameCore (wk wk' : Work) : Prop :=
  Work_ID wk' = Work_ID wk ∧ Work_FileName wk' = Work_FileName wk
  ∧ WMake wk' = WMake wk ∧ WModel wk' = WModel wk.

Definition anyChange (wk wk' : Work) : Prop := True.

(** [touch i R l l']: from [l] to [l'] the work at [i] moved within [R]
    and the others did not move. *)
Definition touch (i : nat) (R : Work → Work → Prop) (l l' : list Work)
    : Prop :=
  length l' = length l
  ∧ ∀ j wk, l !! j = Some wk →
      ∃ wk', l' !! j = Some wk' ∧ (j = i → R wk wk') ∧ (j ≠ i → wk' = wk).

(** *** Counting the images of a page *)

(** The number of places of [s] where [pat] starts. *)
Fixpoint occurrences (pat s : string) : nat :=
  match s with
  | EmptyString => 0
  | String _ r => (if String.prefix pat s then 1 else 0) + occurrences pat r
  end%nat.

(** No image tag can start in [s], whatever follows it: every "<" of [s]
    has a next byte in [s], and that byte is not "i". *)
Fixpoint quiet (s : string) : bool :=
  match s with
  | EmptyString => true
  | String c r =>
      (if Ascii.eqb c "<" then
         match r with
         | String d _ => negb (Ascii.eqb d "i")
         | EmptyString => false
         end
       else true) && quiet r
  end.

(** *** Sample streams *)

(** The state the loop reaches, for streams on which it does not stop. *)
Definition reached (s : State) (tokens : list Token) : State :=
  match run s tokens with
  | Ok s' => s'
  | _ => s
  end.

Definition small : Attr := mkAttr "type" "small".

(** <works><work><make> *)
Definition sample_open_make : list Token :=
  [StartElement "works" []; StartElement "work" [];
   StartElement "make" []].

(** </make></work><work><make> *)
Definition sample_next_make : list Token :=
  [EndElement "make"; EndElement "work"; StartElement "work" [];
   StartElement "make" []].

(** <work><model>D90</model><make> *)
Definition sample_model_then_make : list Token :=
  [StartElement "work" []; StartElement "model" []; CharData "D90";
   EndElement "model"; StartElement "make" []].


(** <works><work><make>Nikon</make></work></works>: a work with a make
    and no model. *)
Definition sample_make_only : list Token :=
  [StartElement "works" []; StartElement "work" []; StartElement "make" [];
   CharData "Nikon"; EndElement "make"; EndElement "work";
   EndElement "works"].

(** <works><work><url type="small">a.jpg</url></work> *)
Definition sample_closed_work : list Token :=
  [StartElement "works" []; StartElement "work" [];
   StartElement "url" [small]; CharData "a.jpg"; EndElement "url";
   EndElement "work"].

(** <url type="small">late.jpg</url></works> *)
Definition sample_late_url : list Token :=
  [StartElement "url" [small]; CharData "late.jpg"; EndElement "url";
   EndElement "works"].

(** <works><model>D90</model></works> *)
Definition sample_orphan_model : list Token :=
  [StartElement "works" []; StartElement "model" []; CharData "D90";
   EndElement "model"; EndElement "works"].

(** <works><url type="small">a.jpg</url></works> *)
Definition sample_orphan_url : list Token :=
  [StartElement "works" []; StartElement "url" [small]; CharData "a.jpg";
   EndElement "url"; EndElement "works"].

(** <works><work><make>A&lt;b</make></work></works>, as the decoder
    hands it over: the text of the make is A<b. *)
Definition sample_markup_make : list Token :=
  [StartElement "works" []; StartElement "work" []; StartElement "make" [];
   CharData "A<b"; EndElement "make"; EndElement "work";
   EndElement "works"].

(** Two works: one with id 1, file a.jpg, model D90, make Nikon and a
    small URL; one with no make text and a small URL. *)
Definition sample_two_works : list Token :=
  [StartElement "works" [];
   StartElement "work" [];
   StartElement "id" []; CharData "1"; EndElement "id";
   StartElement "filename" []; CharData "a.jpg"; EndElement "filename";
   StartElement "model" []; CharData "D90"; EndElement "model";
   StartElement "make" []; CharData "Nikon"; EndElement "make";
   StartElement "url" [small]; CharData "a-thumb.jpg"; EndElement "url";
   EndElement "work";
   StartElement "work" [];
   StartElement "id" []; CharData "2"; EndElement "id";
   StartElement "url" [small]; CharData "b-thumb.jpg"; EndElement "url";
   EndElement "work";
   EndElement "works"].

(** ** [containsAll] *)

(** [containsAll(x, y)]: while [y] is not longer than [x], the head of [x]
    is dropped, and the head of [y] with it when they are equal; [true] as
    soon as [y] is empty.  ([x[0]] is read only when [y] is not empty and
    not longer than [x], so [x] is not empty there.) *)
Fixpoint containsAll (x y : list string) : bool :=
  if (length y <=? length x)%nat then
    match y with
    | [] => true
    | y0 :: y' =>
        match x with
        | [] => false
        | x0 :: x' => containsAll x' (if String.eqb x0 y0 then y' else y)
        end
    end
  else false.

(** *** Shapes of slugs *)

(** No two bytes [c] side by side in [s]. *)
Fixpoint noDouble (c : ascii) (s : string) : bool :=
  match s with
  | String a ((String b _) as r) =>
      negb (Ascii.eqb a c && Ascii.eqb b c) && noDouble c r
  | _ => true
  end.

Definition startsWith (c : ascii) (s : string) : bool :=
  match s with
  | String a _ => Ascii.eqb a c
  | EmptyString => false
  end.

(** An ASCII letter, a digit or the separator. *)
Definition slugByte (c : ascii) : bool :=
  GoLib.isAlnum c || Ascii.eqb c "-".

(** The page name of a make or model of that name. *)
Definition slug (name : string) : string :=
  GoLib.ReplaceAllString GoLib.inClass name "-".

(** *** The tags of a stream *)

(** The path of open elements after the tags of [tokens], from [path];
    [None] when an end-tag does not close the innermost open element. *)
Fixpoint openPath (path : list string) (tokens : list Token)
    : option (list string) :=
  match tokens with
  | [] => Some path
  | StartElement name _ :: rest => openPath (path ++ [name]) rest
  | EndElement name :: rest =>
      match last path with
      | Some top =>
          if String.eqb top name then openPath (removelast path) rest
          else None
      | None => None
      end
  | _ :: rest => openPath path rest
  end.

(** The start-tags of [work] elements in a stream. *)
Fixpoint workStarts (tokens : list Token) : nat :=
  match tokens with
  | [] => 0
  | StartElement name _ :: rest =>
      ((if String.eqb name WORK then 1 else 0) + workStarts rest)%nat
  | _ :: rest => workStarts rest
  end.

(** *** The URI flags *)

Definition flags (s : State) : bool * bool * bool :=
  (thumbnailURI s, mediumURI s, largeURI s).

(** An attribute of that value is among those of a start-tag. *)
Definition hasValue (v : string) (attr : list Attr) : bool :=
  existsb (λ a, String.eqb (Attr_Value a) v) attr.

(** *** Pages: images and files *)

(** [a] holds no image tag and cannot start one, whatever follows it. *)
Definition silent (a : string) : Prop :=
  ∀ x, occurrences "<img" (a +:+ x) = occurrences "<img" x.

(** The works a thumbnail loop keeps. *)
Fixpoint kept (keep : Work → bool) (l : list Work) : nat :=
  match l with
  | [] => 0
  | wk :: r => ((if keep wk then 1 else 0) + kept keep r)%nat
  end.


(** A file made as the program makes all of them: [os.Create], then one
    [WriteString]. *)
Definition writePage (pg : string * string) : list Site.FsOp :=
  [Site.Create pg.1; Site.Write pg.1 pg.2].

(** *** The lists of works *)

(** What holds of the list of works without a make and of the lists of
    works of the makes and models, at every turn of the loop: no list holds
    a work twice; the works listed are closed; a work in the list of a make
    (a model) has that make (that model), and a work in the list of the
    works without a make has none. *)
Record lists_ok (s : State) : Prop := mk_lists_ok {
  lists_sm_nodup : NoDup (worksSM s);
  lists_sm : ∀ w, w ∈ worksSM s → newWork s ≠ Some w ∧ workMake s w = None;
  lists_make : ∀ m mk, makes s !! m = Some mk →
    NoDup (Make_Works mk)
    ∧ ∀ w, w ∈ Make_Works mk →
        newWork s ≠ Some w ∧ workMake s w = Some m
        ∧ is_Some (workModel s w);
  lists_model : ∀ d md, models s !! d = Some md →
    NoDup (Model_Works md)
    ∧ ∀ w, w ∈ Model_Works md →
        newWork s ≠ Some w ∧ workModel s w = Some d
}.

(** *** The registries of makes and models *)

(** What a make and a model are known by: all but their lists of works. *)
Definition makeCore (mk : Make) : string * string * list ModelPtr :=
  (Make_Name mk, Make_PageURL mk, Make_Models mk).
Definition modelCore (md : Model) : string * string * option MakePtr :=
  (Model_Name md, Model_PageURL md, MMake md).

(** What holds of the makes and the models at every turn of the loop: names
    are not empty and page names are the slugs of the names; the models of a
    make are listed once, exist, point back to that make and have different
    names; and every model is in the list of the make it points to. *)
Record registry_of (mks : list Make) (mds : list Model) : Prop :=
  mk_registry_of {
  reg_make : ∀ m mk, mks !! m = Some mk →
    Make_Name mk ≠ EmptyString ∧ Make_PageURL mk = slug (Make_Name mk)
    ∧ NoDup (Make_Models mk)
    ∧ ∀ d, d ∈ Make_Models mk →
        ∃ md, mds !! d = Some md ∧ MMake md = Some m;
  reg_model : ∀ d md, mds !! d = Some md →
    Model_Name md ≠ EmptyString ∧ Model_PageURL md = slug (Model_Name md)
    ∧ ∃ m mk, MMake md = Some m ∧ mks !! m = Some mk
              ∧ d ∈ Make_Models mk;
  reg_names : ∀ m mk d1 d2 md1 md2, mks !! m = Some mk →
    d1 ∈ Make_Models mk → d2 ∈ Make_Models mk →
    mds !! d1 = Some md1 → mds !! d2 = Some md2 →
    Model_Name md1 = Model_Name md2 → d1 = d2
}.

Definition registry_ok (s : State) : Prop :=
  registry_of (makes s) (models s).

(** *** How the graph grows *)

(** A make and a model, earlier and later: the name, the page name and the
    make pointed to are kept, and the lists are extended at their end. *)
Definition makeGrows (mk mk' : Make) : Prop :=
  Make_Name mk' = Make_Name mk ∧ Make_PageURL mk' = Make_PageURL mk
  ∧ Make_Models mk `prefix_of` Make_Models mk'
  ∧ Make_Works mk `prefix_of` Make_Works mk'.
Definition modelGrows (md md' : Model) : Prop :=
  Model_Name md' = Model_Name md ∧ Model_PageURL md' = Model_PageURL md
  ∧ MMake md' = MMake md
  ∧ Model_Works md `prefix_of` Model_Works md'.

(** [grows s s']: every list of [s] is there in [s'], extended at its end. *)
Definition grows (s s' : State) : Prop :=
  (length (works s) ≤ length (works s'))%nat
  ∧ worksSM s `prefix_of` worksSM s'
  ∧ (∀ m mk, makes s !! m = Some mk →
       ∃ mk', makes s' !! m = Some mk' ∧ makeGrows mk mk')
  ∧ (∀ d md, models s !! d = Some md →
       ∃ md', models s' !! d = Some md' ∧ modelGrows md md').

(** *** Environments *)

(** An environment in which every call goes through. *)
Definition obliging (env : Site.Env) : Prop :=
  (∀ path, Site.stat env path ≠ Site.StatOtherError)
  ∧ (∀ past path, Site.created env past path = true)
  ∧ (∀ past path data, Site.written env past path data = None).



(** Two works: one with a small URL and no make; one with the model
    nomake, the make X and a small URL. *)
Definition sample_nomake_model : list Token :=
  [StartElement "works" [];
   StartElement "work" [];
   StartElement "url" [small]; CharData "a.jpg"; EndElement "url";
   EndElement "work";
   StartElement "work" [];
   StartElement "model" []; CharData "nomake"; EndElement "model";
   StartElement "make" []; CharData "X"; EndElement "make";
   StartElement "url" [small]; CharData "x.jpg"; EndElement "url";
   EndElement "work";
   EndElement "works"].

(** The page of the works without a make, up to its image: the literal of
    the [f.WriteString] of that page. *)
Definition nomakeHead : string :=
  "<!DOCTYPE html><html><head><title>Generic Photographic Works</title>"
  +:+ "<style type=" +:+ Site.q +:+ "text/css" +:+ Site.q
  +:+ ">nav { margin: 10px;" +:+ Site.tab
  +:+ "}</style></head><body><header><h1>Generic Photos</h1><nav>"
  +:+ "<a href=" +:+ Site.q +:+ "index.html" +:+ Site.q
  +:+ ">back to homepage</a> </nav></header>".

(** *** The calls of a run *)



(** [cutOf pg pg']: the file [pg'] is the page [pg], or a beginning of
    it. *)
Definition cutOf (pg pg' : string * string) : Prop :=
  pg'.1 = pg.1 ∧ ∃ n, pg'.2 = String.substring 0 n pg.2.

(** An environment where [os.Create] fails once [n] calls went through. *)
Definition failing_after (n : nat) : Site.Env :=
  Site.mkEnv (λ _, Site.StatNotExist) (λ past _, (length past <? n)%nat)
    (λ _ _ _, None).

(** *** A feed of the expected shape *)

(** The texts of one [work] element of the feed. *)
Record Item := mkItem {
  Item_id : string;
  Item_filename : string;
  Item_small : string;
  Item_medium : string;
  Item_large : string;
  Item_model : string;
  Item_make : string
}.

(** An element that holds a text and nothing else. *)
Definition element (name : string) (attr : list Attr) (text : string)
    : list Token :=
  [StartElement name attr; CharData text; EndElement name].

(** The tokens of the [work] element of an item: the identifier, the file
    name, the three URLs in a [urls] element, then the model and the make,
    in the order the loop expects them (the model is resolved when the make
    arrives). *)
Definition itemTokens (it : Item) : list Token :=
  ([StartElement WORK []]
   ++ element ID [] (Item_id it)
   ++ element FILENAME [] (Item_filename it)
   ++ [StartElement "urls" []]
   ++ element "url" [mkAttr "type" URISMALL] (Item_small it)
   ++ element "url" [mkAttr "type" URIMEDIUM] (Item_medium it)
   ++ element "url" [mkAttr "type" URILARGE] (Item_large it)
   ++ [EndElement "urls"]
   ++ element MODEL [] (Item_model it)
   ++ element MAKE [] (Item_make it)
   ++ [EndElement WORK])%list.

(** The feed of a list of items. *)
Definition feedTokens (items : list Item) : list Token :=
  ([StartElement "works" []] ++ (items ≫= itemTokens)
   ++ [EndElement "works"])%list.




(** Three items; the second names the make of the first with blanks
    around it, the third has no make and no model. *)
Definition sample_items : list Item :=
  [mkItem " 31 " "a.jpg" "a-s.jpg" "a-m.jpg" "a-l.jpg" "D90" "Nikon";
   mkItem "32" "b.jpg" "b-s.jpg" "b-m.jpg" "b-l.jpg" "D80" " Nikon ";
   mkItem "-7" "c.jpg" "c-s.jpg" "c-m.jpg" "c-l.jpg" "" ""].

(** * Properties *)

(** ** The library functions and the loop on samples *)

Example TrimSpace_sample :
  GoLib.TrimSpace (String "009"%char "  Nikon D90 " +:+ String "010"%char
                     EmptyString) = "Nikon D90".
Proof. by vm_compute. Qed.

Example Atoi_samples :
  GoLib.Atoi "-42" = Some (-42) ∧ GoLib.Atoi "+7" = Some 7
  ∧ GoLib.Atoi "4x" = None ∧ GoLib.Atoi "-" = None
  ∧ GoLib.Atoi EmptyString = None
  ∧ GoLib.Atoi "9223372036854775808" = None.
Proof. by vm_compute. Qed.

Example EscapeString_sample :
  GoLib.EscapeString "a<b & 'c'" = "a&lt;b &amp; &#39;c&#39;".
Proof. by vm_compute. Qed.

Example two_works_graph :
  let s := reached init sample_two_works in
  parse sample_two_works EOF = Ok s
  ∧ Work_ID <$> works s = [1; 2]
  ∧ WMake <$> works s = [Some 0%nat; None]
  ∧ WModel <$> works s = [Some 0%nat; None]
  ∧ URISmall <$> works s = ["a-thumb.jpg"; "b-thumb.jpg"]
  ∧ Make_Name <$> makes s = ["Nikon"]
  ∧ Make_Works <$> makes s = [[0%nat]]
  ∧ Model_Name <$> models s = ["D90"]
  ∧ Model_Works <$> models s = [[0%nat]]
  ∧ worksSM s = [1%nat]
  ∧ opPath <$> (main Site.healthy "out" sample_two_works EOF).2
    = ["./out/index.html"; "./out/index.html"; "./out/Nikon.html";
       "./out/Nikon.html"; "./out/nomake.html"; "./out/nomake.html";
       "./out/D90.html"; "./out/D90.html"].
Proof. vm_compute. by repeat split. Qed.

Example nested_work_panics :
  parse [StartElement "work" []; StartElement "work" [];
         EndElement "work"; EndElement "work"] EOF = Panic.
Proof. by vm_compute. Qed.

(** ** Slugs *)

Lemma replaceAllFrom_runs cls repl s :
  GoLib.replaceAllFrom cls repl false s = replaceRuns repl (runs cls s) ∧
  GoLib.replaceAllFrom cls repl true s
    = match runs cls s with
      | (true, _) :: rest => replaceRuns repl rest
      | l => replaceRuns repl l
      end.
Proof.
  induction s as [|c r [IHf IHt]]; [done|].
  cbn [GoLib.replaceAllFrom runs].
  destruct (cls c) eqn:Hc.
  - rewrite IHt. destruct (runs cls r) as [|[[] run] rest]; cbn; auto.
  - rewrite IHf. destruct (runs cls r) as [|[[] run] rest]; cbn; auto.
Qed.

Lemma runs_maximal cls s : maximalRuns cls s (runs cls s).
Proof.
  induction s as [|c r (Hj & Hr & Ha)]; [done|].
  cbn [runs]. destruct (runs cls r) as [|[b run] rest] eqn:E.
  - cbn in Hj. subst r. repeat split; cbn.
    by rewrite Bool.eqb_reflx.
  - destruct (Bool.eqb b (cls c)) eqn:Hb.
    + apply Bool.eqb_prop in Hb. subst b.
      repeat split.
      * by rewrite <- Hj.
      * cbn [forallb] in *.
        apply andb_true_iff in Hr as [Hr1 Hr2].
        apply andb_true_iff in Hr1 as [_ Hr1]. cbn in Hr1.
        rewrite Hr2. cbn. by rewrite Bool.eqb_reflx, Hr1.
      * done.
    + repeat split.
      * by rewrite <- Hj.
      * change (isRun cls (cls c, String c EmptyString)
                && forallb (isRun cls) ((b, run) :: rest) = true).
        rewrite Hr. cbn. by rewrite Bool.eqb_reflx.
      * change (negb (Bool.eqb (cls c) b)
                && alternate ((b, run) :: rest) = true).
        rewrite Ha. destruct (cls c), b; done.
Qed.

Lemma maximalRuns_unique cls s rs : maximalRuns cls s rs → rs = runs cls s.
Proof.
  revert rs. induction s as [|c r IH]; intros rs (Hj & Hr & Ha).
  - destruct rs as [|[b run] rest]; [done|].
    cbn in Hr. destruct run; [done|]. cbn in Hj. discriminate.
  - destruct rs as [|[b run] rest]; [done|].
    destruct run as [|c' run]; [done|].
    cbn in Hj. injection Hj as -> Hj.
    cbn [forallb isRun snd fst allChars] in Hr.
    apply andb_true_iff in Hr as [Hr1 Hr2]. cbn in Hr1.
    apply andb_true_iff in Hr1 as [Hc Hr1].
    apply Bool.eqb_prop in Hc. subst b.
    destruct run as [|c2 run].
    + assert (Hrest : rest = runs cls r).
      { apply IH. repeat split; [exact Hj|done|].
        destruct rest as [|y rest]; [done|].
        change (negb (Bool.eqb (cls c) y.1) && alternate (y :: rest) = true)
          in Ha.
        by apply andb_true_iff in Ha as [_ Ha]. }
      cbn [runs]. rewrite <- Hrest.
      destruct rest as [|[b2 run2] rest]; [done|].
      change (negb (Bool.eqb (cls c) b2)
              && alternate ((b2, run2) :: rest) = true) in Ha.
      apply andb_true_iff in Ha as [Ha _].
      destruct (cls c), b2; done.
    + assert (Hrest : (cls c, String c2 run) :: rest = runs cls r).
      { apply IH. repeat split; [exact Hj| |exact Ha].
        change (isRun cls (cls c, String c2 run)
                && forallb (isRun cls) rest = true).
        rewrite Hr2. cbn in *. by rewrite Hr1. }
      cbn [runs]. rewrite <- Hrest. by rewrite Bool.eqb_reflx.
Qed.

(** C8. The page name of a make and of a model is the name in which every
    maximal run of bytes that are not ASCII letters or digits is replaced
    by one "-"; it depends on the name only (not on the owning make, nor
    on anything else). *)
Theorem slug_derivation (name : string) (make : option MakePtr)
    (rs : list (bool * string)) :
  maximalRuns GoLib.inClass name rs →
  Make_PageURL (createMake name) = replaceRuns "-" rs
  ∧ Model_PageURL (createModel name make) = replaceRuns "-" rs.
Proof.
  intros ->%maximalRuns_unique. cbn.
  unfold GoLib.ReplaceAllString.
  by rewrite (proj1 (replaceAllFrom_runs _ _ _)).
Qed.

Lemma slug_derivation_witness :
  maximalRuns GoLib.inClass "Ni+-kon  D90!"
    [(false, "Ni"); (true, "+-"); (false, "kon"); (true, "  ");
     (false, "D90"); (true, "!")]
  ∧ Make_PageURL (createMake "Ni+-kon  D90!") = "Ni-kon-D90-"
  ∧ Model_PageURL (createModel "Ni+-kon  D90!" (Some 0%nat)) = "Ni-kon-D90-".
Proof.
  split; [by repeat split|].
  apply (slug_derivation "Ni+-kon  D90!" (Some 0%nat)
           [(false, "Ni"); (true, "+-"); (false, "kon"); (true, "  ");
            (false, "D90"); (true, "!")]).
  by repeat split.
Defined.

(** ** The loop: basic facts *)

Lemma run_app s ts1 ts2 :
  run s (ts1 ++ ts2) = (s' ← run s ts1; run s' ts2).
Proof.
  revert s. induction ts1 as [|t ts1 IH]; intros s; [done|].
  cbn [run app]. destruct (step s t) as [s1| |]; cbn; [apply IH|done|done].
Qed.

Lemma run_snoc s ts t s1 :
  run s ts = Ok s1 → run s (ts ++ [t]) = step s1 t.
Proof.
  intros H. rewrite run_app, H. cbn. by destruct (step s1 t).
Qed.

Lemma frame_refl s : frame s s.
Proof. by repeat split. Qed.

Lemma frame_trans s1 s2 s3 : frame s1 s2 → frame s2 s3 → frame s1 s3.
Proof.
  unfold frame. intros (?&?&?&?&?&?&?&?&?) (?&?&?&?&?&?&?&?&?).
  repeat split; congruence.
Qed.

Lemma frame_length s s' : frame s s' → length (works s') = length (works s).
Proof.
  intros (_&_&_&_&_&_&_&H&_).
  by rewrite <- (length_fmap WMake (works s')), H, length_fmap.
Qed.

Lemma lookup_bind_fmap {A B} (f : A → option B) (l : list A) i :
  l !! i ≫= f = mjoin ((f <$> l) !! i).
Proof. rewrite list_lookup_fmap. by destruct (l !! i). Qed.

Lemma frame_workMake s s' w : frame s s' → workMake s' w = workMake s w.
Proof.
  intros (_&_&_&_&_&_&_&H&_). unfold workMake.
  by rewrite !lookup_bind_fmap, H.
Qed.

Lemma frame_workModel s s' w : frame s s' → workModel s' w = workModel s w.
Proof.
  intros (_&_&_&_&_&_&_&_&H). unfold workModel.
  by rewrite !lookup_bind_fmap, H.
Qed.

Lemma frame_wf s s' : frame s s' → wf s → wf s'.
Proof.
  intros F [H1 H2 H3]. pose proof (frame_length _ _ F) as L.
  destruct F as (?&Hm&?&Hsm&Hn&_). split.
  - intros w. rewrite Hn, L. apply H1.
  - unfold names. by rewrite Hm.
  - intros w. rewrite Hsm, L. apply H3.
Qed.

(** A field update of a work that keeps its two pointers. *)
Lemma alter_links (f : Work → Work) i (l : list Work) :
  (∀ w, WMake (f w) = WMake w) → (∀ w, WModel (f w) = WModel w) →
  WMake <$> alter f i l = WMake <$> l ∧ WModel <$> alter f i l = WModel <$> l.
Proof.
  intros H1 H2. split.
  - revert i. induction l as [|x l IH]; intros [|i]; cbn; f_equal; auto.
  - revert i. induction l as [|x l IH]; intros [|i]; cbn; f_equal; auto.
Qed.

Lemma frame_set_works (f : Work → Work) i s :
  (∀ w, WMake (f w) = WMake w) → (∀ w, WModel (f w) = WModel w) →
  frame s (set_works (alter f i (works s)) s).
Proof.
  intros H1 H2. destruct (alter_links f i (works s) H1 H2).
  by repeat split.
Qed.

Lemma onID_frame s token s' : onID s token = Ok s' → frame s s'.
Proof.
  unfold onID. destruct (GoLib.Atoi _); [|done].
  destruct (newWork s); [|done]. intros [= <-].
  by apply frame_set_works.
Qed.

Lemma onFilename_frame s token s' : onFilename s token = Ok s' → frame s s'.
Proof.
  unfold onFilename. destruct (newWork s); [|done]. intros [= <-].
  by apply frame_set_works.
Qed.

Lemma onURI_frame flag clear setField s token :
  (∀ s, frame s (clear s)) →
  (∀ v w, WMake (setField v w) = WMake w) →
  (∀ v w, WModel (setField v w) = WModel w) →
  frame s (onURI flag clear setField s token).
Proof.
  intros Hc H1 H2. unfold onURI. destruct (flag s); [|apply frame_refl].
  eapply frame_trans; [|apply Hc].
  destruct (works s) eqn:E; [apply frame_refl|].
  rewrite <- E. by apply frame_set_works.
Qed.

Lemma uriBlocks_frame s token : frame s (uriBlocks s token).
Proof.
  unfold uriBlocks.
  eapply frame_trans; [eapply frame_trans|]; apply onURI_frame;
    by intros.
Qed.

Lemma fmap_alter_same {A B} (g : A → B) (f : A → A) i (l : list A) :
  (∀ x, g (f x) = g x) → g <$> alter f i l = g <$> l.
Proof.
  intros H. revert i.
  induction l as [|x l IH]; intros [|i]; cbn; f_equal; auto.
Qed.

Lemma onAttr_frame s val : frame s (onAttr s val).
Proof.
  unfold onAttr.
  repeat match goal with |- context [if ?b then _ else _] => destruct b end;
    by repeat split.
Qed.

Lemma foldl_onAttr_frame attr s : frame s (foldl onAttr s attr).
Proof.
  revert s. induction attr as [|val attr IH]; intros s; [apply frame_refl|].
  cbn. eapply frame_trans; [apply onAttr_frame|apply IH].
Qed.

(** ** The invariant *)

Lemma wf_init : wf init.
Proof.
  split; cbn; [done|constructor|]. intros w Hw. by apply elem_of_nil in Hw.
Qed.

Lemma onStartElement_wf s name attr s' :
  wf s → onStartElement s name attr = Ok s' → wf s'.
Proof.
  intros [H1 H2 H3]. unfold onStartElement. intros [= <-].
  match goal with |- wf (if ?b then foldl onAttr ?x attr else ?x) =>
    assert (wf x) as Hx; [|destruct b; [|exact Hx];
      exact (frame_wf _ _ (foldl_onAttr_frame attr x) Hx)] end.
  destruct (topIs WORK _).
  - split; cbn.
    + intros w [= <-]. rewrite length_app. cbn. lia.
    + done.
    + intros w Hw. rewrite length_app. apply H3 in Hw. lia.
  - by split.
Qed.

Lemma finishWork_wf s s' : wf s → finishWork s = Ok s' → wf s'.
Proof.
  intros [H1 H2 H3]. unfold finishWork.
  destruct (newWork s) as [w|] eqn:Hw; [|done].
  destruct (works s !! w) as [wk|] eqn:Hwk; [|done].
  apply lookup_lt_Some in Hwk.
  intros [= <-]. destruct (WMake wk) as [mk|], (WModel wk) as [md|];
    split; cbn; try done;
    try (unfold names; cbn; by rewrite fmap_alter_same);
    try (intros w' [?%H3| ->%list_elem_of_singleton]%elem_of_app; done).
Qed.

Lemma onEndElement_wf s name s' :
  wf s → onEndElement s name = Ok s' → wf s'.
Proof.
  intros Hwf. unfold onEndElement.
  destruct (last (stack s)) as [top|]; [|done].
  destruct (negb _); [done|].
  assert (wf (set_stack (removelast (stack s)) s)) as Hwf'
    by (destruct Hwf; by split).
  destruct (String.eqb top WORK); [by apply finishWork_wf|].
  by intros [= <-].
Qed.

(** The make case, first half, in a state where a work is open. *)
Lemma resolveMake_open s token w :
  wf s → newWork s = Some w →
  resolveMake s token =
    match findMake (makeName token) (makes s) 0%nat with
    | Some p =>
        Ok (set_works (alter (Work_setWMake (Some p)) w (works s)) s, p)
    | None =>
        Ok (set_works (alter (Work_setWMake (Some (length (makes s)))) w
                         (works s))
              (set_makes (makes s ++ [createMake (makeName token)]) s),
            length (makes s))
    end.
Proof.
  intros [H1 _ _] Hw. apply H1 in Hw as Hlen. unfold resolveMake.
  rewrite Hw. unfold updLastWork.
  destruct (findMake _ _ _) as [p|]; cbn;
    (destruct (works s) eqn:E; [cbn in Hlen; lia|]);
    cbn [length] in *; by replace (S (length l) - 1)%nat with w by lia.
Qed.

Lemma findMake_None name l i :
  findMake name l i = None → name ∉ Make_Name <$> l.
Proof.
  revert i. induction l as [|mk l IH]; intros i; cbn.
  - intros _. apply not_elem_of_nil.
  - destruct (String.eqb _ _) eqn:E; [done|].
    intros H%IH. apply String.eqb_neq in E.
    rewrite elem_of_cons. intros [?|?]; [by subst|done].
Qed.

Lemma findMake_Some name l i p :
  findMake name l i = Some p →
  ∃ mk, l !! (p - i)%nat = Some mk ∧ Make_Name mk = name ∧ (i ≤ p)%nat.
Proof.
  revert i. induction l as [|mk l IH]; intros i; cbn; [done|].
  destruct (String.eqb _ _) eqn:E.
  - intros [= <-]. apply String.eqb_eq in E. exists mk.
    by rewrite Nat.sub_diag.
  - intros (mk' & H1 & H2 & H3)%IH. exists mk'.
    replace (p - i)%nat with (S (p - S i)) by lia. split_and!; [done|done|lia].
Qed.

(** The search sees the names only, and a name found stays found where it
    is when the list grows at the end. *)
Lemma findMake_names name l l' i :
  Make_Name <$> l = Make_Name <$> l' → findMake name l i = findMake name l' i.
Proof.
  revert l' i. induction l as [|mk l IH]; intros [|mk' l'] i; try done.
  cbn. intros [= -> H]. destruct (String.eqb _ _); [done|]. by apply IH.
Qed.

Lemma findMake_app name l l' i p :
  findMake name l i = Some p → findMake name (l ++ l') i = Some p.
Proof.
  revert i. induction l as [|mk l IH]; intros i; cbn; [done|].
  destruct (String.eqb _ _); [done|]. apply IH.
Qed.

Lemma findMake_fresh name l i :
  findMake name l i = None →
  findMake name (l ++ [createMake name]) i = Some (i + length l)%nat.
Proof.
  revert i. induction l as [|mk l IH]; intros i; cbn.
  - intros _. rewrite String.eqb_refl. f_equal. lia.
  - destruct (String.eqb _ _); [done|]. intros H%IH. rewrite H. f_equal. lia.
Qed.

(** The make case, second half: what it leaves alone. *)
Lemma resolveModel_effect s p :
  works s ≠ [] →
  ∃ s', resolveModel s p = Ok s' ∧ stack s' = stack s ∧ names s' = names s
        ∧ worksSM s' = worksSM s ∧ newWork s' = newWork s
        ∧ WMake <$> works s' = WMake <$> works s
        ∧ newModelDetected s' = false.
Proof.
  intros Hne. unfold resolveModel.
  destruct (works s) as [|w0 l] eqn:E; [done|]. rewrite <- E. clear E Hne.
  eexists. split; [reflexivity|].
  set (s1 := if String.eqb (newModel s) EmptyString then _ else s).
  assert (E1 : stack s1 = stack s ∧ makes s1 = makes s ∧ works s1 = works s
               ∧ worksSM s1 = worksSM s ∧ newWork s1 = newWork s
               ∧ models s1 = models s)
    by (subst s1; by destruct (String.eqb _ _)).
  destruct E1 as (<-&Hm&Hw&<-&<-&Hd). unfold names. rewrite <- Hm, <- Hw.
  clearbody s1. clear Hm Hw Hd.
  destruct (match works s1 !! _ ≫= WMake with Some _ => _ | None => _ end)
    as [d|].
  - cbn. by rewrite fmap_alter_same.
  - destruct (works s1 !! _ ≫= WMake) as [mk|]; cbn; [|done].
    by rewrite !fmap_alter_same.
Qed.

Lemma onMake_effect s token w :
  wf s → newWork s = Some w →
  ∃ s', onMake s token = Ok s' ∧ stack s' = stack s
        ∧ worksSM s' = worksSM s ∧ newWork s' = newWork s
        ∧ length (works s') = length (works s)
        ∧ names s' = (names s ++
            (if decide (makeName token ∈ names s) then []
             else [makeName token]))%list
        ∧ (newModelDetected s = false →
           WModel <$> works s' = WModel <$> works s
           ∧ models s' = models s)
        ∧ ∃ p, findMake (makeName token) (makes s') 0%nat = Some p
               ∧ workMake s' w = Some p.
Proof.
  intros Hwf Hw. pose proof (wf_newWork _ Hwf _ Hw) as Hlen.
  unfold onMake. rewrite (resolveMake_open _ _ _ Hwf Hw).
  set (n := makeName token).
  assert (∃ s1 p, match findMake n (makes s) 0%nat with
                  | Some p =>
                      Ok (set_works (alter (Work_setWMake (Some p)) w
                                       (works s)) s, p)
                  | None =>
                      Ok (set_works (alter (Work_setWMake
                                              (Some (length (makes s)))) w
                                       (works s))
                            (set_makes (makes s ++ [createMake n]) s),
                          length (makes s))
                  end = Ok (s1, p)
          ∧ stack s1 = stack s ∧ worksSM s1 = worksSM s
          ∧ newWork s1 = newWork s ∧ length (works s1) = length (works s)
          ∧ names s1
            = (names s ++ (if decide (n ∈ names s) then [] else [n]))%list
          ∧ newModelDetected s1 = newModelDetected s
          ∧ WModel <$> works s1 = WModel <$> works s
          ∧ models s1 = models s
          ∧ findMake n (makes s1) 0%nat = Some p
          ∧ workMake s1 w = Some p) as (s1 & p & -> & H1 & H2 & H3 & H4 & H5
                                         & H8 & H9 & H10 & H6 & H7).
  { destruct (findMake n (makes s) 0%nat) as [p|] eqn:Ef.
    - eexists _, p. split; [reflexivity|]. cbn.
      rewrite length_alter. split_and!; try done;
        try (by rewrite fmap_alter_same).
      + apply findMake_Some in Ef as (mk & Hmk & Hn & _).
        rewrite decide_True, app_nil_r; [done|].
        unfold names. apply list_elem_of_fmap. exists mk. split; [done|].
        by eapply list_elem_of_lookup_2.
      + unfold workMake. cbn. rewrite list_lookup_alter_eq.
        destruct (works s !! w) eqn:E; [done|].
        apply lookup_ge_None in E. lia.
    - eexists _, (length (makes s)). split; [reflexivity|]. cbn.
      rewrite length_alter. split_and!; try done;
        try (by rewrite fmap_alter_same).
      + apply findMake_None in Ef. unfold names in *. cbn.
        rewrite fmap_app. by rewrite decide_False.
      + by apply findMake_fresh.
      + unfold workMake. cbn. rewrite list_lookup_alter_eq.
        destruct (works s !! w) eqn:E; [done|].
        apply lookup_ge_None in E. lia. }
  cbn. destruct (newModelDetected s1).
  - destruct (resolveModel_effect s1 p) as (s' & -> & E1 & E2 & E3 & E4 & E5 & _).
    { intros E. rewrite E in H4. cbn in H4. lia. }
    exists s'. split; [done|].
    rewrite E1, E2, E3, E4, H1, H2, H3, H5.
    rewrite <- (length_fmap WMake (works s')), E5, length_fmap, H4.
    split_and!; try done.
    { intros E. by rewrite E in H8. }
    exists p. split.
    + by rewrite <- (findMake_names n (makes s1) (makes s')).
    + unfold workMake in *. by rewrite lookup_bind_fmap, E5, <- lookup_bind_fmap.
  - exists s1. split_and!; try done. by exists p.
Qed.

(** ** The text case, by the element on top of the stack *)

Lemma frame_graphSame s s' : frame s s' → graphSame s s'.
Proof. intros (?&?&?&?&?&?&?&?&?). by repeat split. Qed.

Lemma graphSame_trans s1 s2 s3 :
  graphSame s1 s2 → graphSame s2 s3 → graphSame s1 s3.
Proof.
  unfold graphSame. intros (?&?&?&?&?&?&?) (?&?&?&?&?&?&?).
  repeat split; congruence.
Qed.

Lemma graphSame_length s s' :
  graphSame s s' → length (works s') = length (works s).
Proof.
  intros (_&_&_&_&_&H&_).
  by rewrite <- (length_fmap WMake (works s')), H, length_fmap.
Qed.

Lemma graphSame_workMake s s' w :
  graphSame s s' → workMake s' w = workMake s w.
Proof.
  intros (_&_&_&_&_&H&_). unfold workMake.
  by rewrite !lookup_bind_fmap, H.
Qed.

Lemma graphSame_workModel s s' w :
  graphSame s s' → workModel s' w = workModel s w.
Proof.
  intros (_&_&_&_&_&_&H). unfold workModel.
  by rewrite !lookup_bind_fmap, H.
Qed.

Lemma graphSame_wf s s' : graphSame s s' → wf s → wf s'.
Proof.
  intros F [H1 H2 H3]. pose proof (graphSame_length _ _ F) as L.
  destruct F as (?&Hm&?&Hsm&Hn&_). split.
  - intros w. rewrite Hn, L. apply H1.
  - unfold names. by rewrite Hm.
  - intros w. rewrite Hsm, L. apply H3.
Qed.

Lemma topIs_stack a s s' : stack s' = stack s → topIs a s' = topIs a s.
Proof. unfold topIs. by intros ->. Qed.

Lemma topIs_excl a b s : topIs a s = true → a ≠ b → topIs b s = false.
Proof.
  unfold topIs. destruct (last (stack s)) as [top|]; [|done].
  intros ->%String.eqb_eq Hne. by apply String.eqb_neq.
Qed.

Lemma onModel_graphSame s token : graphSame s (onModel s token).
Proof. by repeat split. Qed.

(** A text that is not a make text leaves the graph alone. *)
Lemma onCharData_other s token s' :
  topIs MAKE s = false → onCharData s token = Ok s' → graphSame s s'.
Proof.
  intros Hmk. unfold onCharData.
  destruct (if topIs ID s then onID s token else Ok s) as [s1| |] eqn:E1;
    [|done|done].
  assert (frame s s1) as F1.
  { destruct (topIs ID s); [by eapply onID_frame|].
    injection E1 as <-. apply frame_refl. }
  cbn [mbind Outcome_bind].
  destruct (if topIs FILENAME s1 then onFilename s1 token else Ok s1)
    as [s2| |] eqn:E2; [|done|done].
  assert (frame s1 s2) as F2.
  { destruct (topIs FILENAME s1); [by eapply onFilename_frame|].
    injection E2 as <-. apply frame_refl. }
  cbn [mbind Outcome_bind]. pose proof (frame_trans _ _ _ F1 F2) as F12.
  rewrite (topIs_stack MAKE s s2), Hmk by apply F12.
  cbn [mbind Outcome_bind].
  intros [= <-].
  eapply graphSame_trans; [apply frame_graphSame, F12|].
  eapply graphSame_trans;
    [|apply frame_graphSame, uriBlocks_frame].
  destruct (topIs MODEL s2); [apply onModel_graphSame|by repeat split].
Qed.

(** A model text: the name is kept for later, and that is all. *)
Lemma onCharData_model s token :
  topIs MODEL s = true →
  onCharData s token = Ok (uriBlocks (onModel s token) token).
Proof.
  intros H. unfold onCharData.
  rewrite (topIs_excl MODEL ID s H) by done. cbn [mbind Outcome_bind].
  rewrite (topIs_excl MODEL FILENAME s H) by done. cbn [mbind Outcome_bind].
  rewrite (topIs_excl MODEL MAKE s H) by done. cbn [mbind Outcome_bind].
  by rewrite H.
Qed.

Lemma onCharData_make_orphan s token :
  topIs MAKE s = true → newWork s = None →
  onCharData s token = Exit1 OrphanMake.
Proof.
  intros H Hw. unfold onCharData.
  rewrite (topIs_excl MAKE ID s H) by done. cbn [mbind Outcome_bind].
  rewrite (topIs_excl MAKE FILENAME s H) by done. cbn [mbind Outcome_bind].
  rewrite H. unfold onMake, resolveMake. by rewrite Hw.
Qed.

Lemma onCharData_make_open s token w :
  wf s → topIs MAKE s = true → newWork s = Some w →
  ∃ s1, onMake s token = Ok s1
        ∧ onCharData s token = Ok (uriBlocks s1 token).
Proof.
  intros Hwf H Hw.
  destruct (onMake_effect s token w Hwf Hw) as (s1 & E & Hst & _).
  exists s1. split; [done|]. unfold onCharData.
  rewrite (topIs_excl MAKE ID s H) by done. cbn [mbind Outcome_bind].
  rewrite (topIs_excl MAKE FILENAME s H) by done. cbn [mbind Outcome_bind].
  rewrite H, E. cbn [mbind Outcome_bind].
  by rewrite (topIs_stack MODEL s s1 Hst), (topIs_excl MAKE MODEL s H).
Qed.

(** A make text is accepted exactly when a work is open. *)
Lemma make_text_open s token s' :
  topIs MAKE s = true → step s (CharData token) = Ok s' →
  ∃ w, newWork s = Some w.
Proof.
  intros H E. destruct (newWork s) as [w|] eqn:Hw; [by exists w|].
  cbn in E. by rewrite onCharData_make_orphan in E.
Qed.

Lemma step_wf s t s' : wf s → step s t = Ok s' → wf s'.
Proof.
  intros Hwf. destruct t as [name attr|name|text|]; cbn.
  - by apply onStartElement_wf.
  - by apply onEndElement_wf.
  - destruct (topIs MAKE s) eqn:Hmk.
    + intros E. destruct (make_text_open _ _ _ Hmk E) as [w Hw].
      cbn in E.
      destruct (onCharData_make_open s text w Hwf Hmk Hw) as (s1 & E1 & E2).
      rewrite E2 in E. injection E as <-.
      apply (frame_wf s1); [apply uriBlocks_frame|].
      destruct (onMake_effect s text w Hwf Hw)
        as (s1' & E1' & Hst & Hsm & Hnw & Hlen & Hn & _).
      rewrite E1 in E1'. injection E1' as <-.
      destruct Hwf as [H1 H2 H3]. split.
      * intros w'. rewrite Hnw, Hlen. apply H1.
      * rewrite Hn. case_decide; [by rewrite app_nil_r|].
        apply NoDup_app. split_and!; [done| |apply NoDup_singleton].
        intros x Hx ->%list_elem_of_singleton. done.
      * intros w'. rewrite Hsm, Hlen. apply H3.
    + intros E. eapply graphSame_wf; [|done]. by eapply onCharData_other.
  - by intros [= <-].
Qed.

Lemma run_wf ts s s' : wf s → run s ts = Ok s' → wf s'.
Proof.
  revert s. induction ts as [|t ts IH]; intros s Hwf; cbn.
  - by intros [= <-].
  - destruct (step s t) as [s1| |] eqn:E; [|done|done].
    cbn. apply IH. by eapply step_wf.
Qed.

Lemma reachable_wf ts s : run init ts = Ok s → wf s.
Proof. apply run_wf, wf_init. Qed.


(** ** The registry of makes *)

Lemma onStartElement_effect s name attr s' :
  onStartElement s name attr = Ok s' →
  makes s' = makes s ∧ models s' = models s ∧ worksSM s' = worksSM s
  ∧ (length (works s) ≤ length (works s'))%nat
  ∧ (∀ w, (w < length (works s))%nat → workMake s' w = workMake s w
                                        ∧ workModel s' w = workModel s w)
  ∧ (∀ w, (length (works s) ≤ w)%nat → workModel s' w = None).
Proof.
  unfold onStartElement. intros [= <-].
  match goal with |- context [if _ then foldl onAttr ?x attr else ?x] =>
    set (s1 := x) end.
  match goal with |- context [if ?b then foldl onAttr s1 attr else s1] =>
    assert (graphSame s1 (if b then foldl onAttr s1 attr else s1)) as G
      by (destruct b; [apply frame_graphSame, foldl_onAttr_frame
                      |by repeat split]);
    revert G; generalize (if b then foldl onAttr s1 attr else s1) end.
  intros s' G. pose proof (graphSame_length _ _ G) as L.
  assert (makes s1 = makes s ∧ models s1 = models s ∧ worksSM s1 = worksSM s
          ∧ (works s1 = works s ∨ works s1 = (works s ++ [createWork])%list))
    as (E1 & E2 & E3 & E4).
  { subst s1. destruct (topIs WORK _); cbn; auto. }
  clearbody s1.
  pose proof G as (_ & -> & -> & -> & _). split_and!; try done.
  - rewrite L. destruct E4 as [->| ->]; [done|]. rewrite length_app. lia.
  - intros w Hw. rewrite (graphSame_workMake _ _ w G),
      (graphSame_workModel _ _ w G). unfold workMake, workModel.
    destruct E4 as [->| ->]; [done|]. by rewrite lookup_app_l.
  - intros w Hw. rewrite (graphSame_workModel _ _ w G). unfold workModel.
    destruct E4 as [->| ->].
    + by rewrite (proj2 (lookup_ge_None _ _) Hw).
    + destruct (decide (w = length (works s))) as [->|Hne].
      * by rewrite list_lookup_middle.
      * rewrite (proj2 (lookup_ge_None _ _)); [done|].
        rewrite length_app. cbn. lia.
Qed.

Lemma finishWork_effect s s' :
  finishWork s = Ok s' →
  stack s' = stack s ∧ works s' = works s ∧ names s' = names s
  ∧ length (makes s') = length (makes s).
Proof.
  unfold finishWork. destruct (newWork s) as [w|]; [|done].
  destruct (works s !! w) as [wk|]; [|done]. intros [= <-].
  unfold names.
  destruct (WMake wk), (WModel wk); cbn;
    by rewrite ?fmap_alter_same, ?length_alter.
Qed.

Lemma onEndElement_effect s name s' :
  onEndElement s name = Ok s' →
  works s' = works s ∧ names s' = names s
  ∧ length (makes s') = length (makes s).
Proof.
  unfold onEndElement. destruct (last (stack s)) as [top|]; [|done].
  destruct (negb _); [done|]. destruct (String.eqb top WORK).
  - intros (_ & ? & ? & ?)%finishWork_effect. done.
  - by intros [= <-].
Qed.

(** One turn of the loop adds to the registry the name of a make text that
    is not there yet, and nothing else. *)
Lemma step_names s t s' :
  wf s → step s t = Ok s' →
  names s' = (names s ++
    match firedMake s t with
    | Some n => if decide (n ∈ names s) then [] else [n]
    | None => []
    end)%list.
Proof.
  intros Hwf. destruct t as [name attr|name|text|]; cbn [step firedMake].
  - intros (E & _)%onStartElement_effect. unfold names.
    by rewrite E, app_nil_r.
  - intros (_ & E & _)%onEndElement_effect. by rewrite app_nil_r.
  - destruct (topIs MAKE s) eqn:Hmk.
    + intros E. destruct (make_text_open _ _ _ Hmk E) as [w Hw].
      destruct (onCharData_make_open s text w Hwf Hmk Hw) as (s1 & E1 & E2).
      cbn in E. rewrite E2 in E. injection E as <-.
      destruct (onMake_effect s text w Hwf Hw)
        as (s1' & E1' & _ & _ & _ & _ & Hn & _).
      rewrite E1 in E1'. injection E1' as <-.
      rewrite <- Hn. unfold names.
      by rewrite (proj1 (proj2 (uriBlocks_frame s1 text))).
    + intros (_ & E & _)%onCharData_other; [|done].
      unfold names. by rewrite E, app_nil_r.
  - intros [= <-]. by rewrite app_nil_r.
Qed.

Lemma run_names ts s s' :
  wf s → run s ts = Ok s' →
  (∃ extra, names s' = (names s ++ extra)%list)
  ∧ ∀ n, n ∈ names s' ↔ n ∈ names s ∨ n ∈ firedMakes s ts.
Proof.
  revert s. induction ts as [|t ts IH]; intros s Hwf; cbn [run firedMakes].
  - intros [= <-]. split; [exists []; by rewrite app_nil_r|].
    intros n. rewrite elem_of_nil. tauto.
  - destruct (step s t) as [s1| |] eqn:E; [|done|done].
    cbn [mbind Outcome_bind]. intros Hrun.
    pose proof (step_wf _ _ _ Hwf E) as Hwf1.
    pose proof (step_names _ _ _ Hwf E) as Hn.
    destruct (IH s1 Hwf1 Hrun) as [[extra Hex] Hiff]. split.
    + rewrite Hex, Hn, <- app_assoc. by eexists.
    + intros n. rewrite Hiff, Hn.
      destruct (firedMake s t) as [m|].
      * rewrite elem_of_cons. case_decide as Hm.
        -- rewrite app_nil_r. split; [tauto|].
           intros [?|[->|?]]; tauto.
        -- rewrite elem_of_app, list_elem_of_singleton. tauto.
      * rewrite app_nil_r. tauto.
Qed.

(** The registry holds each name once, and its names are those of the make
    text tokens met so far. *)
Lemma registry_size ts s :
  run init ts = Ok s →
  NoDup (names s)
  ∧ length (makes s) = length (remove_dups (firedMakes init ts)).
Proof.
  intros Hrun. pose proof (reachable_wf _ _ Hrun) as Hwf.
  split; [apply Hwf|].
  rewrite <- (length_fmap Make_Name). change (Make_Name <$> makes s) with (names s).
  apply Permutation_length, NoDup_Permutation;
    [apply Hwf|apply NoDup_remove_dups|].
  intros n. rewrite elem_of_remove_dups.
  rewrite (proj2 (run_names ts init s wf_init Hrun)). cbn.
  rewrite elem_of_nil. tauto.
Qed.

Lemma findMake_prefix name l l' extra p :
  Make_Name <$> l' = ((Make_Name <$> l) ++ extra)%list →
  findMake name l 0%nat = Some p → findMake name l' 0%nat = Some p.
Proof.
  intros Hn Hf. rewrite <- (take_drop (length l) l').
  apply findMake_app. rewrite <- Hf. apply findMake_names.
  rewrite fmap_take, Hn, take_app_length'; [done|]. by rewrite length_fmap.
Qed.

Lemma findMake_lookup name l p :
  findMake name l 0%nat = Some p → Make_Name <$> l !! p = Some name.
Proof.
  intros (mk & H & <- & _)%findMake_Some. rewrite Nat.sub_0_r in H.
  by rewrite H.
Qed.

(** What a make text does when it is accepted. *)
Lemma make_text_effect s token s' :
  wf s → topIs MAKE s = true → step s (CharData token) = Ok s' →
  ∃ w p, newWork s = Some w ∧ newWork s' = Some w
         ∧ findMake (makeName token) (makes s') 0%nat = Some p
         ∧ workMake s' w = Some p
         ∧ names s' = (names s ++
             (if decide (makeName token ∈ names s) then []
              else [makeName token]))%list.
Proof.
  intros Hwf Hmk E. destruct (make_text_open _ _ _ Hmk E) as [w Hw].
  destruct (onCharData_make_open s token w Hwf Hmk Hw) as (s1 & E1 & E2).
  cbn in E. rewrite E2 in E. injection E as <-.
  destruct (onMake_effect s token w Hwf Hw)
    as (s1' & E1' & _ & _ & Hnw & _ & Hn & _ & p & Hp & Hwm).
  rewrite E1 in E1'. injection E1' as <-.
  pose proof (uriBlocks_frame s1 token) as F.
  exists w, p. split_and!; [done| | | |].
  - destruct F as (_&_&_&_&->&_). congruence.
  - destruct F as (_&->&_). done.
  - by rewrite (frame_workMake _ _ w F).
  - unfold names in *. destruct F as (_&->&_). done.
Qed.

(** C3. Make text tokens that stand for the same name (trimmed, blank
    read as the generic label, compared as exact strings) are given the same
    [Make]: the one the first of them was given, which is in the registry
    under that name and stays there; the registry does not grow at the later
    ones; at every moment it holds each name once, and as many makes as
    there are distinct names among the make text tokens met so far. *)
Theorem make_interning_idempotent
    (pre mid : list Token) (t1 t2 : string) (s0 s1 s2 s3 : State) :
  run init pre = Ok s0 →
  topIs MAKE s0 = true → step s0 (CharData t1) = Ok s1 →
  run s1 mid = Ok s2 →
  topIs MAKE s2 = true → step s2 (CharData t2) = Ok s3 →
  makeName t1 = makeName t2 →
  ∃ w1 w2 p,
    newWork s0 = Some w1 ∧ newWork s2 = Some w2
    ∧ workMake s1 w1 = Some p ∧ workMake s3 w2 = Some p
    ∧ Make_Name <$> makes s1 !! p = Some (makeName t1)
    ∧ Make_Name <$> makes s3 !! p = Some (makeName t1)
    ∧ length (makes s3) = length (makes s2)
    ∧ NoDup (names s3)
    ∧ length (makes s3)
      = length (remove_dups
                  (firedMakes init
                     (pre ++ CharData t1 :: mid ++ [CharData t2]))).
Proof.
  intros Hpre Hmk0 E1 Hmid Hmk2 E3 Hsame.
  pose proof (reachable_wf _ _ Hpre) as Hwf0.
  pose proof (step_wf _ _ _ Hwf0 E1) as Hwf1.
  pose proof (run_wf _ _ _ Hwf1 Hmid) as Hwf2.
  destruct (make_text_effect _ _ _ Hwf0 Hmk0 E1)
    as (w1 & p & Hw1 & _ & Hp1 & Hm1 & _).
  destruct (make_text_effect _ _ _ Hwf2 Hmk2 E3)
    as (w2 & p' & Hw2 & _ & Hp3 & Hm3 & Hn3).
  destruct (proj1 (run_names _ _ _ Hwf1 Hmid)) as [extra Hex].
  pose proof (findMake_prefix _ _ _ _ _ Hex Hp1) as Hp2.
  assert (names s3 = names s2) as Hn32.
  { rewrite Hn3, decide_True, app_nil_r; [done|]. rewrite <- Hsame.
    apply findMake_lookup in Hp2.
    destruct (makes s2 !! p) as [mk|] eqn:Emk; [|done].
    injection Hp2 as <-. unfold names. apply list_elem_of_fmap.
    exists mk. split; [done|]. by eapply list_elem_of_lookup_2. }
  assert (p' = p) as ->.
  { rewrite <- Hsame in Hp3.
    rewrite (findMake_names _ _ (makes s2) 0%nat Hn32) in Hp3. congruence. }
  assert (run init (pre ++ CharData t1 :: mid ++ [CharData t2]) = Ok s3)
    as Hall.
  { rewrite run_app, Hpre. cbn [mbind Outcome_bind run]. rewrite E1.
    cbn [mbind Outcome_bind]. by rewrite (run_snoc _ _ _ _ Hmid). }
  exists w1, w2, p. split_and!; try done.
  - by apply findMake_lookup.
  - rewrite Hsame. by apply findMake_lookup.
  - rewrite <- !(length_fmap Make_Name).
    change (length (names s3) = length (names s2)). by rewrite Hn32.
  - apply (registry_size _ _ Hall).
  - apply (registry_size _ _ Hall).
Qed.

Lemma make_interning_idempotent_witness :
  let s0 := reached init sample_open_make in
  let s1 := reached s0 [CharData " Nikon"] in
  let s2 := reached s1 sample_next_make in
  let s3 := reached s2 [CharData "Nikon  "] in
  ∃ w1 w2 p,
    newWork s0 = Some w1 ∧ newWork s2 = Some w2
    ∧ workMake s1 w1 = Some p ∧ workMake s3 w2 = Some p
    ∧ Make_Name <$> makes s1 !! p = Some (makeName " Nikon")
    ∧ Make_Name <$> makes s3 !! p = Some (makeName " Nikon")
    ∧ length (makes s3) = length (makes s2)
    ∧ NoDup (names s3)
    ∧ length (makes s3)
      = length (remove_dups
                  (firedMakes init
                     (sample_open_make ++ CharData " Nikon"
                        :: sample_next_make ++ [CharData "Nikon  "]))).
Proof.
  intros s0 s1 s2 s3.
  apply (make_interning_idempotent sample_open_make sample_next_make
           " Nikon" "Nikon  " s0 s1 s2 s3); vm_compute; reflexivity.
Defined.

(** ** Malformed input *)

(** ** The calls on the files *)

Lemma calls_ops out s :
  Site.Call_op <$> Site.calls out s = Site.generate out s.
Proof.
  assert (∀ a b (l : list Site.FsOp),
            Site.Call_op <$> (Site.checked a b <$> l) = l) as H.
  { intros a b l. induction l as [|[] l IH]; cbn; [done|by f_equal..]. }
  unfold Site.calls, Site.generate. by rewrite !fmap_app, !H.
Qed.

Lemma exec_obliging env past cs :
  obliging env →
  Site.exec env past cs = (Exit0, (past ++ (Site.Call_op <$> cs))%list).
Proof.
  intros (_ & Hc & Hw). revert past.
  induction cs as [|[op f] cs IH]; intros past; cbn [Site.exec fmap list_fmap].
  - by rewrite app_nil_r.
  - cbn [Site.Call_op]. unfold Site.attempt.
    destruct op as [path|path data].
    + rewrite Hc, IH. by rewrite <- app_assoc.
    + rewrite Hw, IH. by rewrite <- app_assoc.
Qed.

Lemma obliging_healthy : obliging Site.healthy.
Proof. by split_and!. Qed.

(** In an environment where every call goes through, a stream that is read
    to its end gives exit status 0 and all the calls. *)
Lemma main_obliging env out tokens e s :
  obliging env → parse tokens e = Ok s →
  main env out tokens e = (Exit0, Site.generate out s).
Proof.
  intros Hob Hp. unfold main. rewrite Hp. unfold Site.fileExists.
  destruct Hob as (Hs & Hc & Hw).
  destruct (Site.stat env _) eqn:E; [| |by apply Hs in E];
    by rewrite exec_obliging, calls_ops.
Qed.

(** C4. When an end-tag arrives and the stack is empty, or its top is not
    the name of the end-tag, the run stops with exit status 1 on one of the
    two structural messages, whatever follows in the stream and whatever
    the environment, and no file has been created or written.  More
    generally no file is touched unless the whole stream was read: the
    pages are made from the final state of the loop (all of them, with exit
    status 0, when every call on the files goes through), and a run that
    stops in the loop makes no call on the files. *)
Theorem malformed_input_rejected
    (env : Site.Env) (out : string) (pre rest : list Token) (name : string)
    (e : StreamEnd) (s : State) :
  run init pre = Ok s →
  (stack s = [] ∨ ∃ top, last (stack s) = Some top ∧ top ≠ name) →
  (∃ err, structural err = true
          ∧ main env out (pre ++ EndElement name :: rest) e
            = (ExitFatal err, []))
  ∧ ∀ tokens e' status ops,
      main env out tokens e' = (status, ops) →
      (∃ s', parse tokens e' = Ok s'
             ∧ (obliging env →
                status = Exit0 ∧ ops = Site.generate out s'))
      ∨ (status ≠ Exit0 ∧ ops = []).
Proof.
  intros Hpre Hbad. split.
  - assert (∃ err, structural err = true
                   ∧ step s (EndElement name) = Exit1 err) as (err & He & Hs).
    { cbn. unfold onEndElement. destruct Hbad as [->|(top & -> & Hne)].
      - by exists PopWithoutOpen.
      - exists CloseWithoutOpener. split; [done|].
        apply String.eqb_neq in Hne. by rewrite Hne. }
    exists err. split; [done|]. unfold main, parse.
    rewrite run_app, Hpre. cbn [mbind Outcome_bind run]. by rewrite Hs.
  - intros tokens e' status ops Hmain.
    destruct (parse tokens e') as [s'| |] eqn:Hp.
    + left. exists s'. split; [done|]. intros Hob.
      rewrite (main_obliging _ _ _ _ _ Hob Hp) in Hmain.
      by injection Hmain as <- <-.
    + right. unfold main in Hmain. rewrite Hp in Hmain.
      by injection Hmain as <- <-.
    + right. unfold main in Hmain. rewrite Hp in Hmain.
      by injection Hmain as <- <-.
Qed.

Lemma malformed_input_rejected_witness :
  ∃ err, structural err = true
         ∧ main Site.healthy "out"
             ([StartElement "works" []]
              ++ EndElement "work" :: [EndElement "works"]) EOF
           = (ExitFatal err, []).
Proof.
  apply (malformed_input_rejected Site.healthy "out"
           [StartElement "works" []]
           [EndElement "works"] "work" EOF
           (reached init [StartElement "works" []])).
  - vm_compute. reflexivity.
  - right. exists "works". split; [vm_compute; reflexivity|discriminate].
Defined.

(** ** The page of the works without a make *)

Lemma app_cons_s c (a b : string) : String c a +:+ b = String c (a +:+ b).
Proof. reflexivity. Qed.

Lemma app_assoc_s (a b c : string) : (a +:+ b) +:+ c = a +:+ (b +:+ c).
Proof.
  induction a as [|x a IH]; [done|]. rewrite !app_cons_s. by rewrite IH.
Qed.

Lemma prefix_cons a s1 b s2 :
  String.prefix (String a s1) (String b s2)
  = if ascii_dec a b then String.prefix s1 s2 else false.
Proof. reflexivity. Qed.

Lemma occurrences_quiet a x :
  quiet a = true → occurrences "<img" (a +:+ x) = occurrences "<img" x.
Proof.
  induction a as [|c r IH]; [done|].
  intros [Hc Hr]%andb_true_iff. rewrite app_cons_s.
  cbn [occurrences]. rewrite (IH Hr), prefix_cons.
  destruct (ascii_dec "<" c) as [<-|Hne]; [|done].
  destruct r as [|d r']; [done|]. rewrite app_cons_s, prefix_cons.
  destruct (ascii_dec "i" d) as [<-|Hne]; done.
Qed.

Lemma quiet_escapeByte c :
  quiet (GoLib.escapeByte c) = true
  ∧ ∃ d r, GoLib.escapeByte c = String d r ∧ d ≠ "<"%char.
Proof.
  unfold GoLib.escapeByte.
  repeat match goal with |- context [if Ascii.eqb c ?x then _ else _] =>
    destruct (Ascii.eqb c x) eqn:?;
      [split; [done|eexists _, _; split; [reflexivity|done]]|] end.
  match goal with H : Ascii.eqb c "<" = false |- _ =>
    apply Ascii.eqb_neq in H as Hne; cbn; rewrite H end.
  split; [done|]. by eexists _, _.
Qed.

Lemma occurrences_escape u x :
  occurrences "<img" (GoLib.EscapeString u +:+ x) = occurrences "<img" x.
Proof.
  induction u as [|c r IH]; [done|].
  cbn [GoLib.EscapeString]. rewrite app_assoc_s.
  rewrite occurrences_quiet; [done|apply quiet_escapeByte].
Qed.

(** The page of the works without a make shows one image. *)
Lemma nomakePage_one_image wk :
  occurrences "<img" (Site.nomakePage wk) = 1%nat.
Proof.
  unfold Site.nomakePage, Site.page, Site.img, Site.backHome.
  rewrite !app_assoc_s.
  repeat (rewrite occurrences_quiet by reflexivity).
  change (EmptyString +:+ ?x) with x.
  change (occurrences "<img" ("<img src=" +:+ ?x))
    with (S (occurrences "<img" x)).
  by rewrite occurrences_escape.
Qed.

Lemma replay_app ops1 ops2 fs :
  Site.replay (ops1 ++ ops2) fs = Site.replay ops2 (Site.replay ops1 fs).
Proof. apply foldl_app. Qed.

Lemma replay_untouched path ops fs :
  Forall (λ op, opPath op ≠ path) ops →
  Site.replay ops fs !! path = fs !! path.
Proof.
  revert fs. induction ops as [|op ops IH]; intros fs; [done|].
  intros [Hop Hops]%Forall_cons.
  change (Site.replay (op :: ops) fs)
    with (Site.replay ops (Site.perform fs op)).
  rewrite (IH _ Hops).
  destruct op as [p|p d]; cbn in *.
  - by rewrite lookup_insert_ne.
  - by rewrite lookup_alter_ne.
Qed.

Lemma replay_create_write path data fs :
  Site.replay [Site.Create path; Site.Write path data] fs !! path = Some data.
Proof.
  cbn. rewrite lookup_alter_eq, lookup_insert_eq. done.
Qed.

Lemma replay_genNoMake out wks wk fs :
  last wks = Some wk →
  Site.replay (wks ≫= Site.genNoMake1 out) fs !! Site.outFile out "nomake.html"
  = Some (Site.nomakePage wk).
Proof.
  destruct wks as [|x wks _] using rev_ind; [done|].
  rewrite last_snoc. intros [= ->].
  rewrite bind_app, replay_app. cbn [mbind list_bind]. rewrite app_nil_r.
  apply replay_create_write.
Qed.

Lemma creations_genNoMake out wks :
  Site.creations (Site.outFile out "nomake.html")
    (wks ≫= Site.genNoMake1 out) = length wks.
Proof.
  induction wks as [|wk wks IH]; [done|].
  cbn [mbind list_bind]. cbn [app Site.genNoMake1 Site.creations].
  fold (wks ≫= Site.genNoMake1 out). by rewrite IH, String.eqb_refl.
Qed.

Lemma deref_valid s l :
  (∀ w, w ∈ l → (w < length (works s))%nat) →
  length (Site.deref s l) = length l
  ∧ last (Site.deref s l) = last l ≫= (λ w, works s !! w).
Proof.
  unfold Site.deref. induction l as [|w l IH] using rev_ind; [done|].
  intros H. destruct IH as [IH1 IH2].
  { intros w' Hw'. apply H, elem_of_app. by left. }
  rewrite omap_app. cbn.
  destruct (works s !! w) as [wk|] eqn:E.
  - rewrite !length_app, IH1, !last_snoc. done.
  - apply lookup_ge_None in E.
    assert (w < length (works s))%nat; [|lia].
    apply H, elem_of_app. right. by apply list_elem_of_singleton.
Qed.

Lemma length_app_s (a b : string) :
  String.length (a +:+ b) = (String.length a + String.length b)%nat.
Proof.
  induction a as [|x a IH]; [done|]. rewrite app_cons_s. cbn. by rewrite IH.
Qed.

Lemma app_inv_tail_s (a b c : string) : a +:+ c = b +:+ c → a = b.
Proof.
  revert b. induction a as [|x a IH]; intros [|y b].
  - done.
  - intros H. apply (f_equal String.length) in H.
    rewrite !length_app_s in H. cbn [String.length] in H. lia.
  - intros H. apply (f_equal String.length) in H.
    rewrite !length_app_s in H. cbn [String.length] in H. lia.
  - rewrite !app_cons_s. intros [= -> H]. by rewrite (IH _ H).
Qed.

Lemma outFile_html_inj out a b :
  Site.outFile out (a +:+ ".html") = Site.outFile out (b +:+ ".html") → a = b.
Proof.
  unfold Site.outFile. intros H.
  do 3 apply String.app_inj in H. by apply app_inv_tail_s in H.
Qed.

Lemma nomakePage_content wk :
  Site.nomakePage wk
  = nomakeHead +:+ "<img src=" +:+ GoLib.EscapeString (URISmall wk)
    +:+ "> </body></html>".
Proof.
  unfold Site.nomakePage, Site.page, Site.img, Site.backHome, nomakeHead.
  by rewrite !app_assoc_s.
Qed.

(** C10, as the code has it.  After a run with works without a make in
    which every call on the files goes through, [nomake.html] was created
    once for each of them, and what the loop over them leaves in it is the
    page of the last one: the fixed head of that page followed by one image,
    the tag with the escaped small URL of that work.  This is also what the
    file holds at the end of the run when no model page has the same
    name. *)
Theorem nomake_page_last_work
    (env : Site.Env) (out : string) (tokens : list Token) (e : StreamEnd)
    (s : State) (fs : gmap string string) :
  parse tokens e = Ok s → worksSM s ≠ [] → obliging env →
  ∃ w wk,
    last (worksSM s) = Some w ∧ works s !! w = Some wk
    ∧ main env out tokens e = (Exit0, Site.generate out s)
    ∧ Site.creations (Site.outFile out "nomake.html") (Site.genNoMake out s)
      = length (worksSM s)
    ∧ Site.replay (Site.genNoMake out s) fs !! Site.outFile out "nomake.html"
      = Some (Site.nomakePage wk)
    ∧ Site.nomakePage wk
      = nomakeHead +:+ "<img src=" +:+ GoLib.EscapeString (URISmall wk)
        +:+ "> </body></html>"
    ∧ occurrences "<img" (Site.nomakePage wk) = 1%nat
    ∧ ((∀ mk md, mk ∈ makes s →
                 md ∈ omap (λ p, models s !! p) (Make_Models mk) →
                 Model_PageURL md ≠ "nomake") →
       Site.replay (main env out tokens e).2 fs
         !! Site.outFile out "nomake.html"
       = Some (Site.nomakePage wk)).
Proof.
  intros Hparse Hne Hob. rewrite (main_obliging _ _ _ _ _ Hob Hparse).
  revert Hparse.
  unfold parse. destruct (run init tokens) as [s'| |] eqn:Hrun; [|done|done].
  cbn [mbind Outcome_bind]. destruct e; [|done]. intros [= ->].
  pose proof (reachable_wf _ _ Hrun) as [_ _ Hsm].
  destruct (deref_valid s (worksSM s) Hsm) as [Hlen Hlast].
  destruct (last (worksSM s)) as [w|] eqn:Hw;
    [|by apply last_None in Hw].
  cbn in Hlast. destruct (works s !! w) as [wk|] eqn:Hwk.
  2:{ apply lookup_ge_None in Hwk. apply last_Some_elem_of, Hsm in Hw. lia. }
  assert (Site.genNoMake out s
          = Site.deref s (worksSM s) ≫= Site.genNoMake1 out) as Hgen.
  { unfold Site.genNoMake. by destruct (worksSM s). }
  exists w, wk. split_and!; [done|done|done| | | | |].
  - by rewrite Hgen, creations_genNoMake.
  - rewrite Hgen. by apply replay_genNoMake.
  - apply nomakePage_content.
  - apply nomakePage_one_image.
  - intros Hnames. cbn [snd]. unfold Site.generate.
    rewrite !replay_app, replay_untouched.
    + rewrite Hgen. by apply replay_genNoMake.
    + apply Forall_forall. intros op.
      rewrite list_elem_of_bind. intros (mk & Hop & Hmk).
      unfold Site.genModels in Hop.
      apply list_elem_of_bind in Hop as (md & Hop & Hmd).
      specialize (Hnames mk md Hmk Hmd).
      assert (opPath op = Site.outFile out (Model_PageURL md +:+ ".html"))
        as ->.
      { unfold Site.genModel in Hop.
        rewrite !elem_of_cons, elem_of_nil in Hop.
        by destruct Hop as [->|[->|[]]]. }
      intros H. by apply (outFile_html_inj out _ "nomake") in H.
Qed.

Lemma nomake_page_last_work_witness :
  let tokens :=
    [StartElement "work" []; StartElement "url" [small];
     CharData "a.jpg"; EndElement "url"; EndElement "work";
     StartElement "work" []; StartElement "model" []; CharData "D90";
     EndElement "model"; StartElement "make" []; CharData "Nikon";
     EndElement "make"; EndElement "work";
     StartElement "work" []; StartElement "url" [small];
     CharData "b.jpg"; EndElement "url"; EndElement "work"] in
  let s := reached init tokens in
  ∃ w wk,
    last (worksSM s) = Some w ∧ works s !! w = Some wk
    ∧ URISmall wk = "b.jpg"
    ∧ main Site.healthy "out" tokens EOF
      = (Exit0, Site.generate "out" s)
    ∧ Site.creations (Site.outFile "out" "nomake.html")
        (Site.genNoMake "out" s) = 2%nat
    ∧ Site.replay (Site.genNoMake "out" s) ∅
        !! Site.outFile "out" "nomake.html" = Some (Site.nomakePage wk)
    ∧ Site.nomakePage wk
      = nomakeHead +:+ "<img src=" +:+ GoLib.EscapeString (URISmall wk)
        +:+ "> </body></html>"
    ∧ occurrences "<img" (Site.nomakePage wk) = 1%nat
    ∧ Site.replay (main Site.healthy "out" tokens EOF).2 ∅
        !! Site.outFile "out" "nomake.html" = Some (Site.nomakePage wk).
Proof.
  intros tokens s.
  destruct (nomake_page_last_work Site.healthy "out" tokens EOF s ∅)
    as (w & wk & H1 & H2 & H3 & H4 & H5 & H6 & H7 & H8).
  - vm_compute. reflexivity.
  - vm_compute. discriminate.
  - apply obliging_healthy.
  - assert (w = 2%nat) as -> by (vm_compute in H1; congruence).
    assert (URISmall wk = "b.jpg") as Hurl
      by (vm_compute in H2; injection H2 as <-; reflexivity).
    assert (length (worksSM s) = 2%nat) as Hlen by (by vm_compute).
    rewrite Hlen in H4.
    refine (ex_intro _ 2%nat (ex_intro _ wk
              (conj H1 (conj H2 (conj Hurl (conj H3 (conj H4 (conj H5
                 (conj H6 (conj H7 (H8 _))))))))))).
    intros mk md Hmk Hmd.
    assert (makes s = [mkMake 0 "Nikon" [0%nat] [1%nat] "Nikon"]) as Hs
      by (by vm_compute).
    rewrite Hs in Hmk. apply list_elem_of_singleton in Hmk as ->.
    assert (omap (λ p, models s !! p) [0%nat]
            = [mkModel 0 (Some 0%nat) [1%nat] "D90" "D90"]) as Hm
      by (by vm_compute).
    cbn [Make_Models] in Hmd. rewrite Hm in Hmd.
    apply list_elem_of_singleton in Hmd as ->. by vm_compute.
Defined.

(** The end of C10 as the claim words it fails on two works, the first one
    without a make and the second one of a model named nomake: the page of
    that model is written to [nomake.html] after the page of the first
    work, so the image left in the file at the end of the run is that of
    the second work, which has a make. *)
Lemma nomake_page_counterexample :
  let s := reached init sample_nomake_model in
  let run := main Site.healthy "out" sample_nomake_model EOF in
  ¬ (parse sample_nomake_model EOF = Ok s → run.1 = Exit0 →
     ∀ w wk, last (worksSM s) = Some w → works s !! w = Some wk →
       URISmall wk = "a.jpg" →
       ∃ page, Site.replay run.2 ∅ !! "./out/nomake.html" = Some page
               ∧ occurrences "<img" page = 1%nat
               ∧ occurrences "<img src=a.jpg> " page = 1%nat).
Proof.
  intros s run H.
  destruct (H ltac:(by vm_compute) ltac:(by vm_compute) 0%nat
              (mkWork (-1) EmptyString None None "a.jpg" EmptyString
                 EmptyString)
              ltac:(by vm_compute) ltac:(by vm_compute) eq_refl)
    as (page & Hpage & _ & Himg).
  assert (occurrences "<img src=a.jpg> "
            <$> Site.replay run.2 ∅ !! "./out/nomake.html" = Some 0%nat)
    as E by (by vm_compute).
  rewrite Hpage in E. cbn in E. congruence.
Qed.

Example nomake_page_overwritten :
  occurrences "<img src=x.jpg> "
    <$> Site.replay (main Site.healthy "out" sample_nomake_model EOF).2 ∅
          !! "./out/nomake.html"
  = Some 1%nat.
Proof. by vm_compute. Qed.

(** ** Models are resolved when the make arrives *)







(** ** The works a turn of the loop writes to *)

Lemma touch_refl i (R : Work → Work → Prop) l :
  (∀ wk, R wk wk) → touch i R l l.
Proof. intros HR. split; [done|]. intros j wk H. exists wk. auto. Qed.

Lemma touch_trans i (R : Work → Work → Prop) l1 l2 l3 :
  (∀ a b c, R a b → R b c → R a c) →
  touch i R l1 l2 → touch i R l2 l3 → touch i R l1 l3.
Proof.
  intros HR [L1 H1] [L2 H2]. split; [congruence|].
  intros j wk Hj. destruct (H1 j wk Hj) as (wk2 & Hj2 & Ha & Hb).
  destruct (H2 j wk2 Hj2) as (wk3 & Hj3 & Hc & Hd).
  exists wk3. split_and!; [done| |].
  - intros ->. eauto.
  - intros Hne. rewrite (Hd Hne). auto.
Qed.

Lemma touch_alter i (R : Work → Work → Prop) f l :
  (∀ wk, R wk (f wk)) → touch i R l (alter f i l).
Proof.
  intros HR. split; [apply length_alter|]. intros j wk Hj.
  destruct (decide (j = i)) as [->|Hne].
  - exists (f wk). rewrite list_lookup_alter_eq, Hj. split_and!; auto.
    by intros [].
  - exists wk. rewrite list_lookup_alter_ne by done. split_and!; auto.
    by intros ->.
Qed.

Lemma touch_weaken i (R R' : Work → Work → Prop) l l' :
  (∀ a b, R a b → R' a b) → touch i R l l' → touch i R' l l'.
Proof.
  intros HR [L H]. split; [done|]. intros j wk Hj.
  destruct (H j wk Hj) as (wk' & ? & ? & ?). exists wk'. auto.
Qed.

Lemma sameCore_refl wk : sameCore wk wk.
Proof. by repeat split. Qed.

Lemma sameCore_trans a b c : sameCore a b → sameCore b c → sameCore a c.
Proof.
  unfold sameCore. intros (?&?&?&?) (?&?&?&?). repeat split; congruence.
Qed.

Lemma onURI_touch flag clear setField s token :
  (∀ s, works (clear s) = works s) →
  (∀ v wk, sameCore wk (setField v wk)) →
  touch (length (works s) - 1) sameCore (works s)
    (works (onURI flag clear setField s token)).
Proof.
  intros Hc Hf. unfold onURI.
  destruct (flag s); [|apply touch_refl, sameCore_refl]. rewrite Hc.
  destruct (works s) eqn:E.
  - rewrite E. apply touch_refl, sameCore_refl.
  - rewrite <- E. cbn. by apply touch_alter.
Qed.

(** The URI blocks write to the last work, and only to its URLs. *)
Lemma uriBlocks_touch s token :
  touch (length (works s) - 1) sameCore (works s)
    (works (uriBlocks s token)).
Proof.
  unfold uriBlocks.
  set (s1 := onURI thumbnailURI _ _ s token).
  set (s2 := onURI mediumURI _ _ s1 token).
  assert (touch (length (works s) - 1) sameCore (works s) (works s1)) as T1
    by (apply onURI_touch; [done|by repeat split]).
  assert (touch (length (works s1) - 1) sameCore (works s1) (works s2))
    as T2 by (apply onURI_touch; [done|by repeat split]).
  assert (touch (length (works s2) - 1) sameCore (works s2)
            (works (onURI largeURI (set_largeURI false) Work_setURILarge
                      s2 token))) as T3
    by (apply onURI_touch; [done|by repeat split]).
  rewrite (proj1 T2), (proj1 T1) in T3. rewrite (proj1 T1) in T2.
  eapply touch_trans; [apply sameCore_trans| |exact T3].
  eapply touch_trans; [apply sameCore_trans|exact T1|exact T2].
Qed.

Lemma works_foldl_onAttr attr s : works (foldl onAttr s attr) = works s.
Proof.
  revert s. induction attr as [|val attr IH]; intros s; [done|].
  cbn. rewrite IH. unfold onAttr.
  by repeat match goal with |- context [if ?b then _ else _] =>
    destruct b end.
Qed.

(** The id, file name and make blocks stop the run when no work is open. *)
Lemma orphan_fields_rejected s token :
  newWork s = None →
  (topIs ID s = true →
   step s (CharData token) = Exit1 WorkIDFormat
   ∨ step s (CharData token) = Exit1 OrphanID)
  ∧ (topIs FILENAME s = true →
     step s (CharData token) = Exit1 OrphanFilename)
  ∧ (topIs MAKE s = true → step s (CharData token) = Exit1 OrphanMake).
Proof.
  intros Hw. split_and!; intros H; cbn [step].
  - unfold onCharData. rewrite H. unfold onID. rewrite Hw.
    destruct (GoLib.Atoi _); [by right|by left].
  - unfold onCharData.
    rewrite (topIs_excl FILENAME ID s H) by done. cbn [mbind Outcome_bind].
    rewrite H. unfold onFilename. by rewrite Hw.
  - by apply onCharData_make_orphan.
Qed.

(** A text that is accepted while no work is open writes to the URLs of
    the last work at most. *)
Lemma onCharData_closed_touch s token s' :
  newWork s = None → onCharData s token = Ok s' →
  touch (length (works s) - 1) sameCore (works s) (works s').
Proof.
  intros Hw E.
  destruct (orphan_fields_rejected s token Hw) as (H1 & H2 & H3).
  cbn [step] in *.
  destruct (topIs ID s) eqn:T1.
  { destruct (H1 eq_refl) as [H|H]; congruence. }
  destruct (topIs FILENAME s) eqn:T2; [rewrite H2 in E; done|].
  destruct (topIs MAKE s) eqn:T3; [rewrite H3 in E; done|].
  unfold onCharData in E. rewrite T1 in E. cbn [mbind Outcome_bind] in E.
  rewrite T2 in E. cbn [mbind Outcome_bind] in E.
  rewrite T3 in E. cbn [mbind Outcome_bind] in E.
  injection E as <-.
  assert (works (if topIs MODEL s then onModel s token else s) = works s)
    as Ew by (by destruct (topIs MODEL s)).
  rewrite <- Ew. apply uriBlocks_touch.
Qed.

Lemma resolveModel_touch s p s' :
  resolveModel s p = Ok s' →
  touch (length (works s) - 1) anyChange (works s) (works s')
  ∧ newWork s' = newWork s.
Proof.
  unfold resolveModel. destruct (works s) as [|w0 l] eqn:E; [done|].
  rewrite <- E. clear w0 l E.
  set (s1 := if String.eqb (newModel s) EmptyString then _ else s).
  assert (E1 : works s1 = works s ∧ newWork s1 = newWork s)
    by (subst s1; by destruct (String.eqb _ _)).
  destruct E1 as [Ew En]. clearbody s1. rewrite <- Ew, <- En.
  intros [= <-].
  destruct (match works s1 !! _ ≫= WMake with Some _ => _ | None => _ end)
    as [d|]; cbn.
  - split; [by apply touch_alter|done].
  - destruct (works s1 !! _ ≫= WMake) as [mk|]; cbn.
    + split; [by apply touch_alter|done].
    + split; [by apply touch_refl|done].
Qed.

Lemma onMake_touch s token s' :
  wf s → onMake s token = Ok s' →
  touch (length (works s) - 1) anyChange (works s) (works s')
  ∧ newWork s' = newWork s.
Proof.
  intros Hwf. unfold onMake.
  destruct (newWork s) as [w|] eqn:Hw;
    [|unfold resolveMake; by rewrite Hw].
  pose proof (wf_newWork _ Hwf _ Hw) as Hlen.
  rewrite (resolveMake_open _ _ _ Hwf Hw).
  assert (∀ f, touch (length (works s) - 1) anyChange (works s)
                 (alter f w (works s))) as Ht.
  { intros f. replace (length (works s) - 1)%nat with w by lia.
    by apply touch_alter. }
  destruct (findMake _ _ _) as [p|]; cbn [mbind Outcome_bind].
  - destruct (newModelDetected _).
    + intros [T N]%resolveModel_touch. cbn in T, N.
      rewrite length_alter in T. split; [|congruence].
      eapply touch_trans; [done|apply Ht|apply T].
    + intros [= <-]. split; [apply Ht|done].
  - destruct (newModelDetected _).
    + intros [T N]%resolveModel_touch. cbn in T, N.
      rewrite length_alter in T. split; [|congruence].
      eapply touch_trans; [done|apply Ht|apply T].
    + intros [= <-]. split; [apply Ht|done].
Qed.

(** A text writes to the last work only. *)
Lemma onCharData_touch s token s' :
  wf s → onCharData s token = Ok s' →
  touch (length (works s) - 1) anyChange (works s) (works s')
  ∧ newWork s' = newWork s.
Proof.
  intros Hwf E.
  assert (∀ s0, touch (length (works s0) - 1) anyChange (works s0)
                  (works (uriBlocks s0 token))
                ∧ newWork (uriBlocks s0 token) = newWork s0) as Huri.
  { intros s0. split; [|apply (uriBlocks_frame s0 token)].
    eapply touch_weaken; [|apply uriBlocks_touch]. done. }
  destruct (topIs MAKE s) eqn:Hmk.
  - destruct (newWork s) as [w|] eqn:Hw;
      [|by rewrite onCharData_make_orphan in E].
    destruct (onCharData_make_open s token w Hwf Hmk Hw) as (s1 & E1 & E2).
    rewrite E2 in E. injection E as <-.
    destruct (onMake_touch _ _ _ Hwf E1) as [T1 N1].
    destruct (Huri s1) as [T2 N2]. rewrite (proj1 T1) in T2.
    split; [|congruence]. eapply touch_trans; [done|apply T1|apply T2].
  - unfold onCharData in E.
    destruct (if topIs ID s then onID s token else Ok s) as [s1| |] eqn:E1;
      [|done|done].
    assert (touch (length (works s) - 1) anyChange (works s) (works s1)
            ∧ newWork s1 = newWork s ∧ stack s1 = stack s)
      as (T1 & N1 & S1).
    { destruct (topIs ID s); [|injection E1 as <-; by split;
                                 [apply touch_refl|]].
      unfold onID in E1. destruct (GoLib.Atoi _); [|done].
      destruct (newWork s) as [w|] eqn:Hw; [|done]. injection E1 as <-.
      pose proof (wf_newWork _ Hwf _ Hw). cbn. split; [|done].
      replace (length (works s) - 1)%nat with w by lia.
      by apply touch_alter. }
    cbn [mbind Outcome_bind] in E.
    destruct (if topIs FILENAME s1 then onFilename s1 token else Ok s1)
      as [s2| |] eqn:E2; [|done|done].
    assert (touch (length (works s) - 1) anyChange (works s1) (works s2)
            ∧ newWork s2 = newWork s ∧ stack s2 = stack s)
      as (T2 & N2 & S2).
    { destruct (topIs FILENAME s1); [|injection E2 as <-; by split;
                                       [apply touch_refl|]].
      unfold onFilename in E2. rewrite N1 in E2.
      destruct (newWork s) as [w|] eqn:Hw; [|done]. injection E2 as <-.
      pose proof (wf_newWork _ Hwf _ Hw). cbn. split; [|done].
      replace (length (works s) - 1)%nat with w by lia.
      by apply touch_alter. }
    cbn [mbind Outcome_bind] in E.
    rewrite (topIs_stack MAKE s s2 S2), Hmk in E.
    cbn [mbind Outcome_bind] in E. injection E as <-.
    set (s3 := if topIs MODEL s2 then onModel s2 token else s2).
    assert (works s3 = works s2 ∧ newWork s3 = newWork s2) as [W3 N3]
      by (subst s3; by destruct (topIs MODEL s2)).
    destruct (Huri s3) as [T3 N4].
    rewrite W3, (proj1 T2), (proj1 T1) in T3.
    split; [|congruence].
    eapply touch_trans; [done|apply T1|].
    eapply touch_trans; [done|apply T2|apply T3].
Qed.

(** The true part of C6: once a work is closed, no turn of the loop
    changes its identifier, file name, make or model, and it stays
    closed; while another work is open it is not written to at all. *)
Lemma closed_work_core_stable s t s' w wk :
  wf s → step s t = Ok s' → works s !! w = Some wk → newWork s ≠ Some w →
  ∃ wk', works s' !! w = Some wk' ∧ sameCore wk wk'
         ∧ newWork s' ≠ Some w
         ∧ (newWork s ≠ None → wk' = wk).
Proof.
  intros Hwf E Hwk Hclosed.
  pose proof (lookup_lt_Some _ _ _ Hwk) as Hlt.
  destruct t as [name attr|name|text|]; cbn [step] in E.
  - unfold onStartElement in E. injection E as <-.
    match goal with |- context [if _ then foldl onAttr ?x attr else ?x] =>
      set (s1 := x) end.
    match goal with |- context [if ?b then foldl onAttr s1 attr else s1] =>
      assert (works (if b then foldl onAttr s1 attr else s1) = works s1
              ∧ newWork (if b then foldl onAttr s1 attr else s1)
                = newWork s1) as [-> ->]
        by (destruct b; [|done]; split;
            [apply works_foldl_onAttr
            |apply (foldl_onAttr_frame attr s1)]) end.
    subst s1. destruct (topIs WORK _); cbn.
    + exists wk. rewrite lookup_app_l by done.
      split_and!; [done|apply sameCore_refl| |done]. intros [= Heq]. lia.
    + exists wk. split_and!; [done|apply sameCore_refl|done|done].
  - unfold onEndElement in E. destruct (last (stack s)); [|done].
    destruct (negb _); [done|]. destruct (String.eqb _ WORK).
    + unfold finishWork in E. cbn in E.
      destruct (newWork s) as [w0|]; [|done].
      destruct (works s !! w0) as [wk0|]; [|done]. injection E as <-.
      exists wk. destruct (WMake wk0), (WModel wk0); cbn;
        by split_and!; [|apply sameCore_refl| |].
    + injection E as <-. exists wk.
      by split_and!; [|apply sameCore_refl| |].
  - destruct (newWork s) as [w0|] eqn:Hw0.
    + destruct (onCharData_touch _ _ _ Hwf E) as [[L H] N].
      destruct (H w wk Hwk) as (wk' & K & _ & Hb). exists wk'.
      pose proof (wf_newWork _ Hwf _ Hw0) as Hlen.
      assert (w ≠ (length (works s) - 1)%nat) as Hne.
      { intros ->. apply Hclosed. f_equal. lia. }
      rewrite (Hb Hne) in *. rewrite N, Hw0.
      by split_and!; [|apply sameCore_refl| |].
    + destruct (onCharData_closed_touch s text s' Hw0 E) as [L H].
      destruct (onCharData_touch _ _ _ Hwf E) as [_ N].
      destruct (H w wk Hwk) as (wk' & K & Ha & Hb). exists wk'.
      rewrite N, Hw0. split_and!; [done| |done|done].
      destruct (decide (w = (length (works s) - 1)%nat)) as [Heq|Hne];
        [auto|rewrite (Hb Hne); apply sameCore_refl].
  - injection E as <-. exists wk.
    by split_and!; [|apply sameCore_refl| |].
Qed.

Lemma closed_work_core_stable_run ts s s' w wk :
  wf s → run s ts = Ok s' → works s !! w = Some wk → newWork s ≠ Some w →
  ∃ wk', works s' !! w = Some wk' ∧ sameCore wk wk'.
Proof.
  revert s wk. induction ts as [|t ts IH]; intros s wk Hwf; cbn [run].
  - intros [= <-] Hwk _. exists wk. split; [done|apply sameCore_refl].
  - destruct (step s t) as [s1| |] eqn:E; [|done|done].
    cbn [mbind Outcome_bind]. intros Hrun Hwk Hc.
    destruct (closed_work_core_stable _ _ _ _ _ Hwf E Hwk Hc)
      as (wk1 & Hwk1 & Hs1 & Hc1 & _).
    destruct (IH s1 wk1 (step_wf _ _ _ Hwf E) Hrun Hwk1 Hc1)
      as (wk' & Hwk' & Hs'). exists wk'. split; [done|].
    by eapply sameCore_trans.
Qed.

(** ** Where the code departs from its specification *)

(** What the end of a work does to the lists, by the make and the model
    of the work.  With a make and no model, nothing. *)
Lemma finishWork_lists s w wk :
  newWork s = Some w → works s !! w = Some wk →
  ∃ s', finishWork s = Ok s' ∧ newWork s' = None ∧ works s' = works s
        ∧ match WMake wk, WModel wk with
          | None, _ =>
              worksSM s' = (worksSM s ++ [w])%list
              ∧ makes s' = makes s ∧ models s' = models s
          | Some m, Some d =>
              worksSM s' = worksSM s
              ∧ makes s' = alter (Make_addWork w) m (makes s)
              ∧ models s' = alter (Model_addWork w) d (models s)
          | Some m, None =>
              worksSM s' = worksSM s
              ∧ makes s' = makes s ∧ models s' = models s
          end.
Proof.
  intros Hw Hwk. unfold finishWork. rewrite Hw, Hwk.
  eexists. split; [reflexivity|].
  by destruct (WMake wk), (WModel wk).
Qed.

(** C1. A work that has a make and no model is put in no list at all
    when it closes: the make of <work><make>Nikon</make></work> has an
    empty list of works. *)
Theorem make_only_work_not_listed :
  let s := reached init sample_make_only in
  parse sample_make_only EOF = Ok s
  ∧ WMake <$> works s = [Some 0%nat] ∧ WModel <$> works s = [None]
  ∧ Make_Name <$> makes s = ["Nikon"] ∧ Make_Works <$> makes s = [[]].
Proof. vm_compute. by repeat split. Qed.

(** C2. On the same stream the work is neither in the list of the works
    without a make nor in the list of any make. *)
Theorem make_only_work_in_no_list :
  let s := reached init sample_make_only in
  parse sample_make_only EOF = Ok s
  ∧ length (works s) = 1%nat
  ∧ worksSM s = [] ∧ (makes s ≫= Make_Works) = [].
Proof. vm_compute. by repeat split. Qed.

(** C6. A text under a [url] element that follows the end of a work is
    written into that work, which was closed and listed already. *)
Theorem closed_work_is_overwritten :
  let s1 := reached init sample_closed_work in
  let s2 := reached s1 sample_late_url in
  run init sample_closed_work = Ok s1
  ∧ newWork s1 = None ∧ worksSM s1 = [0%nat]
  ∧ URISmall <$> works s1 !! 0%nat = Some "a.jpg"
  ∧ run s1 sample_late_url = Ok s2
  ∧ worksSM s2 = [0%nat]
  ∧ URISmall <$> works s2 !! 0%nat = Some "late.jpg".
Proof. vm_compute. by repeat split. Qed.

(** C7. A model text and a URL text outside of any work do not stop the
    run: both streams are read to the end and, where every call on the
    files goes through, the pages are written.  No model text ever stops
    it. *)
Theorem orphan_model_and_url_accepted :
  (main Site.healthy "out" sample_orphan_model EOF).1 = Exit0
  ∧ (main Site.healthy "out" sample_orphan_url EOF).1 = Exit0
  ∧ (∀ s text, topIs MODEL s = true → newWork s = None →
               ∃ s', step s (CharData text) = Ok s').
Proof.
  split_and!; [by vm_compute|by vm_compute|].
  intros s text H _. eexists. by apply onCharData_model.
Qed.

(** C9. The name of a make goes into the heading of its page as it is:
    for the make A<b the page has <i>A<b</i>, not the escaped name. *)
Theorem make_page_heading_not_escaped :
  let s := reached init sample_markup_make in
  let mk := createMake "A<b" in
  parse sample_markup_make EOF = Ok s
  ∧ makes s = [mk]
  ∧ GoLib.EscapeString (Make_Name mk) = "A&lt;b"
  ∧ (main Site.healthy "out" sample_markup_make EOF).2 !! 3%nat
    = Some (Site.Write "./out/A-b.html" (Site.makePage s mk))
  ∧ occurrences "<i>A<b</i>" (Site.makePage s mk) = 1%nat
  ∧ occurrences "<i>A&lt;b</i>" (Site.makePage s mk) = 0%nat.
Proof. vm_compute. by repeat split. Qed.

(** * Further properties of the code *)

(** ** [containsAll] *)

(** X1. [containsAll x y] holds exactly when the elements of [y] can be
    found in [x] in the same order (not necessarily side by side). *)
Theorem containsAll_sublist (x y : list string) :
  containsAll x y = true ↔ y `sublist_of` x.
Proof.
  revert y. induction x as [|x0 x IH]; intros y.
  - destruct y as [|y0 y]; cbn.
    + split; [constructor|done].
    + split; [done|]. by intros H%sublist_nil_r.
  - cbn [containsAll]. destruct (length y <=? length (x0 :: x))%nat eqn:Hlen.
    + destruct y as [|y0 y]; [split; [intros _; apply sublist_nil_l|done]|].
      rewrite IH. destruct (String.eqb x0 y0) eqn:E.
      * apply String.eqb_eq in E. subst y0. split.
        -- by apply sublist_skip.
        -- intros [H|(l' & [= <-] & H)]%sublist_cons_r; [|done].
           etrans; [|exact H]. by apply sublist_cons.
      * apply String.eqb_neq in E. split.
        -- by apply sublist_cons.
        -- intros [H|(l' & [= Heq _] & _)]%sublist_cons_r; [done|].
           by subst.
    + split; [done|]. intros H%sublist_length.
      apply Nat.leb_gt in Hlen. lia.
Qed.

(** ** The shape of page names *)

Lemma inClass_dash c : GoLib.inClass c = false → Ascii.eqb c "-" = false.
Proof.
  intros H. destruct (Ascii.eqb c "-") eqn:E; [|done].
  apply Ascii.eqb_eq in E. by subst c.
Qed.

Lemma noDouble_cons c a b t :
  noDouble c (String a (String b t))
  = negb (Ascii.eqb a c && Ascii.eqb b c) && noDouble c (String b t).
Proof. reflexivity. Qed.

Lemma replaceAllFrom_shape s :
  (allChars slugByte (GoLib.replaceAllFrom GoLib.inClass "-" false s) = true
   ∧ noDouble "-" (GoLib.replaceAllFrom GoLib.inClass "-" false s) = true)
  ∧ (allChars slugByte (GoLib.replaceAllFrom GoLib.inClass "-" true s) = true
     ∧ noDouble "-" (GoLib.replaceAllFrom GoLib.inClass "-" true s) = true
     ∧ startsWith "-" (GoLib.replaceAllFrom GoLib.inClass "-" true s)
       = false).
Proof.
  induction s as [|c r [[F1 F2] [T1 [T2 T3]]]]; [done|].
  cbn [GoLib.replaceAllFrom]. destruct (GoLib.inClass c) eqn:Hc.
  - split; [|done]. rewrite app_cons_s. change (EmptyString +:+ ?x) with x.
    split; [by cbn [allChars]; rewrite T1|].
    destruct (GoLib.replaceAllFrom GoLib.inClass "-" true r) as [|b t] eqn:E;
      [done|].
    rewrite noDouble_cons, T2. cbn [startsWith] in T3. by rewrite T3.
  - pose proof (inClass_dash c Hc) as Hd.
    assert (slugByte c = true) as Hs.
    { unfold slugByte. unfold GoLib.inClass in Hc.
      apply negb_false_iff in Hc. by rewrite Hc. }
    assert (∀ t, noDouble "-" t = true → noDouble "-" (String c t) = true)
      as Hn.
    { intros [|b t] Ht; [done|]. by rewrite noDouble_cons, Hd, Ht. }
    cbn [allChars startsWith]. rewrite Hs, F1, Hd. auto.
Qed.

Lemma replaceAllFrom_fixed s :
  allChars slugByte s = true → noDouble "-" s = true →
  GoLib.replaceAllFrom GoLib.inClass "-" false s = s
  ∧ (startsWith "-" s = false →
     GoLib.replaceAllFrom GoLib.inClass "-" true s = s).
Proof.
  induction s as [|c r IH]; [done|].
  intros [Hc Hr]%andb_true_iff Hn.
  assert (noDouble "-" r = true ∧ (Ascii.eqb c "-" = true →
                                   startsWith "-" r = false)) as [Hn' Hs].
  { destruct r as [|b t]; [done|]. rewrite noDouble_cons in Hn.
    apply andb_true_iff in Hn as [Hn1 Hn2]. split; [done|].
    intros E. rewrite E in Hn1. cbn in *. by destruct (Ascii.eqb b "-"). }
  destruct (IH Hr Hn') as [IHf IHt].
  cbn [GoLib.replaceAllFrom]. destruct (GoLib.inClass c) eqn:Hcls.
  - assert (c = "-"%char) as ->.
    { unfold slugByte, GoLib.inClass in *. apply negb_true_iff in Hcls.
      rewrite Hcls in Hc. by apply Ascii.eqb_eq in Hc. }
    rewrite (IHt (Hs eq_refl)). split; [done|]. by cbn.
  - rewrite IHf. done.
Qed.

(** X2. The page name of a make or model is made of ASCII letters, digits
    and "-" only, with no two "-" side by side; a name that already has
    this shape is its own page name, so deriving a page name from a page
    name changes nothing. *)
Theorem slug_shape (name : string) (make : option MakePtr) :
  Make_PageURL (createMake name) = slug name
  ∧ Model_PageURL (createModel name make) = slug name
  ∧ allChars slugByte (slug name) = true
  ∧ noDouble "-" (slug name) = true
  ∧ slug (slug name) = slug name
  ∧ (allChars GoLib.isAlnum name = true → slug name = name).
Proof.
  destruct (replaceAllFrom_shape name) as [[H1 H2] _].
  split_and!; try done.
  - by apply replaceAllFrom_fixed.
  - clear H1 H2. intros H. unfold slug, GoLib.ReplaceAllString.
    induction name as [|c r IH]; [done|].
    apply andb_true_iff in H as [Hc Hr]. cbn [GoLib.replaceAllFrom].
    unfold GoLib.inClass at 1. rewrite Hc. cbn [negb].
    f_equal. by apply IH.
Qed.

(** ** The loop, tag by tag *)

Lemma onStartElement_shape s name attr s' :
  onStartElement s name attr = Ok s' →
  stack s' = (stack s ++ [name])%list
  ∧ makes s' = makes s ∧ models s' = models s ∧ worksSM s' = worksSM s
  ∧ (name = WORK ∧ works s' = (works s ++ [createWork])%list
       ∧ newWork s' = Some (length (works s))
     ∨ name ≠ WORK ∧ works s' = works s ∧ newWork s' = newWork s).
Proof.
  unfold onStartElement. intros [= <-].
  match goal with |- context [if _ then foldl onAttr ?x attr else ?x] =>
    set (s1 := x) end.
  match goal with |- context [if ?b then foldl onAttr s1 attr else s1] =>
    assert (frame s1 (if b then foldl onAttr s1 attr else s1)
            ∧ works (if b then foldl onAttr s1 attr else s1) = works s1)
      as [F W]
      by (destruct b; [split; [apply foldl_onAttr_frame
                              |apply works_foldl_onAttr]
                      |split; [apply frame_refl|done]]);
    revert F W; generalize (if b then foldl onAttr s1 attr else s1) end.
  intros s' (-> & -> & -> & -> & -> & _) ->. subst s1.
  assert (topIs WORK (set_stack (stack s ++ [name]) s) = String.eqb name WORK)
    as -> by (unfold topIs; cbn; by rewrite last_snoc).
  destruct (String.eqb name WORK) eqn:E.
  - apply String.eqb_eq in E. cbn. split_and!; try done. by left.
  - apply String.eqb_neq in E. cbn. split_and!; try done. by right.
Qed.

Lemma onEndElement_shape s name s' :
  onEndElement s name = Ok s' →
  last (stack s) = Some name ∧ stack s' = removelast (stack s)
  ∧ (name = WORK ∧ finishWork (set_stack (removelast (stack s)) s) = Ok s'
     ∨ name ≠ WORK ∧ s' = set_stack (removelast (stack s)) s).
Proof.
  unfold onEndElement. destruct (last (stack s)) as [top|]; [|done].
  destruct (String.eqb top name) eqn:E; [|done].
  apply String.eqb_eq in E. subst top. cbn [negb].
  destruct (String.eqb name WORK) eqn:E.
  - apply String.eqb_eq in E. intros H. split_and!; [done| |by left].
    by apply finishWork_effect in H as (-> & _).
  - apply String.eqb_neq in E. intros [= <-]. split_and!; [done|done|].
    by right.
Qed.

Lemma onCharData_stack s token s' :
  wf s → onCharData s token = Ok s' → stack s' = stack s.
Proof.
  intros Hwf E. destruct (topIs MAKE s) eqn:Hmk.
  - destruct (newWork s) as [w|] eqn:Hw;
      [|by rewrite onCharData_make_orphan in E].
    destruct (onCharData_make_open s token w Hwf Hmk Hw) as (s1 & E1 & E2).
    rewrite E2 in E. injection E as <-.
    destruct (onMake_effect s token w Hwf Hw) as (s1' & E1' & Hst & _).
    rewrite E1 in E1'. injection E1' as <-.
    by rewrite (proj1 (uriBlocks_frame s1 token)).
  - by apply onCharData_other in E as (-> & _).
Qed.

Lemma step_works_length s t s' :
  wf s → step s t = Ok s' →
  length (works s') = (workStarts [t] + length (works s))%nat.
Proof.
  intros Hwf. destruct t as [name attr|name|text|]; cbn [step workStarts].
  - intros (_ & _ & _ & _ & [(-> & -> & _)|(Hne & -> & _)])%onStartElement_shape.
    + rewrite length_app. cbn. lia.
    + apply String.eqb_neq in Hne. by rewrite Hne.
  - by intros (-> & _)%onEndElement_effect.
  - by intros [[-> _] _]%onCharData_touch.
  - by intros [= <-].
Qed.

Lemma workStarts_cons t ts :
  workStarts (t :: ts) = (workStarts [t] + workStarts ts)%nat.
Proof. destruct t; cbn; lia. Qed.

(** X3. After a run that reaches the end of the stream, [works] holds one
    work for each start-tag of a [work] element, whatever else the stream
    holds. *)
Theorem works_count (tokens : list Token) (s : State) :
  run init tokens = Ok s → length (works s) = workStarts tokens.
Proof.
  assert (∀ s0, wf s0 → run s0 tokens = Ok s →
            length (works s) = (workStarts tokens + length (works s0))%nat)
    as H.
  { induction tokens as [|t ts IH]; intros s0 Hwf; cbn [run].
    - by intros [= <-].
    - destruct (step s0 t) as [s1| |] eqn:E; [|done|done].
      cbn [mbind Outcome_bind]. intros Hrun.
      rewrite (IH s1 (step_wf _ _ _ Hwf E) Hrun),
        (step_works_length _ _ _ Hwf E), (workStarts_cons t ts). lia. }
  intros Hrun. rewrite (H init wf_init Hrun). cbn. lia.
Qed.

Lemma works_count_witness :
  length (works (reached init sample_two_works))
  = workStarts sample_two_works.
Proof. apply works_count. by vm_compute. Defined.

Lemma step_openPath s t s' :
  wf s → step s t = Ok s' → openPath (stack s) [t] = Some (stack s').
Proof.
  intros Hwf. destruct t as [name attr|name|text|]; cbn [step openPath].
  - by intros (-> & _)%onStartElement_shape.
  - intros (-> & -> & _)%onEndElement_shape. by rewrite String.eqb_refl.
  - by intros ->%onCharData_stack.
  - by intros [= <-].
Qed.

(** X4. A run that is not stopped has seen properly nested tags: every
    end-tag closed the innermost open element, and the stack is the path
    of the elements still open. *)
Theorem stack_is_open_path (tokens : list Token) (s : State) :
  run init tokens = Ok s → openPath [] tokens = Some (stack s).
Proof.
  change [] with (stack init) at 1. generalize wf_init.
  generalize init. induction tokens as [|t ts IH]; intros s0 Hwf; cbn [run].
  - by intros [= <-].
  - destruct (step s0 t) as [s1| |] eqn:E; [|done|done].
    cbn [mbind Outcome_bind]. intros Hrun.
    pose proof (step_openPath _ _ _ Hwf E) as H1.
    rewrite <- (IH s1 (step_wf _ _ _ Hwf E) Hrun).
    destruct t as [name attr|name|text|]; cbn [openPath] in *.
    + by injection H1 as ->.
    + destruct (last (stack s0)) as [top|]; [|done].
      destruct (String.eqb top name); [|done]. by injection H1 as ->.
    + by injection H1 as ->.
    + by injection H1 as ->.
Qed.

Lemma stack_is_open_path_witness :
  openPath [] sample_model_then_make
  = Some (stack (reached init sample_model_then_make)).
Proof. apply stack_is_open_path. by vm_compute. Defined.

(** ** Where field texts are accepted *)

Lemma last_removelast_elem (l : list string) x top :
  x ∈ l → last l = Some top → top ≠ x → x ∈ removelast l.
Proof.
  intros Hx Hl Hne. destruct l as [|a l _] using rev_ind; [done|].
  rewrite last_snoc in Hl. injection Hl as ->.
  rewrite removelast_last.
  apply elem_of_app in Hx as [?|Hx%list_elem_of_singleton]; [done|].
  by subst.
Qed.

(** While a work is open, the loop is inside a [work] element. *)
Lemma open_work_in_stack tokens s w :
  run init tokens = Ok s → newWork s = Some w → WORK ∈ stack s.
Proof.
  assert (∀ s0, wf s0 → (∀ w, newWork s0 = Some w → WORK ∈ stack s0) →
            run s0 tokens = Ok s → ∀ w, newWork s = Some w → WORK ∈ stack s)
    as H.
  { induction tokens as [|t ts IH]; intros s0 Hwf Hin; cbn [run].
    - by intros [= <-].
    - destruct (step s0 t) as [s1| |] eqn:E; [|done|done].
      cbn [mbind Outcome_bind].
      apply IH; [by eapply step_wf|]. clear IH.
      intros w1 Hw1. destruct t as [name attr|name|text|]; cbn [step] in E.
      + apply onStartElement_shape in E
          as (-> & _ & _ & _ & [(-> & _ & _)|(_ & _ & Hn)]).
        * apply elem_of_app. right. by apply list_elem_of_singleton.
        * rewrite Hn in Hw1. apply elem_of_app. left. by eapply Hin.
      + apply onEndElement_shape in E as (Hl & -> & [(-> & F)|(Hne & ->)]).
        * unfold finishWork in F. cbn in F.
          destruct (newWork s0) as [w0|]; [|done].
          destruct (works s0 !! w0); [|done]. injection F as <-. done.
        * cbn in Hw1. by eapply last_removelast_elem; [eapply Hin| |].
      + rewrite (onCharData_stack _ _ _ Hwf E).
        rewrite (proj2 (onCharData_touch _ _ _ Hwf E)) in Hw1.
        by eapply Hin.
      + injection E as <-. by eapply Hin. }
  intros Hrun. by apply (H init wf_init).
Qed.

(** X5. An identifier, file name or make text is accepted only inside a
    [work] element, while a work is open.  With no open work the run stops
    with exit status 1: on the conversion message for an identifier that is
    not a number, and otherwise on the message of the field. *)
Theorem field_text_needs_work
    (tokens : list Token) (s : State) (text : string) :
  run init tokens = Ok s →
  topIs ID s || topIs FILENAME s || topIs MAKE s = true →
  (∀ s', step s (CharData text) = Ok s' →
         WORK ∈ stack s ∧ ∃ w, newWork s = Some w ∧ newWork s' = Some w)
  ∧ (newWork s = None →
     step s (CharData text)
     = Exit1 (if topIs ID s then
                match GoLib.Atoi (GoLib.TrimSpace text) with
                | None => WorkIDFormat
                | Some _ => OrphanID
                end
              else if topIs FILENAME s then OrphanFilename
              else OrphanMake)).
Proof.
  intros Hrun Htop. pose proof (reachable_wf _ _ Hrun) as Hwf.
  assert (newWork s = None →
          step s (CharData text)
          = Exit1 (if topIs ID s then
                     match GoLib.Atoi (GoLib.TrimSpace text) with
                     | None => WorkIDFormat
                     | Some _ => OrphanID
                     end
                   else if topIs FILENAME s then OrphanFilename
                   else OrphanMake)) as Hnone.
  { intros Hw. cbn [step]. unfold onCharData.
    destruct (topIs ID s) eqn:T1.
    - unfold onID. destruct (GoLib.Atoi _); [|done]. by rewrite Hw.
    - cbn [mbind Outcome_bind]. destruct (topIs FILENAME s) eqn:T2.
      + unfold onFilename. by rewrite Hw.
      + cbn [mbind Outcome_bind]. cbn in Htop. rewrite Htop.
        unfold onMake, resolveMake. by rewrite Hw. }
  split; [|done]. intros s' E.
  destruct (newWork s) as [w|] eqn:Hw.
  - split; [by eapply open_work_in_stack|]. exists w. split; [done|].
    cbn in E. by rewrite (proj2 (onCharData_touch _ _ _ Hwf E)).
  - rewrite (Hnone eq_refl) in E. discriminate E.
Qed.

Lemma field_text_needs_work_witness :
  (let s := reached init sample_model_then_make in
   let s' := reached s [CharData "Nikon"] in
   WORK ∈ stack s ∧ ∃ w, newWork s = Some w ∧ newWork s' = Some w)
  ∧ (let s := reached init [StartElement "works" []; StartElement "id" []]
     in
     step s (CharData "7") = Exit1 OrphanID
     ∧ step s (CharData "x") = Exit1 WorkIDFormat).
Proof.
  split.
  - intros s s'.
    destruct (field_text_needs_work sample_model_then_make s "Nikon")
      as [H _]; [by vm_compute..|].
    apply (H s'). by vm_compute.
  - intros s. split.
    + destruct (field_text_needs_work
                  [StartElement "works" []; StartElement "id" []] s "7")
        as [_ H]; [by vm_compute..|].
      etrans; [apply H|]; by vm_compute.
    + destruct (field_text_needs_work
                  [StartElement "works" []; StartElement "id" []] s "x")
        as [_ H]; [by vm_compute..|].
      etrans; [apply H|]; by vm_compute.
Defined.

(** ** Panics *)

Lemma onCharData_no_panic s token : wf s → onCharData s token ≠ Panic.
Proof.
  intros Hwf. destruct (topIs MAKE s) eqn:Hmk.
  - destruct (newWork s) as [w|] eqn:Hw.
    + destruct (onCharData_make_open s token w Hwf Hmk Hw) as (s1 & _ & ->).
      done.
    + by rewrite onCharData_make_orphan.
  - unfold onCharData.
    destruct (if topIs ID s then onID s token else Ok s) as [s1| |] eqn:E1.
    + assert (stack s1 = stack s) as S1.
      { destruct (topIs ID s); [|by injection E1 as <-].
        by apply onID_frame in E1 as (-> & _). }
      cbn [mbind Outcome_bind].
      destruct (if topIs FILENAME s1 then onFilename s1 token else Ok s1)
        as [s2| |] eqn:E2.
      * assert (stack s2 = stack s1) as S2.
        { destruct (topIs FILENAME s1); [|by injection E2 as <-].
          by apply onFilename_frame in E2 as (-> & _). }
        cbn [mbind Outcome_bind].
        rewrite (topIs_stack MAKE s s2), Hmk by congruence. done.
      * done.
      * destruct (topIs FILENAME s1); [|done]. unfold onFilename in E2.
        by destruct (newWork s1).
    + done.
    + destruct (topIs ID s); [|done]. unfold onID in E1.
      destruct (GoLib.Atoi _); [|done]. by destruct (newWork s).
Qed.

(** X6. The one way the loop panics: the end-tag of a [work] element
    arrives when no work is open, which is what a [work] element nested in
    another leads to once the inner one is closed.  No other token, in no
    state the loop can be in, makes it panic. *)
Theorem panic_only_at_work_end
    (tokens : list Token) (s : State) (t : Token) :
  run init tokens = Ok s →
  step s t = Panic ↔
  (t = EndElement WORK ∧ last (stack s) = Some WORK ∧ newWork s = None).
Proof.
  intros Hrun. pose proof (reachable_wf _ _ Hrun) as Hwf. split.
  - destruct t as [name attr|name|text|]; cbn [step]; [done| | |done].
    + unfold onEndElement. destruct (last (stack s)) as [top|]; [|done].
      destruct (String.eqb top name) eqn:E1; [|done].
      apply String.eqb_eq in E1. subst top. cbn [negb].
      destruct (String.eqb name WORK) eqn:E2; [|done].
      apply String.eqb_eq in E2. subst name.
      unfold finishWork. cbn.
      destruct (newWork s) as [w|] eqn:Hw; [|done].
      destruct (works s !! w) eqn:Hwk; [done|].
      apply lookup_ge_None in Hwk. pose proof (wf_newWork _ Hwf _ Hw). lia.
    + intros H. by apply onCharData_no_panic in H.
  - intros (-> & Hl & Hw). cbn. unfold onEndElement. rewrite Hl.
    cbn. unfold finishWork. cbn. by rewrite Hw.
Qed.

Lemma panic_only_at_work_end_witness :
  let s := reached init [StartElement "work" []; StartElement "work" [];
                         EndElement "work"] in
  step s (EndElement WORK) = Panic ↔
  (EndElement WORK = EndElement WORK ∧ last (stack s) = Some WORK
   ∧ newWork s = None).
Proof.
  intros s.
  apply (panic_only_at_work_end
           [StartElement "work" []; StartElement "work" [];
            EndElement "work"] s (EndElement WORK)).
  by vm_compute.
Defined.

(** ** The URI flags *)

Lemma last_alter_last {A} (f : A → A) (l : list A) i :
  i = (length l - 1)%nat → last (alter f i l) = f <$> last l.
Proof.
  intros ->. destruct l as [|x l _] using rev_ind; [done|].
  rewrite length_app. cbn [length].
  replace (length l + 1 - 1)%nat with (length l + 0)%nat by lia.
  rewrite alter_app_r. cbn. by rewrite !last_snoc.
Qed.

Lemma onURI_last flag clear setField s token :
  (∀ s, works (clear s) = works s) →
  last (works (onURI flag clear setField s token))
  = (if flag s then setField (GoLib.TrimSpace token) else id)
      <$> last (works s).
Proof.
  intros Hc. unfold onURI. destruct (flag s).
  - rewrite Hc. destruct (works s) eqn:E; [by rewrite E|].
    rewrite <- E. cbn. by rewrite last_alter_last.
  - by destruct (last (works s)).
Qed.

Lemma onURI_keeps (g : State → bool) flag clear setField s token :
  (∀ s, g (clear s) = g s) → (∀ v s, g (set_works v s) = g s) →
  g (onURI flag clear setField s token) = g s.
Proof.
  intros Hc Hw. unfold onURI. destruct (flag s); [|done].
  rewrite Hc. destruct (works s); [done|]. by rewrite Hw.
Qed.

Lemma onURI_cleared flag clear setField s token :
  (∀ s, flag (clear s) = false) →
  flag (onURI flag clear setField s token) = false.
Proof.
  intros Hc. unfold onURI. destruct (flag s) eqn:E; [|done]. by rewrite Hc.
Qed.

(** The three blocks together: no flag is left up, and the last work gets
    the text in the fields whose flag was up. *)
Lemma uriBlocks_spec s token :
  flags (uriBlocks s token) = (false, false, false)
  ∧ last (works (uriBlocks s token))
    = (λ wk,
         (if largeURI s then Work_setURILarge (GoLib.TrimSpace token)
          else id)
           ((if mediumURI s then Work_setURIMedium (GoLib.TrimSpace token)
             else id)
              ((if thumbnailURI s
                then Work_setURISmall (GoLib.TrimSpace token) else id) wk)))
      <$> last (works s).
Proof.
  unfold uriBlocks.
  set (s1 := onURI thumbnailURI _ _ s token).
  set (s2 := onURI mediumURI _ _ s1 token).
  set (s3 := onURI largeURI _ _ s2 token).
  assert (thumbnailURI s1 = false) as T1 by (by apply onURI_cleared).
  assert (mediumURI s1 = mediumURI s) as M1 by (by apply onURI_keeps).
  assert (largeURI s1 = largeURI s) as L1 by (by apply onURI_keeps).
  assert (thumbnailURI s2 = false) as T2
    by (subst s2; by rewrite onURI_keeps).
  assert (mediumURI s2 = false) as M2 by (by apply onURI_cleared).
  assert (largeURI s2 = largeURI s) as L2
    by (subst s2; by rewrite onURI_keeps).
  assert (thumbnailURI s3 = false) as T3
    by (subst s3; by rewrite onURI_keeps).
  assert (mediumURI s3 = false) as M3
    by (subst s3; by rewrite onURI_keeps).
  assert (largeURI s3 = false) as L3 by (by apply onURI_cleared).
  split; [unfold flags; by rewrite T3, M3, L3|].
  subst s3. rewrite onURI_last by done. subst s2.
  rewrite onURI_last by done. subst s1. rewrite onURI_last by done.
  rewrite L2, M1. by destruct (last (works s)).
Qed.

Lemma resolveModel_flags s p s' :
  resolveModel s p = Ok s' → flags s' = flags s.
Proof.
  unfold resolveModel. destruct (works s) as [|w0 l] eqn:E; [done|].
  rewrite <- E. clear w0 l E.
  set (s1 := if String.eqb (newModel s) EmptyString then _ else s).
  assert (flags s1 = flags s) as <-
    by (subst s1; by destruct (String.eqb _ _)).
  clearbody s1. intros [= <-].
  destruct (match works s1 !! _ ≫= WMake with Some _ => _ | None => _ end)
    as [d|]; [done|].
  by destruct (works s1 !! _ ≫= WMake).
Qed.

Lemma onMake_flags s token s' :
  wf s → onMake s token = Ok s' → flags s' = flags s.
Proof.
  intros Hwf. unfold onMake.
  destruct (newWork s) as [w|] eqn:Hw;
    [|unfold resolveMake; by rewrite Hw].
  rewrite (resolveMake_open _ _ _ Hwf Hw).
  destruct (findMake _ _ _) as [p|]; cbn [mbind Outcome_bind];
    (destruct (newModelDetected _);
     [by intros ->%resolveModel_flags|by intros [= <-]]).
Qed.

(** A text, whatever it does before, ends in the three URI blocks, with
    the flags as they were when it arrived. *)
Lemma onCharData_ends_in_uriBlocks s token s' :
  wf s → onCharData s token = Ok s' →
  ∃ s0, s' = uriBlocks s0 token ∧ flags s0 = flags s.
Proof.
  intros Hwf E. destruct (topIs MAKE s) eqn:Hmk.
  - destruct (newWork s) as [w|] eqn:Hw;
      [|by rewrite onCharData_make_orphan in E].
    destruct (onCharData_make_open s token w Hwf Hmk Hw) as (s1 & E1 & E2).
    rewrite E2 in E. injection E as <-. exists s1. split; [done|].
    by eapply onMake_flags.
  - unfold onCharData in E.
    destruct (if topIs ID s then onID s token else Ok s) as [s1| |] eqn:E1;
      [|done|done].
    assert (flags s1 = flags s ∧ stack s1 = stack s) as [G1 S1].
    { destruct (topIs ID s); [|by injection E1 as <-].
      unfold onID in E1. destruct (GoLib.Atoi _); [|done].
      destruct (newWork s); [|done]. by injection E1 as <-. }
    cbn [mbind Outcome_bind] in E.
    destruct (if topIs FILENAME s1 then onFilename s1 token else Ok s1)
      as [s2| |] eqn:E2; [|done|done].
    assert (flags s2 = flags s ∧ stack s2 = stack s) as [G2 S2].
    { destruct (topIs FILENAME s1); [|injection E2 as <-; by split].
      unfold onFilename in E2. destruct (newWork s1); [|done].
      injection E2 as <-. by split. }
    cbn [mbind Outcome_bind] in E.
    rewrite (topIs_stack MAKE s s2 S2), Hmk in E.
    cbn [mbind Outcome_bind] in E. injection E as <-.
    eexists. split; [reflexivity|]. rewrite <- G2.
    by destruct (topIs MODEL s2).
Qed.

Lemma foldl_onAttr_flags attr s :
  flags (foldl onAttr s attr)
  = (thumbnailURI s || hasValue URISMALL attr,
     mediumURI s || hasValue URIMEDIUM attr,
     largeURI s || hasValue URILARGE attr).
Proof.
  revert s. induction attr as [|a attr IH]; intros s.
  - unfold flags. cbn. by rewrite !orb_false_r.
  - cbn [foldl hasValue existsb]. rewrite IH. unfold onAttr, hasValue.
    destruct (String.eqb (Attr_Value a) URISMALL),
      (String.eqb (Attr_Value a) URIMEDIUM),
      (String.eqb (Attr_Value a) URILARGE); cbn;
      by rewrite ?orb_true_r, ?orb_false_r.
Qed.

(** X7. The URI flags are one-shot.  The start-tag of a [url] element
    raises the flag of each of the values small, medium and large found
    among its attributes, and no other start-tag touches them; the next
    text that is accepted, under whatever element, puts its trimmed content
    in the matching URL fields of the last work started and leaves no flag
    up. *)
Theorem uri_flags_one_shot (tokens : list Token) (s : State) :
  run init tokens = Ok s →
  (∀ name attr s', step s (StartElement name attr) = Ok s' →
     flags s'
     = if String.eqb name "url" then
         (thumbnailURI s || hasValue URISMALL attr,
          mediumURI s || hasValue URIMEDIUM attr,
          largeURI s || hasValue URILARGE attr)
       else flags s)
  ∧ (∀ text s', step s (CharData text) = Ok s' →
       flags s' = (false, false, false)
       ∧ ∀ wk, last (works s') = Some wk →
           (thumbnailURI s = true → URISmall wk = GoLib.TrimSpace text)
           ∧ (mediumURI s = true → URIMedium wk = GoLib.TrimSpace text)
           ∧ (largeURI s = true → URILarge wk = GoLib.TrimSpace text)).
Proof.
  intros Hrun. pose proof (reachable_wf _ _ Hrun) as Hwf. split.
  - intros name attr s'. cbn [step]. unfold onStartElement. intros [= <-].
    match goal with |- context [if _ then foldl onAttr ?x attr else ?x] =>
      set (s1 := x) end.
    assert (flags s1 = flags s) as F1
      by (subst s1; by destruct (topIs WORK _)).
    assert (topIs "url" s1 = String.eqb name "url") as ->.
    { subst s1. unfold topIs.
      assert (∀ x, stack (if topIs WORK (set_stack (stack s ++ [name]) s)
                          then set_newWork x
                                 (set_works (works s ++ [createWork])
                                    (set_stack (stack s ++ [name]) s))
                          else set_stack (stack s ++ [name]) s)
                   = (stack s ++ [name])%list) as ->
        by (intros x; by destruct (topIs WORK _)).
      by rewrite last_snoc. }
    destruct (String.eqb name "url"); [|done].
    rewrite foldl_onAttr_flags. unfold flags in F1. by injection F1 as -> -> ->.
  - intros text s'. cbn [step]. intros E.
    destruct (onCharData_ends_in_uriBlocks _ _ _ Hwf E) as (s0 & -> & F).
    destruct (uriBlocks_spec s0 text) as [H1 H2]. split; [done|].
    intros wk. rewrite H2. unfold flags in F. injection F as <- <- <-.
    destruct (last (works s0)) as [wk0|]; [|done]. intros [= <-].
    by destruct (thumbnailURI s0), (mediumURI s0), (largeURI s0).
Qed.

Lemma uri_flags_one_shot_witness :
  let s := reached init [StartElement "work" []; StartElement "url" [small]]
  in
  let s' := reached s [CharData " a.jpg "] in
  flags s = (true, false, false)
  ∧ flags s' = (false, false, false)
  ∧ ∀ wk, last (works s') = Some wk →
      (thumbnailURI s = true → URISmall wk = GoLib.TrimSpace " a.jpg ")
      ∧ (mediumURI s = true → URIMedium wk = GoLib.TrimSpace " a.jpg ")
      ∧ (largeURI s = true → URILarge wk = GoLib.TrimSpace " a.jpg ").
Proof.
  intros s s'. split; [by vm_compute|].
  destruct (uri_flags_one_shot
              [StartElement "work" []; StartElement "url" [small]] s)
    as [_ H]; [by vm_compute|].
  apply (H " a.jpg " s'). by vm_compute.
Defined.

(** ** The images of the pages *)

Lemma silent_quiet a : quiet a = true → silent a.
Proof. intros H x. by apply occurrences_quiet. Qed.

Lemma silent_app a b : silent a → silent b → silent (a +:+ b).
Proof. intros Ha Hb x. by rewrite app_assoc_s, Ha, Hb. Qed.

Lemma silent_escape u : silent (GoLib.EscapeString u).
Proof. intros x. apply occurrences_escape. Qed.

Lemma silent_option url name : silent (Site.option_ url name).
Proof.
  unfold Site.option_.
  repeat first [apply silent_escape | apply silent_app
               | by apply silent_quiet].
Qed.

Lemma silent_foldl_options {A} (f : A → string) (l : list A) acc :
  (∀ a, silent (f a)) → silent acc →
  silent (foldl (λ nav a, nav +:+ f a) acc l).
Proof.
  intros Hf. revert acc. induction l as [|a l IH]; intros acc Hacc; [done|].
  cbn [foldl]. apply IH. by apply silent_app.
Qed.

Lemma silent_indexNavigation s : silent (Site.indexNavigation s).
Proof.
  unfold Site.indexNavigation. apply silent_app.
  - apply (silent_foldl_options
             (λ mk, Site.option_ (Make_PageURL mk) (Make_Name mk))).
    + intros mk. apply silent_option.
    + by apply silent_quiet.
  - destruct (worksSM s); by apply silent_quiet.
Qed.

Lemma silent_modelNavigation s mk : silent (Site.modelNavigation s mk).
Proof.
  unfold Site.modelNavigation. apply silent_app; [|by apply silent_quiet].
  apply (silent_foldl_options
           (λ md, Site.option_ (Model_PageURL md) (Model_Name md))).
  - intros md. apply silent_option.
  - by apply silent_quiet.
Qed.

Lemma silent_italic_open : silent "All photos taken with a <i>".
Proof. intros x. reflexivity. Qed.

Lemma occurrences_img wk x :
  occurrences "<img" (Site.img wk +:+ x) = S (occurrences "<img" x).
Proof.
  unfold Site.img. rewrite !app_assoc_s.
  change (occurrences "<img" ("<img src=" +:+ ?y))
    with (S (occurrences "<img" y)).
  by rewrite occurrences_escape, occurrences_quiet.
Qed.

(** A thumbnail loop writes one image for each work it keeps, and stops
    at the tenth. *)
Lemma occurrences_thumbs keep n l x :
  (n < 10)%nat →
  occurrences "<img" (Site.thumbs keep n l +:+ x)
  = (Nat.min (10 - n) (kept keep l) + occurrences "<img" x)%nat.
Proof.
  revert n. induction l as [|wk r IH]; intros n Hn.
  - cbn [Site.thumbs kept]. rewrite Nat.min_0_r. done.
  - cbn [Site.thumbs kept]. destruct (keep wk).
    + rewrite app_assoc_s, occurrences_img.
      destruct (10 <=? S n)%nat eqn:E.
      * apply Nat.leb_le in E. change (EmptyString +:+ x) with x. lia.
      * apply Nat.leb_gt in E. rewrite IH by lia. lia.
    + by rewrite IH.
Qed.

Lemma occurrences_page title heading nav content :
  silent title → silent heading → silent nav →
  occurrences "<img" (Site.page title heading nav content)
  = occurrences "<img" (content +:+ "</body></html>").
Proof.
  intros Ht Hh Hn. unfold Site.page.
  rewrite (occurrences_quiet "<!DOCTYPE html><html><head><title>")
    by reflexivity.
  rewrite Ht. rewrite (occurrences_quiet "</title><style type=") by reflexivity.
  rewrite (occurrences_quiet Site.q) by reflexivity.
  rewrite (occurrences_quiet "text/css") by reflexivity.
  rewrite (occurrences_quiet Site.q) by reflexivity.
  rewrite (occurrences_quiet ">nav { margin: 10px;") by reflexivity.
  rewrite (occurrences_quiet Site.tab) by reflexivity.
  rewrite (occurrences_quiet "}</style></head><body><header><h1>")
    by reflexivity.
  rewrite Hh. rewrite (occurrences_quiet "</h1><nav>") by reflexivity.
  rewrite Hn. by rewrite (occurrences_quiet "</nav></header>") by reflexivity.
Qed.

Lemma kept_all l : kept (λ _, true) l = length l.
Proof. induction l as [|wk r IH]; cbn; [done|by rewrite IH]. Qed.

Lemma silent_no_lt name :
  allChars (λ c, negb (Ascii.eqb c "<")) name = true → silent name.
Proof.
  intros H. apply silent_quiet. induction name as [|c r IH]; [done|].
  apply andb_true_iff in H as [Hc Hr]. cbn [quiet].
  apply negb_true_iff in Hc. rewrite Hc. by rewrite IH.
Qed.

(** X8. Every page shows at most ten images.  The index page shows one
    for each of the first ten works, with or without a URL; the page of a
    model shows one for each of the first ten works of the model whose make
    has the name of the make of the page; the page of a make does the same
    with the works of the make, as long as the name of the make, which goes
    into the heading as it is, holds no "<". *)
Theorem page_image_counts (s : State) (mk : Make) (md : Model) :
  occurrences "<img" (Site.indexPage s) = Nat.min 10 (length (works s))
  ∧ occurrences "<img" (Site.modelPage s mk md)
    = Nat.min 10 (kept (Site.ofMake s mk) (Site.deref s (Model_Works md)))
  ∧ (allChars (λ c, negb (Ascii.eqb c "<")) (Make_Name mk) = true →
     occurrences "<img" (Site.makePage s mk)
     = Nat.min 10 (kept (Site.ofMake s mk) (Site.deref s (Make_Works mk)))).
Proof.
  split_and!.
  - unfold Site.indexPage. rewrite occurrences_page.
    + rewrite occurrences_thumbs, kept_all by lia. cbn. lia.
    + by apply silent_quiet.
    + by apply silent_quiet.
    + apply silent_indexNavigation.
  - unfold Site.modelPage. rewrite occurrences_page.
    + rewrite occurrences_thumbs by lia. cbn. lia.
    + apply silent_app; [by apply silent_quiet|apply silent_escape].
    + apply silent_app; [apply silent_italic_open|].
      apply silent_app; [apply silent_escape|by apply silent_quiet].
    + unfold Site.backHome.
      repeat first [apply silent_escape | apply silent_app
                   | by apply silent_quiet].
  - intros Hname. unfold Site.makePage. rewrite occurrences_page.
    + rewrite occurrences_thumbs by lia. cbn. lia.
    + apply silent_app; [by apply silent_quiet|apply silent_escape].
    + apply silent_app; [apply silent_italic_open|].
      apply silent_app; [by apply silent_no_lt|by apply silent_quiet].
    + unfold Site.backHome.
      repeat first [apply silent_modelNavigation | apply silent_app
                   | by apply silent_quiet].
Qed.

(** ** The files of the site *)



Lemma bind_writePage_app (l1 l2 : list (string * string)) :
  ((l1 ++ l2)%list ≫= writePage)
  = ((l1 ≫= writePage) ++ (l2 ≫= writePage))%list.
Proof. apply bind_app. Qed.

(** The calls after the loop, page by page. *)
Lemma generate_segments out s :
  let P := λ pg : string * string,
             ∃ name, pg.1 = Site.outFile out (name +:+ ".html") in
  ∃ l0 l1 l2 l3,
    Site.genIndex out s = l0 ≫= writePage
    ∧ makes s ≫= Site.genMake out s = l1 ≫= writePage
    ∧ Site.genNoMake out s = l2 ≫= writePage
    ∧ makes s ≫= Site.genModels out s = l3 ≫= writePage
    ∧ Forall P l0 ∧ Forall P l1 ∧ Forall P l2 ∧ Forall P l3.
Proof.
  intros P.
  assert (∀ (A : Type) (f : A → list Site.FsOp) (g : A → string * string)
            (P : string * string → Prop) (l : list A),
            (∀ a, f a = writePage (g a)) → (∀ a, P (g a)) →
            ∃ l', l ≫= f = l' ≫= writePage ∧ Forall P l') as Hmap.
  { intros A f g P' l Hf HP. exists (g <$> l). split.
    - induction l as [|a l IH]; [done|]. cbn. by rewrite Hf, IH.
    - apply Forall_fmap, Forall_forall. intros a _. apply HP. }
  assert (∀ (A : Type) (f : A → list Site.FsOp)
            (P : string * string → Prop) (l : list A),
            (∀ a, ∃ la, f a = la ≫= writePage ∧ Forall P la) →
            ∃ l', l ≫= f = l' ≫= writePage ∧ Forall P l') as Hbind.
  { intros A f P' l Hf. induction l as [|a l (l' & E & F)].
    - by exists [].
    - destruct (Hf a) as (la & Ea & Fa). exists (la ++ l')%list. split.
      + cbn [mbind list_bind]. fold (l ≫= f).
        by rewrite Ea, E, bind_writePage_app.
      + by apply Forall_app. }
  assert (∃ l0, Site.genIndex out s = l0 ≫= writePage ∧ Forall P l0)
    as (l0 & E0 & F0).
  { exists [(Site.outFile out "index.html", Site.indexPage s)].
    split; [done|]. repeat constructor. by exists "index". }
  assert (∃ l1, makes s ≫= Site.genMake out s = l1 ≫= writePage
                ∧ Forall P l1) as (l1 & E1 & F1).
  { apply (Hmap _ _ (λ mk, (Site.outFile out (Make_PageURL mk +:+ ".html"),
                             Site.makePage s mk))); [done|].
    intros mk. by eexists. }
  assert (∃ l2, Site.genNoMake out s = l2 ≫= writePage ∧ Forall P l2)
    as (l2 & E2 & F2).
  { unfold Site.genNoMake. destruct (worksSM s); [by exists []|].
    apply (Hmap _ _ (λ wk, (Site.outFile out "nomake.html",
                             Site.nomakePage wk))); [done|].
    intros wk. by exists "nomake". }
  assert (∃ l3, makes s ≫= Site.genModels out s = l3 ≫= writePage
                ∧ Forall P l3) as (l3 & E3 & F3).
  { apply Hbind. intros mk. unfold Site.genModels.
    apply (Hmap _ _ (λ md, (Site.outFile out (Model_PageURL md +:+ ".html"),
                             Site.modelPage s mk md))); [done|].
    intros md. by eexists. }
  by exists l0, l1, l2, l3.
Qed.

(** All the calls of a run are a sequence of whole files. *)
Lemma generate_writePages out s :
  ∃ l, Site.generate out s = l ≫= writePage
       ∧ Forall (λ pg, ∃ name, pg.1 = Site.outFile out (name +:+ ".html")) l.
Proof.
  destruct (generate_segments out s)
    as (l0 & l1 & l2 & l3 & E0 & E1 & E2 & E3 & F0 & F1 & F2 & F3).
  exists (l0 ++ l1 ++ l2 ++ l3)%list. split.
  - unfold Site.generate. by rewrite E0, E1, E2, E3, !bind_writePage_app.
  - by rewrite !Forall_app.
Qed.



Lemma substring_all (a : string) : String.substring 0 (String.length a) a = a.
Proof. induction a as [|c a IH]; [done|]. cbn. by rewrite IH. Qed.

Lemma cutOf_refl pg : cutOf pg pg.
Proof.
  split; [done|]. exists (String.length pg.2). by rewrite substring_all.
Qed.









(** When the third file cannot be created, the run stops there with status
    1, and the two pages written before it stay. *)
Example site_cut_short :
  let run := main (failing_after 4) "out" sample_two_works EOF in
  run.1 = ExitFatal GenericPageCreate
  ∧ opPath <$> run.2
    = ["./out/index.html"; "./out/index.html"; "./out/Nikon.html";
       "./out/Nikon.html"].
Proof. by vm_compute. Qed.

(** ** What a make text does to the graph *)

Lemma findModel_None name heap l :
  findModel name heap l = None →
  ∀ d md, d ∈ l → heap !! d = Some md → Model_Name md ≠ name.
Proof.
  unfold findModel. induction l as [|x l IH] using rev_ind.
  - intros _ d md Hd. by apply elem_of_nil in Hd.
  - rewrite foldl_app. cbn [foldl]. intros H d md Hd Hmd.
    destruct (heap !! x) as [mx|] eqn:E.
    + destruct (String.eqb (Model_Name mx) name) eqn:En; [done|].
      apply elem_of_app in Hd as [Hd|Hd%list_elem_of_singleton].
      * by eapply IH.
      * subst x. rewrite Hmd in E. injection E as ->.
        by apply String.eqb_neq.
    + apply elem_of_app in Hd as [Hd|Hd%list_elem_of_singleton].
      * by eapply IH.
      * subst x. congruence.
Qed.

Lemma resolveModel_graph s p w mk :
  S w = length (works s) → workMake s w = Some p → makes s !! p = Some mk →
  ∃ s' d,
    resolveModel s p = Ok s'
    ∧ worksSM s' = worksSM s ∧ newWork s' = newWork s
    ∧ works s' = alter (Work_setWModel (Some d)) w (works s)
    ∧ (findModel (pendingName s) (models s) (Make_Models mk) = Some d
         ∧ makes s' = makes s ∧ models s' = models s
       ∨ findModel (pendingName s) (models s) (Make_Models mk) = None
         ∧ d = length (models s)
         ∧ models s'
           = (models s ++ [createModel (pendingName s) (Some p)])%list
         ∧ makes s' = alter (Make_addModel d) p (makes s)).
Proof.
  intros Hlen Hwm Hmk. unfold resolveModel.
  replace (length (works s) - 1)%nat with w by lia.
  destruct (works s) as [|w0 l] eqn:E; [done|]. rewrite <- E in *.
  clear w0 l E.
  set (s1 := if String.eqb (newModel s) EmptyString then _ else s).
  assert (E1 : makes s1 = makes s ∧ works s1 = works s
               ∧ models s1 = models s ∧ newModel s1 = pendingName s
               ∧ worksSM s1 = worksSM s ∧ newWork s1 = newWork s).
  { subst s1. unfold pendingName. by destruct (String.eqb _ _). }
  destruct E1 as (Em & Ew & Ed & En & Esm & Enw). clearbody s1.
  unfold workMake in Hwm. rewrite Ew, Hwm, Em, Hmk, Ed, En.
  destruct (findModel (pendingName s) (models s) (Make_Models mk))
    as [d|] eqn:Ef.
  - eexists _, d. split; [reflexivity|]. cbn.
    rewrite ?Em, ?Ed, ?Ew, ?Esm, ?Enw. split_and!; try done. by left.
  - eexists _, (length (models s)). split; [reflexivity|]. cbn.
    rewrite ?Em, ?Ed, ?Ew, ?Esm, ?Enw. split_and!; try done. by right.
Qed.

Lemma onMake_graph s token w :
  wf s → newWork s = Some w →
  ∃ s' p makes1 mk1,
    onMake s token = Ok s'
    ∧ (makes1 = makes s
       ∨ makes1 = (makes s ++ [createMake (makeName token)])%list
         ∧ makeName token ∉ names s)
    ∧ makes1 !! p = Some mk1 ∧ Make_Name mk1 = makeName token
    ∧ worksSM s' = worksSM s ∧ newWork s' = newWork s
    ∧ (newModelDetected s = false
         ∧ makes s' = makes1 ∧ models s' = models s
         ∧ works s' = alter (Work_setWMake (Some p)) w (works s)
       ∨ newModelDetected s = true
         ∧ ∃ d,
             works s' = alter (Work_setWModel (Some d)) w
                          (alter (Work_setWMake (Some p)) w (works s))
             ∧ (findModel (pendingName s) (models s) (Make_Models mk1)
                = Some d
                  ∧ makes s' = makes1 ∧ models s' = models s
                ∨ findModel (pendingName s) (models s) (Make_Models mk1)
                  = None
                  ∧ d = length (models s)
                  ∧ models s'
                    = (models s
                       ++ [createModel (pendingName s) (Some p)])%list
                  ∧ makes s' = alter (Make_addModel d) p makes1)).
Proof.
  intros Hwf Hw. pose proof (wf_newWork _ Hwf _ Hw) as Hlen.
  unfold onMake. rewrite (resolveMake_open _ _ _ Hwf Hw).
  set (n := makeName token).
  assert (∀ p, alter (Work_setWMake (Some p)) w (works s) !! w ≫= WMake
               = Some p) as Hlook.
  { intros p. rewrite list_lookup_alter_eq.
    destruct (works s !! w) eqn:E; [done|].
    apply lookup_ge_None in E. lia. }
  assert (∃ sM p makes1 mk1,
            match findMake n (makes s) 0%nat with
            | Some p =>
                Ok (set_works (alter (Work_setWMake (Some p)) w (works s)) s,
                    p)
            | None =>
                Ok (set_works (alter (Work_setWMake
                                        (Some (length (makes s)))) w
                                 (works s))
                      (set_makes (makes s ++ [createMake n]) s),
                    length (makes s))
            end = Ok (sM, p)
            ∧ (makes1 = makes s
               ∨ makes1 = (makes s ++ [createMake n])%list ∧ n ∉ names s)
            ∧ makes1 !! p = Some mk1 ∧ Make_Name mk1 = n
            ∧ makes sM = makes1 ∧ models sM = models s
            ∧ worksSM sM = worksSM s ∧ newWork sM = newWork s
            ∧ newModelDetected sM = newModelDetected s
            ∧ pendingName sM = pendingName s
            ∧ works sM = alter (Work_setWMake (Some p)) w (works s))
    as (sM & p & makes1 & mk1 & -> & Hm1 & Hp & Hn & EM & Emod & Esm & Enw
        & Efl & Epn & Ewk).
  { destruct (findMake n (makes s) 0%nat) as [p|] eqn:Ef.
    - pose proof (findMake_Some _ _ _ _ Ef) as (mk & Hmk & Hname & _).
      rewrite Nat.sub_0_r in Hmk.
      eexists _, p, (makes s), mk. split; [reflexivity|].
      split_and!; try done. by left.
    - eexists _, (length (makes s)), (makes s ++ [createMake n])%list,
        (createMake n).
      split; [reflexivity|]. split_and!; try done.
      + right. split; [done|]. by apply findMake_None in Ef.
      + by rewrite list_lookup_middle. }
  cbn [mbind Outcome_bind]. rewrite Efl.
  destruct (newModelDetected s) eqn:Hfl.
  - destruct (resolveModel_graph sM p w mk1)
      as (s' & d & -> & E1 & E2 & E3 & E4).
    { by rewrite Ewk, length_alter. }
    { unfold workMake. by rewrite Ewk, Hlook. }
    { by rewrite EM. }
    exists s', p, makes1, mk1.
    rewrite E1, E2, Esm, Enw. split_and!; try done. right. split; [done|].
    exists d. rewrite E3, Ewk. split; [done|].
    rewrite Epn, Emod, EM in E4. done.
  - exists sM, p, makes1, mk1. split_and!; try done. by left.
Qed.

(** What one turn of the loop does to the registries and the lists: the
    end of a [work] element lists the open work; a make text may add a make
    and a model; nothing else touches them. *)
Lemma step_graph_cases s t s' :
  wf s → step s t = Ok s' →
  (* The end of a work *)
  (∃ w wk, t = EndElement WORK ∧ newWork s = Some w
           ∧ works s !! w = Some wk ∧ newWork s' = None
           ∧ works s' = works s
           ∧ match WMake wk, WModel wk with
             | None, _ =>
                 worksSM s' = (worksSM s ++ [w])%list
                 ∧ makes s' = makes s ∧ models s' = models s
             | Some m, Some d =>
                 worksSM s' = worksSM s
                 ∧ makes s' = alter (Make_addWork w) m (makes s)
                 ∧ models s' = alter (Model_addWork w) d (models s)
             | Some m, None =>
                 worksSM s' = worksSM s
                 ∧ makes s' = makes s ∧ models s' = models s
             end)
  (* A make text *)
  ∨ (∃ text w p makes1 mk1,
       t = CharData text ∧ topIs MAKE s = true ∧ newWork s = Some w
       ∧ worksSM s' = worksSM s
       ∧ (makes1 = makes s
          ∨ makes1 = (makes s ++ [createMake (makeName text)])%list
            ∧ makeName text ∉ names s)
       ∧ makes1 !! p = Some mk1 ∧ Make_Name mk1 = makeName text
       ∧ workMake s' w = Some p
       ∧ (newModelDetected s = false
            ∧ makes s' = makes1 ∧ models s' = models s
          ∨ newModelDetected s = true
            ∧ ∃ d, workModel s' w = Some d
                ∧ (findModel (pendingName s) (models s) (Make_Models mk1)
                   = Some d
                     ∧ makes s' = makes1 ∧ models s' = models s
                   ∨ findModel (pendingName s) (models s)
                       (Make_Models mk1) = None
                     ∧ d = length (models s)
                     ∧ models s'
                       = (models s
                          ++ [createModel (pendingName s) (Some p)])%list
                     ∧ makes s' = alter (Make_addModel d) p makes1)))
  (* Anything else *)
  ∨ (worksSM s' = worksSM s ∧ makes s' = makes s ∧ models s' = models s).
Proof.
  intros Hwf. destruct t as [name attr|name|text|]; cbn [step].
  - intros (_ & ? & ? & ? & _)%onStartElement_shape. by right; right.
  - intros (_ & _ & [(-> & F)|(_ & ->)])%onEndElement_shape;
      [|by right; right].
    left. unfold finishWork in F. cbn in F.
    destruct (newWork s) as [w|] eqn:Hw; [|done].
    destruct (works s !! w) as [wk|] eqn:Hwk; [|done].
    exists w, wk. injection F as <-.
    destruct (WMake wk), (WModel wk); by split_and!.
  - intros E. destruct (topIs MAKE s) eqn:Hmk.
    + right; left. destruct (newWork s) as [w|] eqn:Hw;
        [|by rewrite onCharData_make_orphan in E].
      destruct (onCharData_make_open s text w Hwf Hmk Hw) as (s1 & E1 & E2).
      rewrite E2 in E. injection E as <-.
      destruct (onMake_graph s text w Hwf Hw)
        as (s1' & p & makes1 & mk1 & E1' & Hm1 & Hp & Hn & Esm & Enw & Hc).
      rewrite E1 in E1'. injection E1' as <-.
      pose proof (uriBlocks_frame s1 text) as F.
      pose proof (wf_newWork _ Hwf _ Hw) as Hlen.
      assert (∀ f g, alter f w (alter g w (works s)) !! w
                     = f <$> (g <$> works s !! w)) as Hl2
        by (intros; by rewrite !list_lookup_alter_eq).
      assert (is_Some (works s !! w)) as [wk Hwk]
        by (apply lookup_lt_is_Some; lia).
      exists text, w, p, makes1, mk1.
      rewrite (frame_workMake _ _ w F), (frame_workModel _ _ w F).
      pose proof F as (_ & -> & -> & -> & _).
      split_and!; try done.
      * destruct Hc as [(_ & _ & _ & Ew)|(_ & d & Ew & _)];
          unfold workMake; rewrite Ew.
        -- by rewrite list_lookup_alter_eq, Hwk.
        -- by rewrite Hl2, Hwk.
      * destruct Hc as [(? & ? & ? & _)|(? & d & Ew & Hd)]; [by left|].
        right. split; [done|]. exists d. split; [|done].
        unfold workModel. by rewrite Ew, Hl2, Hwk.
    + right; right. apply onCharData_other in E; [|done].
      by destruct E as (_ & ? & ? & ? & _).
  - intros [= <-]. by right; right.
Qed.

(** ** The lists of works *)

Lemma lookup_alter_cases {A} (f : A → A) i (l : list A) j y :
  alter f i l !! j = Some y →
  ∃ x, l !! j = Some x ∧ (j = i ∧ y = f x ∨ j ≠ i ∧ y = x).
Proof.
  destruct (decide (j = i)) as [->|Hne].
  - rewrite list_lookup_alter_eq. destruct (l !! i) as [x|]; [|done].
    intros [= <-]. exists x. auto.
  - rewrite list_lookup_alter_ne by done. intros H. exists y. auto.
Qed.

Lemma lookup_snoc_cases {A} (l : list A) c j y :
  (l ++ [c])%list !! j = Some y →
  l !! j = Some y ∨ j = length l ∧ y = c.
Proof.
  intros H. destruct (decide (j < length l)%nat) as [Hlt|Hge].
  - left. by rewrite lookup_app_l in H.
  - right. rewrite lookup_app_r in H by lia.
    destruct (j - length l)%nat as [|k] eqn:E; [|done].
    injection H as <-. split; [lia|done].
Qed.

(** A closed work keeps its make and its model, and stays closed. *)
Lemma closed_links_stable s t s' w :
  wf s → step s t = Ok s' → (w < length (works s))%nat →
  newWork s ≠ Some w →
  newWork s' ≠ Some w ∧ workMake s' w = workMake s w
  ∧ workModel s' w = workModel s w.
Proof.
  intros Hwf E Hlt Hc.
  destruct (lookup_lt_is_Some_2 _ _ Hlt) as [wk Hwk].
  destruct (closed_work_core_stable _ _ _ _ _ Hwf E Hwk Hc)
    as (wk' & Hwk' & (_ & _ & H1 & H2) & Hc' & _).
  unfold workMake, workModel. rewrite Hwk, Hwk'. by split_and!.
Qed.

Lemma lists_ok_init : lists_ok init.
Proof.
  split; cbn; [constructor|..]; intros *; done.
Qed.

Lemma workMake_lt s w m : workMake s w = Some m → (w < length (works s))%nat.
Proof.
  unfold workMake. destruct (works s !! w) eqn:E; [|done].
  intros _. by eapply lookup_lt_Some.
Qed.

Lemma workModel_lt s w d :
  workModel s w = Some d → (w < length (works s))%nat.
Proof.
  unfold workModel. destruct (works s !! w) eqn:E; [|done].
  intros _. by eapply lookup_lt_Some.
Qed.

(** The lists are kept right by a turn that does not end a work, given
    that it leaves the lists of every make and model as they were (a new
    make or model has an empty one). *)
Lemma lists_ok_same_lists s t s' :
  wf s → step s t = Ok s' → lists_ok s →
  worksSM s' = worksSM s →
  (∀ m mk', makes s' !! m = Some mk' →
     Make_Works mk' = []
     ∨ ∃ mk, makes s !! m = Some mk ∧ Make_Works mk' = Make_Works mk) →
  (∀ d md', models s' !! d = Some md' →
     Model_Works md' = []
     ∨ ∃ md, models s !! d = Some md ∧ Model_Works md' = Model_Works md) →
  lists_ok s'.
Proof.
  intros Hwf E [L1 L2 L3 L4] Hsm Hmk Hmd. split.
  - by rewrite Hsm.
  - intros w. rewrite Hsm. intros Hw. destruct (L2 w Hw) as [Hc Hn].
    destruct (closed_links_stable s t s' w Hwf E) as (? & -> & _);
      [by apply (wf_worksSM _ Hwf)|done|done].
  - intros m mk' Hm. destruct (Hmk m mk' Hm) as [->|(mk & Hmk0 & ->)].
    + split; [constructor|]. intros w Hw. by apply elem_of_nil in Hw.
    + destruct (L3 m mk Hmk0) as [Hnd Hl]. split; [done|].
      intros w Hw. destruct (Hl w Hw) as (Hc & Hwm & Hwd).
      destruct (closed_links_stable s t s' w Hwf E) as (? & -> & ->);
        [by eapply workMake_lt|done|done].
  - intros d md' Hd. destruct (Hmd d md' Hd) as [->|(md & Hmd0 & ->)].
    + split; [constructor|]. intros w Hw. by apply elem_of_nil in Hw.
    + destruct (L4 d md Hmd0) as [Hnd Hl]. split; [done|].
      intros w Hw. destruct (Hl w Hw) as (Hc & Hwd).
      destruct (closed_links_stable s t s' w Hwf E) as (? & _ & ->);
        [by eapply workModel_lt|done|done].
Qed.

Lemma step_lists_ok s t s' :
  wf s → step s t = Ok s' → lists_ok s → lists_ok s'.
Proof.
  intros Hwf E L.
  destruct (step_graph_cases _ _ _ Hwf E)
    as [(w & wk & -> & Hw & Hwk & Hnw & Ew & Hcase)
       |[(text & w & p & makes1 & mk1 & -> & Htop & Hw & Esm & Hm1 & Hp & Hn
          & Hwm & Hcase)
        |(Esm & Emk & Emd)]].
  - (* the end of a work *)
    destruct L as [L1 L2 L3 L4].
    assert (∀ w', workMake s' w' = workMake s w'
                  ∧ workModel s' w' = workModel s w') as Hsame
      by (intros w'; unfold workMake, workModel; by rewrite Ew).
    assert (∀ l : list nat,
              (∀ w', w' ∈ l → newWork s ≠ Some w') → w ∉ l) as Hfresh
      by (intros l Hl Hin; exact (Hl w Hin Hw)).
    assert (workMake s w = WMake wk ∧ workModel s w = WModel wk)
      as [Hwmk Hwmd] by (unfold workMake, workModel; by rewrite Hwk).
    destruct (WMake wk) as [m|] eqn:Emake;
      [destruct (WModel wk) as [d|] eqn:Emodel|];
      destruct Hcase as (Esm & Emk & Emd).
    + split.
      * by rewrite Esm.
      * intros w'. rewrite Esm, Hnw, (proj1 (Hsame w')).
        intros Hin. split; [done|]. by apply L2.
      * intros m' mk'. rewrite Emk.
        intros (mk & Hmk & [(-> & ->)|(Hne & ->)])%lookup_alter_cases.
        -- destruct (L3 m mk Hmk) as [Hnd Hl]. cbn. split.
           ++ apply NoDup_app. split_and!; [done| |apply NoDup_singleton].
              intros x Hx ->%list_elem_of_singleton.
              by apply (Hfresh (Make_Works mk) (λ w' H, proj1 (Hl w' H))).
           ++ intros w' [Hin| ->%list_elem_of_singleton]%elem_of_app;
                rewrite Hnw, (proj1 (Hsame _)), (proj2 (Hsame _)).
              ** split; [done|]. by apply Hl.
              ** by rewrite Hwmk, Hwmd.
        -- destruct (L3 m' mk Hmk) as [Hnd Hl]. split; [done|].
           intros w' Hin.
           rewrite Hnw, (proj1 (Hsame _)), (proj2 (Hsame _)).
           split; [done|]. by apply Hl.
      * intros d' md'. rewrite Emd.
        intros (md & Hmd & [(-> & ->)|(Hne & ->)])%lookup_alter_cases.
        -- destruct (L4 d md Hmd) as [Hnd Hl]. cbn. split.
           ++ apply NoDup_app. split_and!; [done| |apply NoDup_singleton].
              intros x Hx ->%list_elem_of_singleton.
              by apply (Hfresh (Model_Works md) (λ w' H, proj1 (Hl w' H))).
           ++ intros w' [Hin| ->%list_elem_of_singleton]%elem_of_app;
                rewrite Hnw, (proj2 (Hsame _)).
              ** split; [done|]. by apply Hl.
              ** by rewrite Hwmd.
        -- destruct (L4 d' md Hmd) as [Hnd Hl]. split; [done|].
           intros w' Hin. rewrite Hnw, (proj2 (Hsame _)).
           split; [done|]. by apply Hl.
    + split.
      * by rewrite Esm.
      * intros w'. rewrite Esm, Hnw, (proj1 (Hsame w')).
        intros Hin. split; [done|]. by apply L2.
      * intros m' mk'. rewrite Emk. intros Hmk.
        destruct (L3 m' mk' Hmk) as [Hnd Hl]. split; [done|].
        intros w' Hin. rewrite Hnw, (proj1 (Hsame _)), (proj2 (Hsame _)).
        split; [done|]. by apply Hl.
      * intros d' md'. rewrite Emd. intros Hmd.
        destruct (L4 d' md' Hmd) as [Hnd Hl]. split; [done|].
        intros w' Hin. rewrite Hnw, (proj2 (Hsame _)).
        split; [done|]. by apply Hl.
    + split.
      * rewrite Esm. apply NoDup_app. split_and!; [done| |apply NoDup_singleton].
        intros x Hx ->%list_elem_of_singleton.
        by apply (Hfresh (worksSM s) (λ w' H, proj1 (L2 w' H))).
      * intros w'. rewrite Esm, Hnw, (proj1 (Hsame w')).
        intros [Hin| ->%list_elem_of_singleton]%elem_of_app.
        -- split; [done|]. by apply L2.
        -- by rewrite Hwmk.
      * intros m' mk'. rewrite Emk. intros Hmk.
        destruct (L3 m' mk' Hmk) as [Hnd Hl]. split; [done|].
        intros w' Hin. rewrite Hnw, (proj1 (Hsame _)), (proj2 (Hsame _)).
        split; [done|]. by apply Hl.
      * intros d' md'. rewrite Emd. intros Hmd.
        destruct (L4 d' md' Hmd) as [Hnd Hl]. split; [done|].
        intros w' Hin. rewrite Hnw, (proj2 (Hsame _)).
        split; [done|]. by apply Hl.
  - (* a make text *)
    apply (lists_ok_same_lists s (CharData text) s'); try done.
    + assert (∀ m mk', makes1 !! m = Some mk' →
                Make_Works mk' = []
                ∨ ∃ mk, makes s !! m = Some mk
                        ∧ Make_Works mk' = Make_Works mk) as H1.
      { intros m mk' Hm. destruct Hm1 as [->|[-> _]]; [right; eauto|].
        apply lookup_snoc_cases in Hm as [Hm|[_ ->]]; [right; eauto|].
        by left. }
      intros m mk'.
      destruct Hcase as [(_ & -> & _)|(_ & d & _ & [(_ & -> & _)
                                                   |(_ & _ & _ & ->)])];
        [apply H1|apply H1|].
      intros (mk & Hmk & [(-> & ->)|(Hne & ->)])%lookup_alter_cases;
        exact (H1 _ _ Hmk).
    + intros d' md'.
      destruct Hcase as [(_ & _ & ->)|(_ & d & _ & [(_ & _ & ->)
                                                   |(_ & _ & -> & _)])];
        [right; eauto|right; eauto|].
      intros [Hmd|[_ ->]]%lookup_snoc_cases; [right; eauto|by left].
  - (* anything else *)
    apply (lists_ok_same_lists s t s'); try done.
    + intros m mk'. rewrite Emk. right; eauto.
    + intros d md'. rewrite Emd. right; eauto.
Qed.

Lemma run_lists_ok ts s s' :
  wf s → lists_ok s → run s ts = Ok s' → lists_ok s'.
Proof.
  revert s. induction ts as [|t ts IH]; intros s Hwf L; cbn [run].
  - by intros [= <-].
  - destruct (step s t) as [s1| |] eqn:E; [|done|done].
    cbn [mbind Outcome_bind].
    apply IH; [by eapply step_wf|by eapply step_lists_ok].
Qed.

(** X10. After any run, no work is listed twice: the list of the works
    without a make and the lists of works of the makes hold no work twice
    and have no work in common.  A work in the list of a make points to that
    make and has a model; a work in the list of a model points to that
    model; a work in the list of the works without a make has no make. *)
Theorem lists_sound (tokens : list Token) (s : State) :
  run init tokens = Ok s →
  NoDup (worksSM s)
  ∧ (∀ w, w ∈ worksSM s → workMake s w = None)
  ∧ (∀ m mk, makes s !! m = Some mk →
       NoDup (Make_Works mk)
       ∧ (∀ w, w ∈ Make_Works mk →
               workMake s w = Some m ∧ is_Some (workModel s w)
               ∧ w ∉ worksSM s)
       ∧ ∀ m' mk' w, makes s !! m' = Some mk' → w ∈ Make_Works mk →
                     w ∈ Make_Works mk' → m' = m)
  ∧ (∀ d md, models s !! d = Some md →
       NoDup (Model_Works md)
       ∧ ∀ w, w ∈ Model_Works md → workModel s w = Some d).
Proof.
  intros Hrun.
  destruct (run_lists_ok tokens init s wf_init lists_ok_init Hrun)
    as [L1 L2 L3 L4].
  split_and!; [done|by intros w Hw; apply L2| |].
  - intros m mk Hmk. destruct (L3 m mk Hmk) as [Hnd Hl]. split_and!; [done| |].
    + intros w Hw. destruct (Hl w Hw) as (_ & Hwm & Hwd).
      split_and!; [done|done|]. intros Hsm.
      destruct (L2 w Hsm) as [_ Hnone]. congruence.
    + intros m' mk' w Hmk' Hw Hw'.
      destruct (Hl w Hw) as (_ & Hwm & _).
      destruct (L3 m' mk' Hmk') as [_ Hl'].
      destruct (Hl' w Hw') as (_ & Hwm' & _). congruence.
  - intros d md Hmd. destruct (L4 d md Hmd) as [Hnd Hl]. split; [done|].
    intros w Hw. by apply Hl.
Qed.

Lemma lists_sound_witness :
  let s := reached init sample_two_works in
  NoDup (worksSM s)
  ∧ (∀ w, w ∈ worksSM s → workMake s w = None)
  ∧ (∀ m mk, makes s !! m = Some mk →
       NoDup (Make_Works mk)
       ∧ (∀ w, w ∈ Make_Works mk →
               workMake s w = Some m ∧ is_Some (workModel s w)
               ∧ w ∉ worksSM s)
       ∧ ∀ m' mk' w, makes s !! m' = Some mk' → w ∈ Make_Works mk →
                     w ∈ Make_Works mk' → m' = m)
  ∧ (∀ d md, models s !! d = Some md →
       NoDup (Model_Works md)
       ∧ ∀ w, w ∈ Model_Works md → workModel s w = Some d).
Proof.
  intros s. apply (lists_sound sample_two_works s). by vm_compute.
Defined.

(** ** The registries of makes and models *)

Lemma makeName_nonempty text : makeName text ≠ EmptyString.
Proof.
  unfold makeName. cbn zeta.
  destruct (String.eqb (GoLib.TrimSpace text) EmptyString) eqn:E; [done|].
  by apply String.eqb_neq.
Qed.

Lemma pendingName_nonempty s : pendingName s ≠ EmptyString.
Proof.
  unfold pendingName.
  destruct (String.eqb (newModel s) EmptyString) eqn:E; [done|].
  by apply String.eqb_neq.
Qed.

Lemma registry_of_nil : registry_of [] [].
Proof. split; intros *; done. Qed.

(** The lists of works are no part of it. *)
Lemma registry_of_core mks mds mks' mds' :
  makeCore <$> mks' = makeCore <$> mks →
  modelCore <$> mds' = modelCore <$> mds →
  registry_of mks mds → registry_of mks' mds'.
Proof.
  intros Hmk Hmd.
  assert (∀ (a b : list Make) m x, makeCore <$> a = makeCore <$> b →
            a !! m = Some x →
            ∃ y, b !! m = Some y ∧ Make_Name y = Make_Name x
                 ∧ Make_PageURL y = Make_PageURL x
                 ∧ Make_Models y = Make_Models x) as Tmk.
  { intros a b m x Hab Hx.
    assert ((makeCore <$> b) !! m = Some (makeCore x)) as H
      by (by rewrite <- Hab, list_lookup_fmap, Hx).
    rewrite list_lookup_fmap in H.
    destruct (b !! m) as [y|]; [|done]. injection H as H1 H2 H3.
    exists y. by split_and!. }
  assert (∀ (a b : list Model) d x, modelCore <$> a = modelCore <$> b →
            a !! d = Some x →
            ∃ y, b !! d = Some y ∧ Model_Name y = Model_Name x
                 ∧ Model_PageURL y = Model_PageURL x
                 ∧ MMake y = MMake x) as Tmd.
  { intros a b d x Hab Hx.
    assert ((modelCore <$> b) !! d = Some (modelCore x)) as H
      by (by rewrite <- Hab, list_lookup_fmap, Hx).
    rewrite list_lookup_fmap in H.
    destruct (b !! d) as [y|]; [|done]. injection H as H1 H2 H3.
    exists y. by split_and!. }
  intros [R1 R2 R3]. split.
  - intros m mk' Hm.
    destruct (Tmk _ _ _ _ Hmk Hm) as (mk & Hm0 & <- & <- & <-).
    destruct (R1 m mk Hm0) as (H1 & H2 & H3 & H4). split_and!; try done.
    intros d Hd. destruct (H4 d Hd) as (md & Hd0 & Hmm).
    destruct (Tmd _ _ _ _ (eq_sym Hmd) Hd0) as (md' & Hd' & _ & _ & E).
    exists md'. split; [done|]. by rewrite E.
  - intros d md' Hd.
    destruct (Tmd _ _ _ _ Hmd Hd) as (md & Hd0 & <- & <- & <-).
    destruct (R2 d md Hd0) as (H1 & H2 & m & mk & H3 & H4 & H5).
    split_and!; try done.
    destruct (Tmk _ _ _ _ (eq_sym Hmk) H4) as (mk' & Hm' & _ & _ & E).
    exists m, mk'. split_and!; try done. by rewrite E.
  - intros m mk' d1 d2 md1' md2' Hm Hd1 Hd2 Hmd1 Hmd2 Hn.
    destruct (Tmk _ _ _ _ Hmk Hm) as (mk & Hm0 & _ & _ & E).
    destruct (Tmd _ _ _ _ Hmd Hmd1) as (md1 & Hmd1' & E1 & _).
    destruct (Tmd _ _ _ _ Hmd Hmd2) as (md2 & Hmd2' & E2 & _).
    apply (R3 m mk d1 d2 md1 md2); try done; try by rewrite E.
    by rewrite E1, E2.
Qed.

(** A new make, as [createMake] gives it, joins the makes. *)
Lemma registry_of_new_make mks mds n :
  n ≠ EmptyString → registry_of mks mds →
  registry_of (mks ++ [createMake n]) mds.
Proof.
  intros Hn [R1 R2 R3]. split.
  - intros m mk [Hm|[-> ->]]%lookup_snoc_cases; [by apply R1|].
    cbn. split_and!; [done|done|constructor|].
    intros d Hd. by apply elem_of_nil in Hd.
  - intros d md Hd.
    destruct (R2 d md Hd) as (H1 & H2 & m & mk & H3 & H4 & H5).
    split_and!; try done. exists m, mk. split_and!; try done.
    by apply lookup_app_l_Some.
  - intros m mk d1 d2 md1 md2 [Hm|[-> ->]]%lookup_snoc_cases.
    + by apply (R3 m mk).
    + intros Hd. by apply elem_of_nil in Hd.
Qed.

(** A new model, as [createModel] gives it, joins the models and the list
    of its make, which had no model of that name. *)
Lemma registry_of_new_model mks mds p mk1 pn :
  pn ≠ EmptyString → mks !! p = Some mk1 →
  findModel pn mds (Make_Models mk1) = None →
  registry_of mks mds →
  registry_of (alter (Make_addModel (length mds)) p mks)
    (mds ++ [createModel pn (Some p)]).
Proof.
  intros Hpn Hp Hfind [R1 R2 R3].
  pose proof (findModel_None _ _ _ Hfind) as Hnone.
  assert (∀ m mk d, mks !! m = Some mk → d ∈ Make_Models mk →
            (d < length mds)%nat) as Hlt.
  { intros m mk d Hm Hd. destruct (R1 m mk Hm) as (_ & _ & _ & H).
    destruct (H d Hd) as (md & Hmd & _). by eapply lookup_lt_Some. }
  assert (∀ m mk d md, mks !! m = Some mk → d ∈ Make_Models mk →
            (mds ++ [createModel pn (Some p)])%list !! d = Some md →
            mds !! d = Some md) as Hold.
  { intros m mk d md Hm Hd Hmd. rewrite lookup_app_l in Hmd; [done|].
    by eapply Hlt. }
  assert ((mds ++ [createModel pn (Some p)])%list !! length mds
          = Some (createModel pn (Some p))) as Hnew.
  { rewrite lookup_app_r by lia. by rewrite Nat.sub_diag. }
  split.
  - intros m mk' (mk & Hm & [(-> & ->)|(Hne & ->)])%lookup_alter_cases.
    + destruct (R1 p mk Hm) as (H1 & H2 & H3 & H4). cbn.
      split_and!; [done|done| |].
      * apply NoDup_app. split_and!; [done| |apply NoDup_singleton].
        intros d Hd ->%list_elem_of_singleton.
        pose proof (Hlt p mk _ Hm Hd). lia.
      * intros d [Hd| ->%list_elem_of_singleton]%elem_of_app.
        -- destruct (H4 d Hd) as (md & Hmd & Hmm). exists md.
           split; [by apply lookup_app_l_Some|done].
        -- by exists (createModel pn (Some p)).
    + destruct (R1 m mk Hm) as (H1 & H2 & H3 & H4).
      split_and!; [done|done|done|].
      intros d Hd. destruct (H4 d Hd) as (md & Hmd & Hmm). exists md.
      split; [by apply lookup_app_l_Some|done].
  - assert (∀ m mk d, mks !! m = Some mk → d ∈ Make_Models mk →
              ∃ mk', alter (Make_addModel (length mds)) p mks !! m = Some mk'
                     ∧ d ∈ Make_Models mk') as Hkeep.
    { intros m mk d Hm Hd. destruct (decide (m = p)) as [->|Hne].
      - exists (Make_addModel (length mds) mk).
        rewrite list_lookup_alter_eq, Hm. split; [done|].
        cbn. apply elem_of_app. by left.
      - exists mk. by rewrite list_lookup_alter_ne. }
    intros d md [Hd|[-> ->]]%lookup_snoc_cases.
    + destruct (R2 d md Hd) as (H1 & H2 & m & mk & H3 & H4 & H5).
      split_and!; [done|done|].
      destruct (Hkeep m mk d H4 H5) as (mk' & Hm' & Hd').
      by exists m, mk'.
    + cbn. split_and!; [done|done|].
      exists p, (Make_addModel (length mds) mk1).
      rewrite list_lookup_alter_eq, Hp. split_and!; [done|done|].
      cbn. apply elem_of_app. right. by apply list_elem_of_singleton.
  - intros m mk' d1 d2 md1 md2
      (mk & Hm & [(-> & ->)|(Hne & ->)])%lookup_alter_cases.
    + assert (mk = mk1) as -> by congruence. cbn.
      intros [Hd1| ->%list_elem_of_singleton]%elem_of_app
             [Hd2| ->%list_elem_of_singleton]%elem_of_app Hmd1 Hmd2 Hnm.
      * apply (R3 p mk1 d1 d2 md1 md2); try done; by eapply Hold.
      * rewrite Hnew in Hmd2. injection Hmd2 as <-. cbn in Hnm.
        by destruct (Hnone d1 md1 Hd1 (Hold _ _ _ _ Hm Hd1 Hmd1)).
      * rewrite Hnew in Hmd1. injection Hmd1 as <-. cbn in Hnm.
        by destruct (Hnone d2 md2 Hd2 (Hold _ _ _ _ Hm Hd2 Hmd2)).
      * done.
    + intros Hd1 Hd2 Hmd1 Hmd2.
      apply (R3 m mk d1 d2 md1 md2); try done; by eapply Hold.
Qed.

Lemma step_registry_ok s t s' :
  wf s → step s t = Ok s' → registry_ok s → registry_ok s'.
Proof.
  unfold registry_ok. intros Hwf E R.
  destruct (step_graph_cases _ _ _ Hwf E)
    as [(w & wk & _ & _ & _ & _ & _ & Hcase)
       |[(text & w & p & makes1 & mk1 & _ & _ & _ & _ & Hm1 & Hp & _
          & _ & Hcase)
        |(_ & -> & ->)]]; [| |done].
  - destruct (WMake wk) as [m|]; [destruct (WModel wk) as [d|]|];
      destruct Hcase as (_ & -> & ->); try done.
    revert R. apply registry_of_core; by apply fmap_alter_same.
  - assert (registry_of makes1 (models s)) as R1.
    { destruct Hm1 as [->|[-> _]]; [done|].
      apply registry_of_new_make; [apply makeName_nonempty|done]. }
    destruct Hcase as [(_ & -> & ->)|(_ & d & _ & [(_ & -> & ->)
                                                  |(Hf & -> & -> & ->)])];
      [done|done|].
    by apply (registry_of_new_model makes1 (models s) p mk1);
      [apply pendingName_nonempty|..].
Qed.

Lemma run_registry_ok ts s s' :
  wf s → registry_ok s → run s ts = Ok s' → registry_ok s'.
Proof.
  revert s. induction ts as [|t ts IH]; intros s Hwf R; cbn [run].
  - by intros [= <-].
  - destruct (step s t) as [s1| |] eqn:E; [|done|done].
    cbn [mbind Outcome_bind].
    apply IH; [by eapply step_wf|by eapply step_registry_ok].
Qed.

(** X11. After any run, makes and models are interned: no two makes have
    the same name, and no two models in the list of one make have the same
    name.  Names are never empty, every page name is the slug of the name,
    and a model is in the list of exactly the make it points back to. *)
Theorem registries_interned (tokens : list Token) (s : State) :
  run init tokens = Ok s →
  (∀ m1 m2 mk1 mk2, makes s !! m1 = Some mk1 → makes s !! m2 = Some mk2 →
     Make_Name mk1 = Make_Name mk2 → m1 = m2)
  ∧ (∀ m mk, makes s !! m = Some mk →
       Make_Name mk ≠ EmptyString ∧ Make_PageURL mk = slug (Make_Name mk)
       ∧ NoDup (Make_Models mk)
       ∧ ∀ d1 d2 md1 md2, d1 ∈ Make_Models mk → d2 ∈ Make_Models mk →
           models s !! d1 = Some md1 → models s !! d2 = Some md2 →
           Model_Name md1 = Model_Name md2 → d1 = d2)
  ∧ (∀ d md, models s !! d = Some md →
       Model_Name md ≠ EmptyString
       ∧ Model_PageURL md = slug (Model_Name md)
       ∧ ∃ m mk, MMake md = Some m ∧ makes s !! m = Some mk
           ∧ d ∈ Make_Models mk
           ∧ ∀ m' mk', makes s !! m' = Some mk' → d ∈ Make_Models mk' →
                       m' = m).
Proof.
  intros Hrun. pose proof (reachable_wf _ _ Hrun) as Hwf.
  destruct (run_registry_ok tokens init s wf_init registry_of_nil Hrun)
    as [R1 R2 R3].
  split_and!.
  - intros m1 m2 mk1 mk2 H1 H2 Hn.
    apply (NoDup_lookup (names s) m1 m2 (Make_Name mk1));
      [apply (wf_names _ Hwf)| |];
      unfold names; rewrite list_lookup_fmap.
    + by rewrite H1.
    + by rewrite H2, Hn.
  - intros m mk Hm. destruct (R1 m mk Hm) as (H1 & H2 & H3 & _).
    split_and!; [done|done|done|].
    intros d1 d2 md1 md2. by apply (R3 m mk).
  - intros d md Hd. destruct (R2 d md Hd) as (H1 & H2 & m & mk & H3 & H4 & H5).
    split_and!; [done|done|]. exists m, mk. split_and!; [done|done|done|].
    intros m' mk' Hm' Hd'. destruct (R1 m' mk' Hm') as (_ & _ & _ & H).
    destruct (H d Hd') as (md' & Hmd' & Hmm). congruence.
Qed.

Lemma registries_interned_witness :
  let s := reached init sample_two_works in
  (∀ m1 m2 mk1 mk2, makes s !! m1 = Some mk1 → makes s !! m2 = Some mk2 →
     Make_Name mk1 = Make_Name mk2 → m1 = m2)
  ∧ (∀ m mk, makes s !! m = Some mk →
       Make_Name mk ≠ EmptyString ∧ Make_PageURL mk = slug (Make_Name mk)
       ∧ NoDup (Make_Models mk)
       ∧ ∀ d1 d2 md1 md2, d1 ∈ Make_Models mk → d2 ∈ Make_Models mk →
           models s !! d1 = Some md1 → models s !! d2 = Some md2 →
           Model_Name md1 = Model_Name md2 → d1 = d2)
  ∧ (∀ d md, models s !! d = Some md →
       Model_Name md ≠ EmptyString
       ∧ Model_PageURL md = slug (Model_Name md)
       ∧ ∃ m mk, MMake md = Some m ∧ makes s !! m = Some mk
           ∧ d ∈ Make_Models mk
           ∧ ∀ m' mk', makes s !! m' = Some mk' → d ∈ Make_Models mk' →
                       m' = m).
Proof.
  intros s. apply (registries_interned sample_two_works s). by vm_compute.
Defined.

(** ** How the graph grows *)

Lemma makeGrows_refl mk : makeGrows mk mk.
Proof. by repeat split. Qed.

Lemma modelGrows_refl md : modelGrows md md.
Proof. by repeat split. Qed.

Lemma makeGrows_trans a b c : makeGrows a b → makeGrows b c → makeGrows a c.
Proof.
  intros (A1 & A2 & A3 & A4) (B1 & B2 & B3 & B4).
  split_and!; [congruence|congruence|by etrans|by etrans].
Qed.

Lemma modelGrows_trans a b c :
  modelGrows a b → modelGrows b c → modelGrows a c.
Proof.
  intros (A1 & A2 & A3 & A4) (B1 & B2 & B3 & B4).
  split_and!; [congruence|congruence|congruence|by etrans].
Qed.

Lemma alter_related {A} (R : A → A → Prop) (f : A → A) p (l : list A) :
  (∀ x, R x x) → (∀ x, R x (f x)) →
  ∀ m x, l !! m = Some x → ∃ y, alter f p l !! m = Some y ∧ R x y.
Proof.
  intros Hr Hf m x Hm. destruct (decide (m = p)) as [->|Hne].
  - exists (f x). by rewrite list_lookup_alter_eq, Hm.
  - exists x. by rewrite list_lookup_alter_ne.
Qed.

Lemma snoc_related {A} (R : A → A → Prop) (c : A) (l : list A) :
  (∀ x, R x x) →
  ∀ m x, l !! m = Some x → ∃ y, (l ++ [c])%list !! m = Some y ∧ R x y.
Proof.
  intros Hr m x Hm. exists x. split; [by apply lookup_app_l_Some|done].
Qed.

Lemma grows_refl s : grows s s.
Proof.
  split_and!; [done|done| |].
  - intros m mk Hm. exists mk. split; [done|apply makeGrows_refl].
  - intros d md Hd. exists md. split; [done|apply modelGrows_refl].
Qed.

Lemma grows_trans a b c : grows a b → grows b c → grows a c.
Proof.
  intros (A1 & A2 & A3 & A4) (B1 & B2 & B3 & B4).
  split_and!; [lia|by etrans| |].
  - intros m mk Hm. destruct (A3 m mk Hm) as (mk1 & Hm1 & G1).
    destruct (B3 m mk1 Hm1) as (mk2 & Hm2 & G2).
    exists mk2. split; [done|by eapply makeGrows_trans].
  - intros d md Hd. destruct (A4 d md Hd) as (md1 & Hd1 & G1).
    destruct (B4 d md1 Hd1) as (md2 & Hd2 & G2).
    exists md2. split; [done|by eapply modelGrows_trans].
Qed.

Lemma step_grows s t s' : wf s → step s t = Ok s' → grows s s'.
Proof.
  intros Hwf E.
  assert (length (works s) ≤ length (works s'))%nat as Hlen
    by (rewrite (step_works_length _ _ _ Hwf E); lia).
  assert (∀ w (mk : Make), makeGrows mk (Make_addWork w mk)) as Gw
    by (intros w mk; split_and!; [done|done|done|by apply prefix_app_r]).
  assert (∀ d (mk : Make), makeGrows mk (Make_addModel d mk)) as Gd
    by (intros d mk; split_and!; [done|done|by apply prefix_app_r|done]).
  assert (∀ w (md : Model), modelGrows md (Model_addWork w md)) as Gm
    by (intros w md; split_and!; [done|done|done|by apply prefix_app_r]).
  destruct (step_graph_cases _ _ _ Hwf E)
    as [(w & wk & _ & _ & _ & _ & _ & Hcase)
       |[(text & w & p & makes1 & mk1 & _ & _ & _ & Esm & Hm1 & _ & _
          & _ & Hcase)
        |(Esm & Emk & Emd)]].
  - destruct (WMake wk) as [m|]; [destruct (WModel wk) as [d|]|];
      destruct Hcase as (Esm & Emk & Emd);
      (split_and!; [done|rewrite Esm|rewrite Emk|rewrite Emd]);
      try done; try (by apply prefix_app_r); try apply grows_refl.
    + by apply alter_related; [apply makeGrows_refl|].
    + by apply alter_related; [apply modelGrows_refl|].
  - assert (∀ m mk, makes s !! m = Some mk →
              ∃ mk', makes1 !! m = Some mk' ∧ makeGrows mk mk') as H1.
    { destruct Hm1 as [->|[-> _]]; [apply grows_refl|].
      apply snoc_related, makeGrows_refl. }
    split_and!; [done|by rewrite Esm| |].
    + destruct Hcase as [(_ & -> & _)|(_ & d & _ & [(_ & -> & _)
                                                   |(_ & _ & _ & ->)])];
        [done|done|].
      intros m mk Hm. destruct (H1 m mk Hm) as (mk' & Hm' & G).
      destruct (alter_related makeGrows (Make_addModel d) p makes1
                  makeGrows_refl (Gd d) m mk' Hm') as (mk2 & Hm2 & G2).
      exists mk2. split; [done|by eapply makeGrows_trans].
    + destruct Hcase as [(_ & _ & ->)|(_ & d & _ & [(_ & _ & ->)
                                                   |(_ & _ & -> & _)])];
        [apply grows_refl|apply grows_refl|].
      apply snoc_related, modelGrows_refl.
  - split_and!; [done|by rewrite Esm|rewrite Emk|rewrite Emd];
      apply grows_refl.
Qed.

Lemma run_grows ts s s' :
  wf s → run s ts = Ok s' →
  grows s s'
  ∧ ∀ w wk, works s !! w = Some wk → newWork s ≠ Some w →
      ∃ wk', works s' !! w = Some wk' ∧ sameCore wk wk'
             ∧ newWork s' ≠ Some w.
Proof.
  revert s. induction ts as [|t ts IH]; intros s Hwf; cbn [run].
  - intros [= <-]. split; [apply grows_refl|].
    intros w wk Hwk Hc. exists wk. split_and!; [done|apply sameCore_refl|done].
  - destruct (step s t) as [s1| |] eqn:E; [|done|done].
    cbn [mbind Outcome_bind]. intros Hrun.
    destruct (IH s1 (step_wf _ _ _ Hwf E) Hrun) as [G C]. split.
    + eapply grows_trans; [by eapply step_grows|done].
    + intros w wk Hwk Hc.
      destruct (closed_work_core_stable _ _ _ _ _ Hwf E Hwk Hc)
        as (wk1 & Hwk1 & Hs1 & Hc1 & _).
      destruct (C w wk1 Hwk1 Hc1) as (wk' & Hwk' & Hs' & Hc').
      exists wk'. split_and!; [done|by eapply sameCore_trans|done].
Qed.

(** X12. Reading more tokens only adds to the graph.  Between a state
    reached from the start and any later state, no work is dropped; the list
    of the works without a make, and the lists of models and of works of
    every make and of works of every model, are extended at their end only;
    makes and models keep their place, name and page name; and a work that
    was closed keeps its identifier, file name, make and model, and stays
    closed. *)
Theorem graph_only_grows (before after : list Token) (s1 s2 : State) :
  run init before = Ok s1 → run s1 after = Ok s2 →
  (length (works s1) ≤ length (works s2))%nat
  ∧ worksSM s1 `prefix_of` worksSM s2
  ∧ (∀ m mk, makes s1 !! m = Some mk →
       ∃ mk', makes s2 !! m = Some mk'
         ∧ Make_Name mk' = Make_Name mk
         ∧ Make_PageURL mk' = Make_PageURL mk
         ∧ Make_Models mk `prefix_of` Make_Models mk'
         ∧ Make_Works mk `prefix_of` Make_Works mk')
  ∧ (∀ d md, models s1 !! d = Some md →
       ∃ md', models s2 !! d = Some md'
         ∧ Model_Name md' = Model_Name md
         ∧ Model_PageURL md' = Model_PageURL md
         ∧ MMake md' = MMake md
         ∧ Model_Works md `prefix_of` Model_Works md')
  ∧ (∀ w wk, works s1 !! w = Some wk → newWork s1 ≠ Some w →
       ∃ wk', works s2 !! w = Some wk'
         ∧ Work_ID wk' = Work_ID wk
         ∧ Work_FileName wk' = Work_FileName wk
         ∧ WMake wk' = WMake wk ∧ WModel wk' = WModel wk
         ∧ newWork s2 ≠ Some w).
Proof.
  intros H1 H2.
  destruct (run_grows after s1 s2 (reachable_wf _ _ H1) H2)
    as [(G1 & G2 & G3 & G4) C].
  split_and!; [done|done|done|done|].
  intros w wk Hwk Hc.
  destruct (C w wk Hwk Hc) as (wk' & Hwk' & (E1 & E2 & E3 & E4) & Hc').
  exists wk'. by split_and!.
Qed.

Lemma graph_only_grows_witness :
  let s1 := reached init sample_closed_work in
  let s2 := reached s1 sample_two_works in
  (length (works s1) ≤ length (works s2))%nat
  ∧ worksSM s1 `prefix_of` worksSM s2
  ∧ (∀ m mk, makes s1 !! m = Some mk →
       ∃ mk', makes s2 !! m = Some mk'
         ∧ Make_Name mk' = Make_Name mk
         ∧ Make_PageURL mk' = Make_PageURL mk
         ∧ Make_Models mk `prefix_of` Make_Models mk'
         ∧ Make_Works mk `prefix_of` Make_Works mk')
  ∧ (∀ d md, models s1 !! d = Some md →
       ∃ md', models s2 !! d = Some md'
         ∧ Model_Name md' = Model_Name md
         ∧ Model_PageURL md' = Model_PageURL md
         ∧ MMake md' = MMake md
         ∧ Model_Works md `prefix_of` Model_Works md')
  ∧ (∀ w wk, works s1 !! w = Some wk → newWork s1 ≠ Some w →
       ∃ wk', works s2 !! w = Some wk'
         ∧ Work_ID wk' = Work_ID wk
         ∧ Work_FileName wk' = Work_FileName wk
         ∧ WMake wk' = WMake wk ∧ WModel wk' = WModel wk
         ∧ newWork s2 ≠ Some w).
Proof.
  intros s1 s2.
  apply (graph_only_grows sample_closed_work sample_two_works s1 s2);
    by vm_compute.
Defined.

(** * The model text and the make text *)



(** * Reading a feed of the expected shape *)

(** ** The loop on states written out *)



























Example sample_items_graph :
  let s := reached init (feedTokens sample_items) in
  Work_ID <$> works s = [31; 32; -7]
  ∧ Make_Name <$> makes s = ["Nikon"; "(Generic make)"]
  ∧ Model_Name <$> models s = ["D90"; "D80"; "(Generic model)"]
  ∧ Make_Works <$> makes s = [[0; 1]; [2]]%nat
  ∧ Model_Works <$> models s = [[0]; [1]; [2]]%nat.
Proof. vm_compute. by repeat split. Qed.
